(** * ROHF self-consistent-field driver of psi4 (src/lib/libscf_solver/rohf.cc)

    A shallow embedding of the restricted open-shell Hartree-Fock solver:
    the PK/K supermatrix builder ([form_PK]), the density builder ([form_D]),
    the Fock builder ([form_G_from_PK], [form_F]), the DIIS hooks
    ([save_fock], [diis]) and the driver ([compute_energy]).

    Conventions of the embedding.
    - [double] arithmetic goes through the interface [Scalar]; the instance
      [binary64] is IEEE-754 double precision (the kernel's primitive floats),
      the instance [exactQ] is exact rational arithmetic.  Every operation is
      written in the order the C++ expression evaluates it.
    - Raw [double*] arrays ([pk_], [k_], the packed pair vectors) are lists
      indexed from 0; [int*] tables are lists of naturals.
    - [Matrix] and [Vector] of libmints are not part of this source file; they
      are total maps from (irrep, row, column) to a scalar.
    - [for (i = lo; i < hi; ++i)] is [for_loop lo hi]. *)

From Stdlib Require Import ZArith Lia List String QArith Qcanon.
From Stdlib Require Import Floats.PrimFloat.
From stdpp Require Import base option list numbers strings gmap.

(** ** Scalars *)

Class Scalar : Type := {
  num : Type;
  d0 : num;                      (* 0.0  *)
  d_quarter : num;               (* 0.25 *)
  d_half : num;                  (* 0.5  *)
  d2 : num;                      (* 2.0  *)
  dadd : num -> num -> num;
  dsub : num -> num -> num;
  dmul : num -> num -> num;
  dabs : num -> num;             (* fabs *)
  dlt : num -> num -> bool }.

Infix "⊞" := dadd (at level 50, left associativity).
Infix "⊟" := dsub (at level 50, left associativity).
Infix "⊠" := dmul (at level 40, left associativity).

(** IEEE-754 binary64: the C++ [double]. *)
Definition binary64 : Scalar :=
  {| num := float;
     d0 := 0%float; d_quarter := 0.25%float; d_half := 0.5%float; d2 := 2%float;
     dadd := PrimFloat.add; dsub := PrimFloat.sub; dmul := PrimFloat.mul;
     dabs := PrimFloat.abs; dlt := PrimFloat.ltb |}.

(** Exact rationals in canonical form. *)
Definition exactQ : Scalar :=
  {| num := Qc;
     d0 := Q2Qc 0; d_quarter := Q2Qc (1#4); d_half := Q2Qc (1#2); d2 := Q2Qc 2;
     dadd := Qcplus; dsub := Qcminus; dmul := Qcmult;
     dabs := fun x => if Qclt_le_dec x (Q2Qc 0) then Qcopp x else x;
     dlt := fun x y => if Qclt_le_dec x y then true else false |}.

(** The part of exact arithmetic the contraction theorems rely on: addition
    is a commutative monoid.  [binary64] does not satisfy it (rounding). *)
Record AddLaws (Sc : Scalar) : Prop := {
  dadd_comm : forall x y : num, x ⊞ y = y ⊞ x;
  dadd_assoc : forall x y z : num, x ⊞ (y ⊞ z) = x ⊞ y ⊞ z;
  dadd_0_l : forall x : num, d0 ⊞ x = x }.

(** ** Counted loops *)

(** [for (i = lo; i < hi; ++i) s = body i s;] *)
Definition for_loop {A : Type} (lo hi : nat) (body : nat -> A -> A) (a : A) : A :=
  foldl (fun s i => body i s) a (seq lo (hi - lo)).

(** ** Packed pair indices *)

(** Modelled from the spec: the [ioff] table and the [INDEX2] macro are
    declared outside src/ (psi4's global headers).  They give the packed
    lower-triangular index of an unordered pair, the "compound pair index"
    of the supermatrix: [ioff[i] = i*(i+1)/2] and
    [INDEX2(i,j) = i >= j ? ioff[i] + j : ioff[j] + i]. *)
Definition ioff (i : nat) : nat := i * (i + 1) / 2.

Definition INDEX2 (i j : nat) : nat :=
  if bool_decide (j <= i) then ioff i + j else ioff j + i.

(** ** Symmetry-blocked matrices *)

Section Model.
Context {Sc : Scalar}.

(** Modelled from the spec: libmints' [Matrix] and [Vector] are not under
    src/.  A symmetry-blocked matrix is a sequence of dense blocks, one per
    irrep; [get(h,i,j)] and [set(h,i,j,v)] index within block [h] only.  The
    block dimensions live in the factory ([nirreps], [opi] below). *)
Definition Matrix : Type := nat -> nat -> nat -> num.
Definition Vector : Type := nat -> nat -> num.

Definition mget (M : Matrix) (h i j : nat) : num := M h i j.

Definition mset (M : Matrix) (h i j : nat) (v : num) : Matrix :=
  fun h' i' j' =>
    if bool_decide (h' = h /\ i' = i /\ j' = j) then v else M h' i' j'.

(** [A->copy(B)] replaces [A] by [B]; [add], [scale] and [zero] are entrywise. *)
Definition madd (A B : Matrix) : Matrix := fun h i j => A h i j ⊞ B h i j.
Definition mscale (A : Matrix) (c : num) : Matrix := fun h i j => A h i j ⊠ c.
Definition mzero : Matrix := fun _ _ _ => d0.

(** ** DIIS manager *)

Inductive RemovalPolicy := LargestError | OldestAdded.
Inductive StoragePolicy := InCore | OnDisk.

(** Modelled from the spec: libdiis' [DIISManager] is not under src/.  It
    holds the bounded history of (error vector, Fock snapshot) pairs; its
    constructor receives the capacity, a label, the removal policy and the
    storage policy, and starts with an empty history. *)
Record DIISManager : Type := {
  dm_max_vecs : Z;
  dm_label : string;
  dm_removal : RemovalPolicy;
  dm_storage : StoragePolicy;
  dm_entries : list (Matrix * Matrix) }.

Definition new_DIISManager (max_vecs : Z) (label : string)
    (rp : RemovalPolicy) (sp : StoragePolicy) : DIISManager :=
  {| dm_max_vecs := max_vecs; dm_label := label; dm_removal := rp;
     dm_storage := sp; dm_entries := [] |}.

(** ** Integral file *)

(** One record of the IWL file PSIF_SO_TEI: four labels and a value.  The
    first label may carry a sign flag, which [form_PK] strips. *)
Record irec : Type := {
  lab_i : Z; lab_j : nat; lab_k : nat; lab_l : nat; ival : num }.

(** The file is a sequence of buffers; the buffer read at open time is
    [iwl_first], the buffers obtained by [fetch()] are [iwl_rest], and
    [last_buffer()] holds when no buffer is left. *)
Record IWL : Type := { iwl_first : list irec; iwl_rest : list (list irec) }.

(** ** The solver's state *)

(** Options and tables of the base class [HF], fixed during a run. *)
Record Config : Type := {
  nirreps : nat;                 (* factory_.nirrep() *)
  opi : list nat;                (* factory_.rowspi() *)
  maxiter_ : Z;
  energy_threshold_ : num;
  diis_enabled_ : bool;
  min_diis_vectors_ : Z;
  max_diis_vectors_ : Z;
  memory_ : nat;                 (* bytes *)
  pk_size_ : nat;
  pk_pairs_ : nat;
  pk_symoffset_ : list nat;
  so2symblk_ : list nat;
  so2index_ : list nat;
  nuclearrep_ : num;
  so_tei : IWL }.

Record ROHF : Type := {
  cfg : Config;
  scf_type_ : string;
  E_ : num;
  Eold_ : num;
  H_ : Matrix;
  Shalf_ : Matrix;
  Fc_ : Matrix;
  Fo_ : Matrix;
  Feff_ : Matrix;
  C_ : Matrix;
  Dc_ : Matrix;
  Do_ : Matrix;
  Dc_old_ : Matrix;
  Do_old_ : Matrix;
  Gc_ : Matrix;
  Go_ : Matrix;
  epsilon_ : Vector;
  doccpi_ : list nat;
  soccpi_ : list nat;
  pk_ : list num;                (* NULL before allocate_PK: the empty list *)
  k_ : list num;
  initialized_diis_manager_ : bool;
  diis_manager_ : option DIISManager }.

Definition set_scf_type (v : string) (s : ROHF) : ROHF :=
  let 'Build_ROHF a _ c d e f g h i j k l m n o p q r t u w x y := s in
  Build_ROHF a v c d e f g h i j k l m n o p q r t u w x y.
Definition set_E (v : num) (s : ROHF) : ROHF :=
  let 'Build_ROHF a b _ d e f g h i j k l m n o p q r t u w x y := s in
  Build_ROHF a b v d e f g h i j k l m n o p q r t u w x y.
Definition set_Eold (v : num) (s : ROHF) : ROHF :=
  let 'Build_ROHF a b c _ e f g h i j k l m n o p q r t u w x y := s in
  Build_ROHF a b c v e f g h i j k l m n o p q r t u w x y.
Definition set_H (v : Matrix) (s : ROHF) : ROHF :=
  let 'Build_ROHF a b c d _ f g h i j k l m n o p q r t u w x y := s in
  Build_ROHF a b c d v f g h i j k l m n o p q r t u w x y.
Definition set_Shalf (v : Matrix) (s : ROHF) : ROHF :=
  let 'Build_ROHF a b c d e _ g h i j k l m n o p q r t u w x y := s in
  Build_ROHF a b c d e v g h i j k l m n o p q r t u w x y.
Definition set_Fc (v : Matrix) (s : ROHF) : ROHF :=
  let 'Build_ROHF a b c d e f _ h i j k l m n o p q r t u w x y := s in
  Build_ROHF a b c d e f v h i j k l m n o p q r t u w x y.
Definition set_Fo (v : Matrix) (s : ROHF) : ROHF :=
  let 'Build_ROHF a b c d e f g _ i j k l m n o p q r t u w x y := s in
  Build_ROHF a b c d e f g v i j k l m n o p q r t u w x y.
Definition set_Feff (v : Matrix) (s : ROHF) : ROHF :=
  let 'Build_ROHF a b c d e f g h _ j k l m n o p q r t u w x y := s in
  Build_ROHF a b c d e f g h v j k l m n o p q r t u w x y.
Definition set_C (v : Matrix) (s : ROHF) : ROHF :=
  let 'Build_ROHF a b c d e f g h i _ k l m n o p q r t u w x y := s in
  Build_ROHF a b c d e f g h i v k l m n o p q r t u w x y.
Definition set_Dc (v : Matrix) (s : ROHF) : ROHF :=
  let 'Build_ROHF a b c d e f g h i j _ l m n o p q r t u w x y := s in
  Build_ROHF a b c d e f g h i j v l m n o p q r t u w x y.
Definition set_Do (v : Matrix) (s : ROHF) : ROHF :=
  let 'Build_ROHF a b c d e f g h i j k _ m n o p q r t u w x y := s in
  Build_ROHF a b c d e f g h i j k v m n o p q r t u w x y.
Definition set_Dc_old (v : Matrix) (s : ROHF) : ROHF :=
  let 'Build_ROHF a b c d e f g h i j k l _ n o p q r t u w x y := s in
  Build_ROHF a b c d e f g h i j k l v n o p q r t u w x y.
Definition set_Do_old (v : Matrix) (s : ROHF) : ROHF :=
  let 'Build_ROHF a b c d e f g h i j k l m _ o p q r t u w x y := s in
  Build_ROHF a b c d e f g h i j k l m v o p q r t u w x y.
Definition set_Gc (v : Matrix) (s : ROHF) : ROHF :=
  let 'Build_ROHF a b c d e f g h i j k l m n _ p q r t u w x y := s in
  Build_ROHF a b c d e f g h i j k l m n v p q r t u w x y.
Definition set_Go (v : Matrix) (s : ROHF) : ROHF :=
  let 'Build_ROHF a b c d e f g h i j k l m n o _ q r t u w x y := s in
  Build_ROHF a b c d e f g h i j k l m n o v q r t u w x y.
Definition set_epsilon (v : Vector) (s : ROHF) : ROHF :=
  let 'Build_ROHF a b c d e f g h i j k l m n o p _ r t u w x y := s in
  Build_ROHF a b c d e f g h i j k l m n o p v r t u w x y.
Definition set_doccpi (v : list nat) (s : ROHF) : ROHF :=
  let 'Build_ROHF a b c d e f g h i j k l m n o p q _ t u w x y := s in
  Build_ROHF a b c d e f g h i j k l m n o p q v t u w x y.
Definition set_soccpi (v : list nat) (s : ROHF) : ROHF :=
  let 'Build_ROHF a b c d e f g h i j k l m n o p q r _ u w x y := s in
  Build_ROHF a b c d e f g h i j k l m n o p q r v u w x y.
Definition set_pk (v : list num) (s : ROHF) : ROHF :=
  let 'Build_ROHF a b c d e f g h i j k l m n o p q r t _ w x y := s in
  Build_ROHF a b c d e f g h i j k l m n o p q r t v w x y.
Definition set_k (v : list num) (s : ROHF) : ROHF :=
  let 'Build_ROHF a b c d e f g h i j k l m n o p q r t u _ x y := s in
  Build_ROHF a b c d e f g h i j k l m n o p q r t u v x y.
Definition set_initialized_diis_manager (v : bool) (s : ROHF) : ROHF :=
  let 'Build_ROHF a b c d e f g h i j k l m n o p q r t u w _ y := s in
  Build_ROHF a b c d e f g h i j k l m n o p q r t u w v y.
Definition set_diis_manager (v : option DIISManager) (s : ROHF) : ROHF :=
  let 'Build_ROHF a b c d e f g h i j k l m n o p q r t u w x _ := s in
  Build_ROHF a b c d e f g h i j k l m n o p q r t u w x v.

(** The sum of [f m] over [lo <= m < hi], accumulated from [0.0] in
    increasing [m]. *)
Definition dsum (lo hi : nat) (f : nat -> num) : num :=
  for_loop lo hi (fun m acc => acc ⊞ f m) d0.

(** ** Density builder: [ROHF::form_D] *)

(** The two inner accumulations and the two [set] calls for one (h,i,j). *)
Definition form_D_entry (C : Matrix) (docc socc : nat) (h i j : nat)
    (D : Matrix * Matrix) : Matrix * Matrix :=
  let '(Dc, Do) := D in
  let val := for_loop 0 docc
               (fun m val => val ⊞ mget C h i m ⊠ mget C h j m) d0 in
  let Dc := mset Dc h i j val in
  let val := for_loop docc (docc + socc)
               (fun m val => val ⊞ mget C h i m ⊠ mget C h j m) d0 in
  let Do := mset Do h i j val in
  (Dc, Do).

Definition form_D_loops (C : Matrix) (nirr : nat) (dims docc socc : list nat)
    (D : Matrix * Matrix) : Matrix * Matrix :=
  for_loop 0 nirr (fun h =>
    for_loop 0 (dims !!! h) (fun i =>
      for_loop 0 (dims !!! h) (fun j =>
        form_D_entry C (docc !!! h) (socc !!! h) h i j))) D.

Definition form_D (st : ROHF) : ROHF :=
  let D := form_D_loops (C_ st) (nirreps (cfg st)) (opi (cfg st))
             (doccpi_ st) (soccpi_ st) (Dc_ st, Do_ st) in
  set_Do (snd D) (set_Dc (fst D) st).

(** ** Collaborators *)

(** What [HF::load_or_compute_initial_C] leaves behind: the starting
    orbitals, occupations, densities and energy, and whether they came from
    the checkpoint file. *)
Record InitialGuess : Type := {
  ig_loaded : bool;
  ig_C : Matrix;
  ig_epsilon : Vector;
  ig_doccpi : list nat;
  ig_soccpi : list nat;
  ig_Dc : Matrix;
  ig_Do : Matrix;
  ig_E : num }.

(** Routines of libmints, libdiis and the base class [HF] that [rohf.cc]
    calls but does not define.  Each is typed by the members it may touch. *)
Record Collab : Type := {
  transform : Matrix -> Matrix -> Matrix;     (* A->transform(F, C): C^t F C *)
  diagonalize : Matrix -> Matrix * Vector;    (* eigenvectors, eigenvalues *)
  gemm : Matrix -> Matrix -> Matrix;          (* gemm(false,false,1.0,A,B,0.0) *)
  vector_dot : Matrix -> Matrix -> num;
  find_occupation : Vector -> list nat * list nat -> list nat * list nat;
  extrapolate : DIISManager -> Matrix -> bool * Matrix;
  form_H : Matrix;                            (* the core Hamiltonian it stores *)
  form_Shalf : Matrix;
  load_or_compute_initial_C : ROHF -> InitialGuess;
  form_G_from_RI : ROHF -> Matrix * Matrix;   (* Gc_, Go_ of the DF/CD paths *)
  nbf : nat;                                  (* basisset_->nbf() *)
  print_mos : bool;                           (* option PRINT_MOS *)
  compute_fcpi : Vector -> list nat;
  compute_fvpi : Vector -> list nat }.

(** ** Output *)

Inductive chkpt_write : Type :=
  | wt_nirreps (n : nat) | wt_irr_labs
  | wt_nso (n : nat) | wt_nmo (n : nat) | wt_ref (r : Z)
  | wt_etot (e : num) | wt_escf (e : num) | wt_eref (e : num)
  | wt_clsdpi (l : list nat) | wt_orbspi (l : list nat) | wt_openpi (l : list nat)
  | wt_phase_check (z : Z)
  | wt_frzcpi (l : list nat) | wt_frzvpi (l : list nat)
  | wt_iopen (n : nat) | wt_evals (v : Vector) | wt_scf (C : Matrix).

(** What a run writes: messages on [outfile], checkpoint records and the
    Fock matrix saved to unit 32.  [Print] carries the text of a message
    (its format string when it has arguments, without the newlines); the
    iteration line and the processed-integrals line carry their arguments;
    a formatted table is one event.  Debug printing is left out. *)
Inductive event : Type :=
  | Print (s : string)
  | PrintProcessed (counter : nat)
  | PrintIter (iter : Z) (E dE : num) (diis_iter : bool)
  | PrintOcc (label : string) (occ : list nat)
  | PrintMOs
  | PrintOrbitalEnergies
  | Chkpt (w : chkpt_write)
  | PsioSave (F : Matrix) (unit : nat).

(** How a call ends: it returns, the process is ended by [abort()], a null
    pointer is dereferenced, or the model's fuel ran out. *)
Inductive Res (A : Type) : Type :=
  | Ret (a : A)
  | Abort (msg : string)
  | Undefined
  | OutOfFuel.
Global Arguments Ret {A} a.
Global Arguments Abort {A} msg.
Global Arguments Undefined {A}.
Global Arguments OutOfFuel {A}.

(** ** Fock builder: [ROHF::form_F] *)

(** The three [j] loops for one open-shell row [i] of irrep [h]. *)
Definition form_F_row (Fct Fot : Matrix) (docc socc dim h i : nat)
    (Feff : Matrix) : Matrix :=
  (* Set the open/closed portion *)
  let Feff := for_loop 0 docc (fun j Feff =>
                let val := d2 ⊠ (mget Fct h i j ⊟ mget Fot h i j) in
                mset (mset Feff h i j val) h j i val) Feff in
  (* Set the open/virtual portion *)
  let Feff := for_loop (docc + socc) dim (fun j Feff =>
                let val := d2 ⊠ mget Fot h i j in
                mset (mset Feff h i j val) h j i val) Feff in
  (* Set the open/open portion *)
  for_loop docc (docc + socc) (fun j Feff =>
    let val := mget Fot h i j in
    mset (mset Feff h i j val) h j i val) Feff.

(** [Feff_->copy(Fct)] followed by the loop over irreps and open rows. *)
Definition form_Feff (Fct Fot : Matrix) (nirr : nat) (dims docc socc : list nat)
    : Matrix :=
  for_loop 0 nirr (fun h =>
    for_loop (docc !!! h) (docc !!! h + socc !!! h) (fun i =>
      form_F_row Fct Fot (docc !!! h) (socc !!! h) (dims !!! h) h i)) Fct.

Definition form_F (ext : Collab) (st : ROHF) : ROHF :=
  let Fc := madd (H_ st) (Gc_ st) in
  let Fo := madd (mscale (H_ st) d_half) (Go_ st) in
  let Fct := transform ext Fc (C_ st) in
  let Fot := transform ext Fo (C_ st) in
  let Feff := form_Feff Fct Fot (nirreps (cfg st)) (opi (cfg st))
                (doccpi_ st) (soccpi_ st) in
  set_Feff Feff (set_Fo Fo (set_Fc Fc st)).

(** ** Orbitals and energy: [form_C], [compute_E], [test_convergency] *)

Definition form_C (ext : Collab) (st : ROHF) : ROHF :=
  let '(eigvec, eps) := diagonalize ext (Feff_ st) in
  let st := set_epsilon eps st in
  let '(docc, socc) := find_occupation ext eps (doccpi_ st, soccpi_ st) in
  let st := set_soccpi socc (set_doccpi docc st) in
  let temp := gemm ext (C_ st) eigvec in
  set_C temp st.

Definition compute_E (ext : Collab) (st : ROHF) : num :=
  let HFc := madd (H_ st) (Fc_ st) in
  let HFo := madd (mscale (H_ st) d_half) (Fo_ st) in
  nuclearrep_ (cfg st) ⊞ vector_dot ext (Dc_ st) HFc ⊞ vector_dot ext (Do_ st) HFo.

Definition test_convergency (st : ROHF) : bool :=
  let ediff := E_ st ⊟ Eold_ st in
  if dlt (dabs ediff) (energy_threshold_ (cfg st)) then true else false.

(** ** DIIS hooks: [save_fock], [diis] *)

(** Only the construction of the manager is live code; the statements that
    stored the Fock matrix are commented out in the source.  The two
    [set_*_size] calls fix the shape of the entries and change nothing that
    [DIISManager] records here. *)
Definition save_fock (st : ROHF) : ROHF :=
  if initialized_diis_manager_ st then st
  else
    let m := new_DIISManager (max_diis_vectors_ (cfg st)) "HF DIIS vector"
               LargestError OnDisk in
    set_initialized_diis_manager true (set_diis_manager (Some m) st).

Definition diis (ext : Collab) (st : ROHF) : Res (bool * ROHF) :=
  match diis_manager_ st with
  | Some m => let '(ok, F) := extrapolate ext m (Feff_ st) in Ret (ok, set_Feff F st)
  | None => Undefined
  end.

(** The entries the DIIS manager holds ([[]] while there is no manager). *)
Definition diis_history (st : ROHF) : list (Matrix * Matrix) :=
  match diis_manager_ st with
  | Some m => dm_entries m
  | None => []
  end.

(** ** PK supermatrix: [allocate_PK], [form_PK] *)

(** [operator new] throws rather than returning NULL, so the inner
    [pk_ == NULL] branch of the source is never taken. *)
Definition allocate_PK (st : ROHF) : list event * ROHF :=
  if bool_decide (pk_size_ (cfg st) < memory_ (cfg st) / 8 / 2) then
    let z := replicate (pk_size_ (cfg st)) d0 in
    ([Print "  Allocated %lu elements (%lu pairs) for PK. (%5f MiB)";
      Print "  Allocated %lu elements (%lu pairs) for K.  (%5f MiB)"],
     set_k z (set_pk z st))
  else
    ([Print "  Insufficient memory for in-core PK implementation.";
      Print "  Would need %lu elements of double memory. (%5f MiB)";
      Print "  Switching to out-of-core algorithm."],
     set_scf_type "OUT_OF_CORE" st).

(** [a[idx] += v], [a[idx] -= v] and [a[idx] *= v] on a raw array.  Outside
    the array the C++ statement has no defined behaviour; here it leaves the
    array as it is. *)
Definition arr_add (a : list num) (idx : nat) (v : num) : list num :=
  alter (fun x => x ⊞ v) idx a.
Definition arr_sub (a : list num) (idx : nat) (v : num) : list num :=
  alter (fun x => x ⊟ v) idx a.
Definition arr_mul (a : list num) (idx : nat) (v : num) : list num :=
  alter (fun x => x ⊠ v) idx a.

(** The body of the [idx] loop of [form_PK]: one integral record. *)
Definition form_PK_record (c : Config) (r : irec)
    (P : list num * list num) : list num * list num :=
  let '(pk, k) := P in
  let i := Z.abs_nat (lab_i r) in
  let j := lab_j r in
  let k' := lab_k r in
  let l := lab_l r in
  let value := ival r in
  (* Get the symmetries ([is_] is the source's [is]) *)
  let is_ := so2symblk_ c !!! i in
  let js := so2symblk_ c !!! j in
  let ks := so2symblk_ c !!! k' in
  let ls := so2symblk_ c !!! l in
  (* Get the offset of the SO index in its symblock *)
  let ii := so2index_ c !!! i in
  let jj := so2index_ c !!! j in
  let kk := so2index_ c !!! k' in
  let ll := so2index_ c !!! l in
  (* J *)
  let '(pk, k) :=
    if bool_decide (is_ = js) && bool_decide (ks = ls) then
      let bra := INDEX2 ii jj in
      let ket := INDEX2 kk ll in
      let braket := INDEX2 (bra + pk_symoffset_ c !!! is_)
                           (ket + pk_symoffset_ c !!! ks) in
      let pk := arr_add pk braket value in
      (* K/2 (2nd sort) *)
      if bool_decide (ii <> jj) && bool_decide (kk <> ll) then
        if bool_decide (is_ = ls) && bool_decide (js = ks) then
          let bra := INDEX2 ii ll in
          let ket := INDEX2 jj kk in
          let braket := INDEX2 (bra + pk_symoffset_ c !!! is_)
                               (ket + pk_symoffset_ c !!! js) in
          if bool_decide (ii = ll) || bool_decide (jj = kk) then
            (arr_sub pk braket (d_half ⊠ value),
             arr_sub k braket (d_half ⊠ value))
          else
            (arr_sub pk braket (d_quarter ⊠ value),
             arr_sub k braket (d_quarter ⊠ value))
        else (pk, k)
      else (pk, k)
    else (pk, k) in
  (* K/2 (1st sort) *)
  if bool_decide (is_ = ks) && bool_decide (js = ls) then
    let bra := INDEX2 ii kk in
    let ket := INDEX2 jj ll in
    let braket := INDEX2 (bra + pk_symoffset_ c !!! is_)
                         (ket + pk_symoffset_ c !!! js) in
    if bool_decide (ii = kk) || bool_decide (jj = ll) then
      (arr_sub pk braket (d_half ⊠ value),
       arr_sub k braket (d_half ⊠ value))
    else
      (arr_sub pk braket (d_quarter ⊠ value),
       arr_sub k braket (d_quarter ⊠ value))
  else (pk, k).

(** The buffers of the file in the order the [do ... while (!ilsti)] loop
    meets them. *)
Definition iwl_buffers (f : IWL) : list (list irec) :=
  iwl_first f :: iwl_rest f.

Definition form_PK_stream (c : Config) (P : list num * list num)
    : list num * list num :=
  foldl (fun P buf => foldl (fun P r => form_PK_record c r P) P buf)
        P (iwl_buffers (so_tei c)).

(** "The elements of P must be halved for the case IJ=KL." *)
Definition form_PK_halve (pairs : nat) (P : list num * list num)
    : list num * list num :=
  for_loop 0 pairs (fun ij '(pk, k) =>
    (arr_mul pk (INDEX2 ij ij) d_half, arr_mul k (INDEX2 ij ij) d_half)) P.

Definition form_PK (st : ROHF) : list event * ROHF :=
  let c := cfg st in
  let counter := length (concat (iwl_buffers (so_tei c))) in
  let P := form_PK_stream c (pk_ st, k_ st) in
  let P := form_PK_halve (pk_pairs_ c) P in
  ([Print "  Forming PK and K matrices."; PrintProcessed counter],
   set_k (snd P) (set_pk (fst P) st)).

(** ** G matrices from PK: [ROHF::form_G_from_PK] *)

(** Reading [a[i]]; [d0] stands in for a read outside the array. *)
Definition rd (a : list num) (i : nat) : num := default d0 (a !! i).

(** The first triple loop: densities packed into pair vectors.  The state is
    the running index [ij] and the two vectors. *)
Definition pack_D (nirr : nat) (dims : list nat) (Dc Do : Matrix) (pairs : nat)
    : nat * list num * list num :=
  for_loop 0 nirr (fun h =>
    for_loop 0 (dims !!! h) (fun p =>
      for_loop 0 (p + 1) (fun q '(ij, Dcv, Dov) =>
        if bool_decide (p <> q) then
          (ij + 1, <[ij := d2 ⊠ mget Dc h p q]> Dcv,
                   <[ij := d2 ⊠ mget Do h p q]> Dov)
        else
          (ij + 1, <[ij := mget Dc h p q]> Dcv,
                   <[ij := mget Do h p q]> Dov))))
    (0, replicate pairs d0, replicate pairs d0).

(** The state of the contraction: the two row accumulators, the two G
    vectors and the offset of [PK_block]/[K_block] from [pk_]/[k_]. *)
Record sweep_state : Type := {
  Gc_pq : num; Go_pq : num;
  Gc_vector : list num; Go_vector : list num;
  blk : nat }.

(** The body of the [rs] loop; [Dc_rs], [Gc_rs], ... point at element [rs]. *)
Definition sweep_step (pk k Dcv Dov : list num) (pq rs : nat)
    (s : sweep_state) : sweep_state :=
  let PK := rd pk (blk s) in
  let K := rd k (blk s) in
  let Dc_pq := rd Dcv pq in
  let Do_pq := rd Dov pq in
  let Dc_rs := rd Dcv rs in
  let Do_rs := rd Dov rs in
  let gc := Gc_pq s ⊞ PK ⊠ Dc_rs in
  let Gcv := arr_add (Gc_vector s) rs (PK ⊠ Dc_pq) in
  let gc := gc ⊞ PK ⊠ Do_rs ⊠ d_half in
  let Gcv := arr_add Gcv rs (PK ⊠ Do_pq ⊠ d_half) in
  let go := Go_pq s ⊞ PK ⊠ Dc_rs ⊠ d_half in
  let Gov := arr_add (Go_vector s) rs (PK ⊠ Dc_pq ⊠ d_half) in
  let go := go ⊞ (PK ⊞ K) ⊠ Do_rs ⊠ d_quarter in
  let Gov := arr_add Gov rs ((PK ⊞ K) ⊠ Do_pq ⊠ d_quarter) in
  {| Gc_pq := gc; Go_pq := go; Gc_vector := Gcv; Go_vector := Gov;
     blk := blk s + 1 |}.

(** The body of the [pq] loop. *)
Definition sweep_row (pk k Dcv Dov : list num) (pq : nat)
    (s : sweep_state) : sweep_state :=
  let s := {| Gc_pq := d0; Go_pq := d0; Gc_vector := Gc_vector s;
              Go_vector := Go_vector s; blk := blk s |} in
  let s := for_loop 0 (pq + 1) (sweep_step pk k Dcv Dov pq) s in
  {| Gc_pq := Gc_pq s; Go_pq := Go_pq s;
     Gc_vector := arr_add (Gc_vector s) pq (Gc_pq s);
     Go_vector := arr_add (Go_vector s) pq (Go_pq s);
     blk := blk s |}.

Definition sweep (pk k Dcv Dov : list num) (pairs : nat) : sweep_state :=
  for_loop 0 pairs (sweep_row pk k Dcv Dov)
    {| Gc_pq := d0; Go_pq := d0;
       Gc_vector := replicate pairs d0; Go_vector := replicate pairs d0;
       blk := 0 |}.

(** "Convert G to a matrix": the last triple loop, on zeroed [Gc_], [Go_]. *)
Definition unpack_G (nirr : nat) (dims : list nat) (Gcv Gov : list num)
    : nat * Matrix * Matrix :=
  for_loop 0 nirr (fun h =>
    for_loop 0 (dims !!! h) (fun p =>
      for_loop 0 (p + 1) (fun q '(ij, Gc, Go) =>
        let Gc := mset Gc h p q (d2 ⊠ rd Gcv ij) in
        let Gc := mset Gc h q p (d2 ⊠ rd Gcv ij) in
        let Go := mset Go h p q (d2 ⊠ rd Gov ij) in
        let Go := mset Go h q p (d2 ⊠ rd Gov ij) in
        (ij + 1, Gc, Go))))
    (0, mzero, mzero).

Definition form_G_from_PK (st : ROHF) : ROHF :=
  let c := cfg st in
  let '(_, Dcv, Dov) :=
    pack_D (nirreps c) (opi c) (Dc_ st) (Do_ st) (pk_pairs_ c) in
  let s := sweep (pk_ st) (k_ st) Dcv Dov (pk_pairs_ c) in
  let '(_, Gc, Go) :=
    unpack_G (nirreps c) (opi c) (Gc_vector s) (Go_vector s) in
  set_Go Go (set_Gc Gc st).

(** The two paths that are declared but not implemented end the process. *)
Definition form_G (st : ROHF) : Res ROHF :=
  Abort "ROHF out-of-core algorithm is not implemented yet!".

Definition form_G_from_direct_integrals (st : ROHF) : Res ROHF :=
  Abort "ROHF integral direct algorithm is not implemented yet!".

(** ** Persistence: [ROHF::save_information] *)

Definition is_df (scf_type : string) : bool :=
  bool_decide (scf_type = "DF") || bool_decide (scf_type = "CD")
  || bool_decide (scf_type = "1C_CD").

Definition save_information (ext : Collab) (st : ROHF) : list event :=
  let c := cfg st in
  let nso := nbf ext in
  let nopenirreps :=
    for_loop 0 (nirreps c) (fun i n =>
      if bool_decide (soccpi_ st !!! i <> 0) then n + 1 else n) 0 in
  [Chkpt (wt_nirreps (nirreps c)); Chkpt wt_irr_labs;
   PrintOcc "Final DOCC vector" (doccpi_ st);
   PrintOcc "Final SOCC vector" (soccpi_ st)]
  ++ (if print_mos ext then [Print "  Molecular orbitals:"; PrintMOs] else [])
  ++ [PrintOrbitalEnergies;
      Chkpt (wt_nso nso); Chkpt (wt_nmo nso); Chkpt (wt_ref 2);
      Chkpt (wt_etot (E_ st)); Chkpt (wt_escf (E_ st)); Chkpt (wt_eref (E_ st));
      Chkpt (wt_clsdpi (doccpi_ st)); Chkpt (wt_orbspi (opi c));
      Chkpt (wt_openpi (soccpi_ st)); Chkpt (wt_phase_check 0);
      PsioSave (Feff_ st) 32;
      Chkpt (wt_frzcpi (compute_fcpi ext (epsilon_ st)));
      Chkpt (wt_frzvpi (compute_fvpi ext (epsilon_ st)));
      Chkpt (wt_iopen (nopenirreps * (nopenirreps + 1)));
      Chkpt (wt_evals (epsilon_ st)); Chkpt (wt_scf (C_ st))].

(** The records a run hands to the persistence collaborator. *)
Definition is_persistence (e : event) : bool :=
  match e with
  | Chkpt _ | PsioSave _ _ => true
  | _ => false
  end.

Definition persisted (out : list event) : list event :=
  List.filter is_persistence out.

(** ** The driver: [ROHF::compute_energy] *)

(** The choice of the G build by [scf_type_]. *)
Definition build_G (ext : Collab) (st : ROHF) : Res ROHF :=
  if bool_decide (scf_type_ st = "PK") then Ret (form_G_from_PK st)
  else if bool_decide (scf_type_ st = "DIRECT") then
    form_G_from_direct_integrals st
  else if is_df (scf_type_ st) then
    let '(Gc, Go) := form_G_from_RI ext st in Ret (set_Go Go (set_Gc Gc st))
  else if bool_decide (scf_type_ st = "OUT_OF_CORE") then form_G st
  else Ret st.

(** [if (diis_enabled_ == true && iter >= min_diis_vectors_ && iter % 6 == 0)
     { diis(); diis_iter = true; } else { diis_iter = false; }] *)
Definition diis_step (ext : Collab) (iter : Z) (st : ROHF) : Res (bool * ROHF) :=
  if diis_enabled_ (cfg st)
     && bool_decide (min_diis_vectors_ (cfg st) <= iter)%Z
     && bool_decide (Z.rem iter 6 = 0)%Z
  then match diis ext st with
       | Ret (_, st) => Ret (true, st)
       | Abort m => Abort m
       | Undefined => Undefined
       | OutOfFuel => OutOfFuel
       end
  else Ret (false, st).

(** One pass through the body of the [do ... while] loop, up to and
    including [form_D]; [iter] is the counter after [iter++]. *)
Definition scf_iteration (ext : Collab) (iter : Z) (st : ROHF)
    : Res (list event * ROHF) :=
  let st := set_Dc_old (Dc_ st) st in
  let st := set_Do_old (Do_ st) st in
  let st := set_Eold (E_ st) st in
  match build_G ext st with
  | Ret st =>
    let st := form_F ext st in
    let st := if diis_enabled_ (cfg st) then save_fock st else st in
    let st := set_E (compute_E ext st) st in
    match diis_step ext iter st with
    | Ret (diis_iter, st) =>
      let line := PrintIter iter (E_ st) (E_ st ⊟ Eold_ st) diis_iter in
      let st := form_C ext st in
      let st := form_D st in
      Ret ([line], st)
    | Abort m => Abort m
    | Undefined => Undefined
    | OutOfFuel => OutOfFuel
    end
  | Abort m => Abort m
  | Undefined => Undefined
  | OutOfFuel => OutOfFuel
  end.

(** [do { iter++; ...; converged = test_convergency(); }
     while (!converged && iter < maxiter_);]
    The result carries [converged], the final [iter], the output and the
    state.  [fuel] bounds the number of times the loop is re-entered. *)
Fixpoint scf_loop (ext : Collab) (fuel : nat) (iter : Z) (out : list event)
    (st : ROHF) : Res (bool * Z * list event * ROHF) :=
  let iter := (iter + 1)%Z in
  match scf_iteration ext iter st with
  | Ret (line, st) =>
    let converged := test_convergency st in
    let out := out ++ line in
    if negb converged && bool_decide (iter < maxiter_ (cfg st))%Z then
      match fuel with
      | O => OutOfFuel
      | S fuel => scf_loop ext fuel iter out st
      end
    else Ret (converged, iter, out, st)
  | Abort m => Abort m
  | Undefined => Undefined
  | OutOfFuel => OutOfFuel
  end.

(** What a call of [compute_energy] amounts to: how it ended (with the
    energy it returned), the final value of the local [iter], the output
    and the state the object is left in. *)
Record Run : Type := {
  run_result : Res num;
  run_iter : Z;
  run_out : list event;
  run_state : ROHF }.

(** The work before the loop.  [form_B]/[free_B] manage the density-fitting
    tensors, which are not part of this state. *)
Definition scf_init (ext : Collab) (st : ROHF) : list event * ROHF :=
  let st := set_H (form_H ext) st in
  let '(o1, st) :=
    if bool_decide (scf_type_ st = "PK") then form_PK st
    else ([], st) in
  let '(o2, st) :=
    if bool_decide (scf_type_ st = "PK") then form_PK st
    else ([], st) in
  let st := set_Shalf (form_Shalf ext) st in
  let g := load_or_compute_initial_C ext st in
  let st := set_E (ig_E g) (set_Do (ig_Do g) (set_Dc (ig_Dc g)
             (set_soccpi (ig_soccpi g) (set_doccpi (ig_doccpi g)
             (set_epsilon (ig_epsilon g) (set_C (ig_C g) st)))))) in
  let o3 := if ig_loaded g
            then [Print "  Read in previous MOs from file32."] else [] in
  (o1 ++ o2 ++ o3 ++ [Print "                                  Total Energy            Delta E              Density RMS"], st).

Definition compute_energy (ext : Collab) (st : ROHF) : Run :=
  let '(out, st) := scf_init ext st in
  match scf_loop ext (Z.to_nat (maxiter_ (cfg st))) 0 out st with
  | Ret (converged, iter, out, st) =>
    (* Return the final ROHF energy *)
    if converged then
      {| run_result := Ret (E_ st); run_iter := iter;
         run_out := out ++ [Print "  Energy converged."]
                        ++ save_information ext st;
         run_state := st |}
    else
      {| run_result := Ret d0; run_iter := iter;
         run_out := out ++ [Print "  Failed to converge."];
         run_state := st |}
  | Abort m =>
    {| run_result := Abort m; run_iter := 0; run_out := out; run_state := st |}
  | Undefined =>
    {| run_result := Undefined; run_iter := 0; run_out := out; run_state := st |}
  | OutOfFuel =>
    {| run_result := OutOfFuel; run_iter := 0; run_out := out; run_state := st |}
  end.

(** ** The pairing rule of [form_PK] on SO indices *)

(** What one integral adds to the supermatrices: a Coulomb term, added to
    [pk_] at full weight, or an exchange term, subtracted from both [pk_]
    and [k_] with weight [w]. *)
Inductive deposit : Type :=
  | Coulomb (idx : nat) (v : num)
  | Exchange (idx : nat) (w v : num).

Definition apply_deposit (d : deposit) (P : list num * list num)
    : list num * list num :=
  match d with
  | Coulomb idx v => (arr_add (fst P) idx v, snd P)
  | Exchange idx w v => (arr_sub (fst P) idx (w ⊠ v), arr_sub (snd P) idx (w ⊠ v))
  end.

Definition irrep_of (c : Config) (a : nat) : nat := so2symblk_ c !!! a.

(** The position of the orbital pair (a,b), both of the irrep of [a], among
    the symmetry-allowed pairs. *)
Definition pair_index (c : Config) (a b : nat) : nat :=
  INDEX2 (so2index_ c !!! a) (so2index_ c !!! b)
  + pk_symoffset_ c !!! irrep_of c a.

(** The weight of the exchange term under the pairing (ab|cd): 0.5 when the
    pair (a,b) or the pair (c,d) of that pairing is diagonal, 0.25 otherwise. *)
Definition pairing_weight (a b c d : nat) : num :=
  if bool_decide (a = b) || bool_decide (c = d) then d_half else d_quarter.

(** The deposits of the record (ij|kl), in the order they are made. *)
Definition pk_deposits (c : Config) (r : irec) : list deposit :=
  let i := Z.abs_nat (lab_i r) in
  let j := lab_j r in
  let k := lab_k r in
  let l := lab_l r in
  let coulomb :=
    bool_decide (irrep_of c i = irrep_of c j)
    && bool_decide (irrep_of c k = irrep_of c l) in
  (if coulomb
   then [Coulomb (INDEX2 (pair_index c i j) (pair_index c k l)) (ival r)]
   else [])
  ++ (if coulomb && bool_decide (i <> j) && bool_decide (k <> l)
         && bool_decide (irrep_of c i = irrep_of c l)
         && bool_decide (irrep_of c j = irrep_of c k)
      then [Exchange (INDEX2 (pair_index c i l) (pair_index c j k))
                     (pairing_weight i l j k) (ival r)]
      else [])
  ++ (if bool_decide (irrep_of c i = irrep_of c k)
         && bool_decide (irrep_of c j = irrep_of c l)
      then [Exchange (INDEX2 (pair_index c i k) (pair_index c j l))
                     (pairing_weight i k j l) (ival r)]
      else []).

(** The weight rule as the specification words it: 0.5 when one of the two
    original index pairs is diagonal ([i == j] or [k == l]), 0.25 otherwise. *)
Definition claimed_exchange_weight (r : irec) : num :=
  if bool_decide (Z.abs_nat (lab_i r) = lab_j r) || bool_decide (lab_k r = lab_l r)
  then d_half else d_quarter.

(** ** Observations on a run *)

Definition is_forming_PK (e : event) : bool :=
  match e with
  | Print s => bool_decide (s = "  Forming PK and K matrices.")
  | _ => false
  end.

Definition is_diis_line (e : event) : bool :=
  match e with
  | PrintIter _ _ _ diis_iter => diis_iter
  | _ => false
  end.

(** The members no step of the iteration may change, and the DIIS members. *)
Definition fixed_part (st : ROHF) : Config * string * list num * list num :=
  (cfg st, scf_type_ st, pk_ st, k_ st).

Definition diis_part (st : ROHF) : bool * option DIISManager :=
  (initialized_diis_manager_ st, diis_manager_ st).

(** The flag and the pointer agree: a manager exists once the flag is set. *)
Definition diis_wf (st : ROHF) : Prop :=
  initialized_diis_manager_ st = true -> is_Some (diis_manager_ st).

(** ** The contraction of [form_G_from_PK], one accumulator at a time *)

(** Where the pairs of irrep [h] start among all pairs: the sum of
    [ioff[opi[h']]] over [h' < h]. *)
Fixpoint pair_offset (dims : list nat) (h : nat) : nat :=
  match h with
  | O => 0
  | S h' => pair_offset dims h' + ioff (dims !!! h')
  end.

(** The packed density vectors [form_G_from_PK] works on. *)
Definition Dc_vector_of (st : ROHF) : list num :=
  snd (fst (pack_D (nirreps (cfg st)) (opi (cfg st)) (Dc_ st) (Do_ st)
              (pk_pairs_ (cfg st)))).
Definition Do_vector_of (st : ROHF) : list num :=
  snd (pack_D (nirreps (cfg st)) (opi (cfg st)) (Dc_ st) (Do_ st)
         (pk_pairs_ (cfg st))).

(** The entry of a packed vector for the pair (p,q) of irrep [h]. *)
Definition packed_entry (D : Matrix) (h p q : nat) : num :=
  if bool_decide (p <> q) then d2 ⊠ mget D h p q else mget D h p q.

(** What one step of the sweep adds to a closed-shell accumulator and to an
    open-shell accumulator: [idx] is the position in [pk_]/[k_], [y] the
    pair whose density is used. *)
Definition gc_inc (pk Dcv Dov : list num) (idx y : nat) (acc : num) : num :=
  acc ⊞ rd pk idx ⊠ rd Dcv y ⊞ rd pk idx ⊠ rd Dov y ⊠ d_half.

Definition go_inc (pk k Dcv Dov : list num) (idx y : nat) (acc : num) : num :=
  acc ⊞ rd pk idx ⊠ rd Dcv y ⊠ d_half
      ⊞ (rd pk idx ⊞ rd k idx) ⊠ rd Dov y ⊠ d_quarter.

(** The row accumulator ([Gc_pq], [Go_pq]) at the end of row [x]. *)
Definition row_acc (inc : nat -> nat -> num -> num) (x : nat) : num :=
  for_loop 0 (x + 1) (fun rs acc => inc (ioff x + rs) rs acc) d0.

(** Entry [x] of a G vector after the sweep over [n] pairs: zero until row
    [x]; in row [x] the step [rs = x] increments it in place and the row
    accumulator is added; every later row [pq > x] increments it once. *)
Definition sweep_entry (inc : nat -> nat -> num -> num) (n x : nat) : num :=
  for_loop (x + 1) n (fun pq v => inc (ioff pq + x) pq v)
    (inc (ioff x + x) x d0 ⊞ row_acc inc x).

(** The three stages with a single vector or matrix in the state. *)
Definition pack1 (val : nat -> nat -> nat -> num) (nirr : nat)
    (dims : list nat) (pairs : nat) : nat * list num :=
  for_loop 0 nirr (fun h =>
    for_loop 0 (dims !!! h) (fun p =>
      for_loop 0 (p + 1) (fun q '(ij, v) => (ij + 1, <[ij := val h p q]> v))))
    (0, replicate pairs d0).

Definition sweep1_step (inc : nat -> nat -> num -> num) (pq rs : nat)
    (s : num * list num * nat) : num * list num * nat :=
  let '(acc, vec, b) := s in
  (inc b rs acc, alter (inc b pq) rs vec, b + 1).

Definition sweep1_row (inc : nat -> nat -> num -> num) (pq : nat)
    (s : num * list num * nat) : num * list num * nat :=
  let '(_, vec, b) := s in
  let '(acc, vec, b) := for_loop 0 (pq + 1) (sweep1_step inc pq) (d0, vec, b) in
  (acc, alter (fun v => v ⊞ acc) pq vec, b).

Definition sweep1 (inc : nat -> nat -> num -> num) (n : nat)
    : num * list num * nat :=
  for_loop 0 n (sweep1_row inc) (d0, replicate n d0, 0).

Definition unpack1 (nirr : nat) (dims : list nat) (Gv : list num)
    : nat * Matrix :=
  for_loop 0 nirr (fun h =>
    for_loop 0 (dims !!! h) (fun p =>
      for_loop 0 (p + 1) (fun q '(ij, G) =>
        (ij + 1, mset (mset G h p q (d2 ⊠ rd Gv ij)) h q p (d2 ⊠ rd Gv ij)))))
    (0, mzero).

(** ** The blocks of the effective Fock matrix *)

(** What the row of the open-shell orbital [i] holds at the orbital [o],
    by the shell of [o]. *)
Definition Feff_row_value (Fct Fot : Matrix) (docc socc h i o : nat) : num :=
  if bool_decide (o < docc) then d2 ⊠ (mget Fct h i o ⊟ mget Fot h i o)
  else if bool_decide (o < docc + socc) then mget Fot h i o
  else d2 ⊠ mget Fot h i o.

(** The entry (a,b) of block [h] of [Feff_] as [form_F] leaves it; an
    orbital [x] is open when [docc <= x < docc + socc].  The couplings are
    computed from the element whose row is the open orbital, and the
    open-open block from the element below the diagonal. *)
Definition Feff_block (Fct Fot : Matrix) (docc socc h a b : nat) : num :=
  if bool_decide (docc <= a < docc + socc) then
    if bool_decide (docc <= b < docc + socc)
    then Feff_row_value Fct Fot docc socc h (Nat.max a b) (Nat.min a b)
    else Feff_row_value Fct Fot docc socc h a b
  else if bool_decide (docc <= b < docc + socc)
       then Feff_row_value Fct Fot docc socc h b a
       else mget Fct h a b.

(** The terms of the contraction: what the pair [y] contributes through the
    supermatrix element at [idx]. *)
Definition gc_term (pk Dcv Dov : list num) (idx y : nat) : num :=
  rd pk idx ⊠ rd Dcv y ⊞ rd pk idx ⊠ rd Dov y ⊠ d_half.

Definition go_term (pk k Dcv Dov : list num) (idx y : nat) : num :=
  rd pk idx ⊠ rd Dcv y ⊠ d_half ⊞ (rd pk idx ⊞ rd k idx) ⊠ rd Dov y ⊠ d_quarter.

(** The contraction of row and column [x] of the packed symmetric
    supermatrix with a pair vector: the elements [x,rs], rs <= x, and the
    elements [pq,x], pq >= x, the diagonal element taken in both. *)
Definition contract (t : nat -> nat -> num) (n x : nat) : num :=
  dsum 0 (x + 1) (fun rs => t (ioff x + rs) rs)
  ⊞ dsum x n (fun pq => t (ioff pq + x) pq).

(** ** Construction: [ROHF::common_init] *)

(** The matrices and the vector come from the factory ([create_matrix],
    [create_vector]); [Feff_] and [C_] are the matrices the source also
    calls [Fa_] and [Ca_].  The charge and the multiplicity read from the
    options are not used by this file. *)
Definition common_init (create_matrix : Matrix) (create_vector : Vector)
    (st : ROHF) : list event * ROHF :=
  let st := set_Fc create_matrix st in
  let st := set_Fo create_matrix st in
  let st := set_Feff create_matrix st in
  let st := set_C create_matrix st in
  let st := set_Dc create_matrix st in
  let st := set_Do create_matrix st in
  let st := set_Dc_old create_matrix st in
  let st := set_Do_old create_matrix st in
  let st := set_Gc create_matrix st in
  let st := set_Go create_matrix st in
  let st := set_epsilon create_vector st in
  let st := set_pk [] st in
  let st := set_k [] st in
  let o := [Print (if diis_enabled_ (cfg st) then "  DIIS enabled."
                   else "  DIIS disabled.")] in
  if bool_decide (scf_type_ st = "PK") then
    let '(o', st) := allocate_PK st in (o ++ o', st)
  else (o, st).

(** ** The iteration lines of a run *)

(** The test of the driver that makes iteration [iter] an extrapolation
    step. *)
Definition diis_due (c : Config) (iter : Z) : bool :=
  diis_enabled_ c && bool_decide (min_diis_vectors_ c <= iter)%Z
  && bool_decide (Z.rem iter 6 = 0)%Z.

(** The arguments of the iteration lines of an output, in order. *)
Definition iteration_lines (out : list event) : list (Z * num * num * bool) :=
  omap (fun e => match e with
                 | PrintIter iter E dE diis_iter => Some (iter, E, dE, diis_iter)
                 | _ => None
                 end) out.

Definition line_flag (l : Z * num * num * bool) : Z * bool :=
  let '(iter, _, _, diis_iter) := l in (iter, diis_iter).

(** Every line prints, next to the energy, its difference from the energy
    before it; [prev] is the energy before the first line. *)
Fixpoint energy_chain (prev : num) (ls : list (Z * num * num * bool)) : Prop :=
  match ls with
  | [] => True
  | (_, E, dE, _) :: ls => dE = E ⊟ prev /\ energy_chain E ls
  end.

(** The energy on the last line, [prev] when there is none. *)
Definition last_energy (prev : num) (ls : list (Z * num * num * bool)) : num :=
  foldl (fun _ l => let '(_, E, _, _) := l in E) prev ls.

(** The members an iteration keeps from the one before. *)
Definition book_part (st : ROHF) : num * num * Matrix * Matrix :=
  (E_ st, Eold_ st, Dc_old_ st, Do_old_ st).

(** ** Relabelled integral records *)

(** The record (kl|ij) and the record (ji|lk) of the record (ij|kl), with
    the value unchanged and no sign flag. *)
Definition swap_braket (r : irec) : irec :=
  {| lab_i := Z.of_nat (lab_k r); lab_j := lab_l r;
     lab_k := Z.abs_nat (lab_i r); lab_l := lab_j r; ival := ival r |}.

Definition transpose_pairs (r : irec) : irec :=
  {| lab_i := Z.of_nat (lab_j r); lab_j := Z.abs_nat (lab_i r);
     lab_k := lab_l r; lab_l := lab_k r; ival := ival r |}.

(** ** The symmetry tables *)

(** The tables [form_PK] indexes with describe a blocking of the SOs with
    the dimensions [opi]: every SO has an irrep and an offset inside the
    block of that irrep, the pairs of an irrep start at [pair_offset], and
    [pk_pairs_] counts the pairs of all irreps. *)
Definition tables_wf (c : Config) : Prop :=
  (forall a, a < length (so2symblk_ c) ->
     so2symblk_ c !!! a < nirreps c
     /\ so2index_ c !!! a < opi c !!! (so2symblk_ c !!! a))
  /\ (forall h, h < nirreps c -> pk_symoffset_ c !!! h = pair_offset (opi c) h)
  /\ pk_pairs_ c = pair_offset (opi c) (nirreps c).

(** The four labels of a record are SO indices. *)
Definition labels_wf (c : Config) (r : irec) : Prop :=
  Z.abs_nat (lab_i r) < length (so2symblk_ c)
  /\ lab_j r < length (so2symblk_ c)
  /\ lab_k r < length (so2symblk_ c)
  /\ lab_l r < length (so2symblk_ c).

(** ** The deposits of a record, at the indices the code computes *)

(** The statements of the body of the [idx] loop as a list of deposits:
    the element each one goes to is computed as in [form_PK_record]. *)
Definition record_deposits (c : Config) (r : irec) : list deposit :=
  let i := Z.abs_nat (lab_i r) in
  let j := lab_j r in
  let k' := lab_k r in
  let l := lab_l r in
  let value := ival r in
  let is_ := so2symblk_ c !!! i in
  let js := so2symblk_ c !!! j in
  let ks := so2symblk_ c !!! k' in
  let ls := so2symblk_ c !!! l in
  let ii := so2index_ c !!! i in
  let jj := so2index_ c !!! j in
  let kk := so2index_ c !!! k' in
  let ll := so2index_ c !!! l in
  (if bool_decide (is_ = js) && bool_decide (ks = ls) then
     Coulomb (INDEX2 (INDEX2 ii jj + pk_symoffset_ c !!! is_)
                     (INDEX2 kk ll + pk_symoffset_ c !!! ks)) value
     :: (if bool_decide (ii <> jj) && bool_decide (kk <> ll) then
           if bool_decide (is_ = ls) && bool_decide (js = ks) then
             [Exchange (INDEX2 (INDEX2 ii ll + pk_symoffset_ c !!! is_)
                               (INDEX2 jj kk + pk_symoffset_ c !!! js))
                       (if bool_decide (ii = ll) || bool_decide (jj = kk)
                        then d_half else d_quarter) value]
           else []
         else [])
   else [])
  ++ (if bool_decide (is_ = ks) && bool_decide (js = ls) then
        [Exchange (INDEX2 (INDEX2 ii kk + pk_symoffset_ c !!! is_)
                          (INDEX2 jj ll + pk_symoffset_ c !!! js))
                  (if bool_decide (ii = kk) || bool_decide (jj = ll)
                   then d_half else d_quarter) value]
      else []).

(** ** The same run on another integral file *)

Definition with_so_tei (f : IWL) (c : Config) : Config :=
  {| nirreps := nirreps c; opi := opi c; maxiter_ := maxiter_ c;
     energy_threshold_ := energy_threshold_ c; diis_enabled_ := diis_enabled_ c;
     min_diis_vectors_ := min_diis_vectors_ c;
     max_diis_vectors_ := max_diis_vectors_ c; memory_ := memory_ c;
     pk_size_ := pk_size_ c; pk_pairs_ := pk_pairs_ c;
     pk_symoffset_ := pk_symoffset_ c; so2symblk_ := so2symblk_ c;
     so2index_ := so2index_ c; nuclearrep_ := nuclearrep_ c; so_tei := f |}.

Definition set_cfg (v : Config) (s : ROHF) : ROHF :=
  let 'Build_ROHF _ b c d e f g h i j k l m n o p q r t u w x y := s in
  Build_ROHF v b c d e f g h i j k l m n o p q r t u w x y.

(** ** The G matrices as a pair *)

Definition g_part (st : ROHF) : Matrix * Matrix := (Gc_ st, Go_ st).

(** The values of [scf_type_] for which the driver has a G build. *)
Definition known_scf_type (s : string) : bool :=
  bool_decide (s = "PK") || bool_decide (s = "DIRECT") || is_df s
  || bool_decide (s = "OUT_OF_CORE").

End Model.

(** ** Concrete inputs *)

(** A one-irrep, two-orbital system in [binary64], used to run the model.
    The collaborators are stand-ins that keep the orbitals at the identity:
    [transform] is the congruence [C^t F C], [diagonalize] returns identity
    eigenvectors and the diagonal, [gemm] returns its left factor. *)
Module Demo.
#[local] Existing Instance binary64.

Definition zm : Matrix := fun _ _ _ => 0%float.
Definition idm : Matrix := fun _ i j => if bool_decide (i = j) then 1%float else 0%float.
Definition dims : list nat := [2].
Definition zeros : list num := replicate 6 0%float.

Definition congruence (F C : Matrix) : Matrix := fun h i j =>
  dsum 0 (dims !!! h) (fun k =>
    dsum 0 (dims !!! h) (fun l => C h k i ⊠ F h k l ⊠ C h l j)).

Definition trace_dot (A B : Matrix) : num :=
  dsum 0 (length dims) (fun h =>
    dsum 0 (dims !!! h) (fun i =>
      dsum 0 (dims !!! h) (fun j => A h i j ⊠ B h i j))).

Definition ext : Collab :=
  {| transform := congruence;
     diagonalize := fun F => (idm, fun h i => F h i i);
     gemm := fun A B => A;
     vector_dot := trace_dot;
     find_occupation := fun _ occ => occ;
     extrapolate := fun m F => (true, F);
     form_H := fun h i j => if bool_decide (i = j) then 1%float else 0.5%float;
     form_Shalf := idm;
     load_or_compute_initial_C := fun st =>
       {| ig_loaded := false; ig_C := idm; ig_epsilon := epsilon_ st;
          ig_doccpi := doccpi_ st; ig_soccpi := soccpi_ st;
          ig_Dc := fun h i j => if bool_decide (i = 0 /\ j = 0) then 1%float else 0%float;
          ig_Do := fun h i j => if bool_decide (i = 1 /\ j = 1) then 1%float else 0%float;
          ig_E := 0%float |};
     form_G_from_RI := fun st => (zm, zm);
     nbf := 2;
     print_mos := false;
     compute_fcpi := fun _ => [0];
     compute_fvpi := fun _ => [0] |}.

(** The integrals (11|00) = 1 and (10|10) = 1, the latter with its first
    label flagged by a sign. *)
Definition r1100 : irec :=
  {| lab_i := 1; lab_j := 1; lab_k := 0; lab_l := 0; ival := 1%float |}.
Definition r1010 : irec :=
  {| lab_i := -1; lab_j := 0; lab_k := 1; lab_l := 0; ival := 1%float |}.

Definition config (N : Z) (thr : num) (diis_on : bool) (recs : list irec) : Config :=
  {| nirreps := 1; opi := dims; maxiter_ := N; energy_threshold_ := thr;
     diis_enabled_ := diis_on; min_diis_vectors_ := 2; max_diis_vectors_ := 4;
     memory_ := 1024; pk_size_ := 6; pk_pairs_ := 3; pk_symoffset_ := [0];
     so2symblk_ := [0; 0]; so2index_ := [0; 1]; nuclearrep_ := 0%float;
     so_tei := {| iwl_first := recs; iwl_rest := [] |} |}.

(** The object as the constructor leaves it (PK allocated and zeroed), with
    occupations [docc] and [socc]. *)
Definition state (c : Config) (scf_type : string) (docc socc : list nat) : ROHF :=
  {| cfg := c; scf_type_ := scf_type; E_ := 0%float; Eold_ := 0%float;
     H_ := zm; Shalf_ := zm; Fc_ := zm; Fo_ := zm; Feff_ := zm; C_ := idm;
     Dc_ := zm; Do_ := zm; Dc_old_ := zm; Do_old_ := zm; Gc_ := zm; Go_ := zm;
     epsilon_ := fun _ _ => 0%float; doccpi_ := docc; soccpi_ := socc;
     pk_ := zeros; k_ := zeros;
     initialized_diis_manager_ := false; diis_manager_ := None |}.

(** One closed and one open orbital. *)
Definition open_shell (N : Z) (thr : num) (diis_on : bool) : ROHF :=
  state (config N thr diis_on [r1100; r1010]) "PK" [1] [1].

(** Two closed orbitals. *)
Definition closed_shell : ROHF :=
  state (config 1 0%float false [r1100; r1010]) "PK" [2] [0].

(** An open orbital alone, with the core Hamiltonian in place. *)
Definition one_open : ROHF :=
  set_H (form_H ext) (state (config 1 0%float false []) "PK" [0] [1]).

End Demo.

(** ** Exact arithmetic on one cell *)

(** The part of exact arithmetic the order of the deposits relies on:
    additions to and subtractions from one cell can be exchanged.
    [binary64] does not satisfy it (rounding). *)
Record CellLaws (Sc : Scalar) : Prop := {
  add_add_swap : forall x a b : num, x ⊞ a ⊞ b = x ⊞ b ⊞ a;
  add_sub_swap : forall x a b : num, x ⊞ a ⊟ b = x ⊟ b ⊞ a;
  sub_sub_swap : forall x a b : num, x ⊟ a ⊟ b = x ⊟ b ⊟ a }.

(** * SAPT(DFT) driver (src/lib/libsapt_solver/sapt_dft.cc) *)

Module SAPT_DFT.
Section Model.
Context {Sc : Scalar}.

(** The literals [1000.0] and [627.5095] of the result table. *)
Variable d1000 : num.
Variable d627_5095 : num.

(** The members of [calc_info_] and of [results_] this file reads. *)
Record calc_info : Type := {
  nso : Z; nmo : Z; nri : Z; noccA : Z; noccB : Z; nvirA : Z; nvirB : Z;
  eHF_D : num; eHF_A : num; eHF_B : num }.

Record results : Type := {
  elst10 : num; exch10 : num; ind20 : num; exch_ind20 : num;
  disp20 : num; exch_disp20 : num; disp20chf : num }.

(** A line of [outfile]: fixed text, a labelled count, or a labelled energy
    with its two converted values. *)
Inductive line : Type :=
  | Text (s : string)
  | Count (label : string) (n : Z)
  | Energy (label : string) (mH kcal : num).

(** The object together with what it writes to: [outfile] and
    [Process::environment.globals]. *)
Record SAPT : Type := {
  calc_info_ : calc_info;
  results_ : results;
  globals : gmap string num;
  outfile : list line }.

(** The routines of the base class [SAPT0] that [compute_energy] calls, in
    the order of the calls, and the number of threads when the file is
    compiled with OpenMP. *)
Record Steps : Type := {
  omp_get_max_threads : option Z;
  compute_integrals : SAPT -> SAPT;
  compute_amplitudes : SAPT -> SAPT;
  step_elst10 : SAPT -> SAPT;
  step_exch10 : SAPT -> SAPT;
  step_disp20 : SAPT -> SAPT;
  step_exch_disp20 : SAPT -> SAPT;
  df_disp20_chf : SAPT -> SAPT;
  cphf_induction : SAPT -> SAPT;
  step_ind20 : SAPT -> SAPT;
  step_exch_ind20 : SAPT -> SAPT }.

Definition print_header (ext : Steps) (s : SAPT) : SAPT :=
  let ci := calc_info_ s in
  {| calc_info_ := ci; results_ := results_ s; globals := globals s;
     outfile := outfile s ++
       [Text "      SAPT(DFT)  "; Text "    Ed Hohenstein";
        Text "     Rob Parrish"; Text "   5 September 2010"; Text "";
        Text "    Orbital Information"; Text "  -----------------------";
        Count "    NSO     = " (nso ci); Count "    NMO     = " (nmo ci);
        Count "    NRI     = " (nri ci); Count "    NOCC_A  = " (noccA ci);
        Count "    NOCC_B  = " (noccB ci); Count "    NVIR_A  = " (nvirA ci);
        Count "    NVIR_B  = " (nvirB ci)]
       ++ match omp_get_max_threads ext with
          | Some n => [Count "Running SAPT with %d OMP threads" n]
          | None => []
          end |}.

Definition energy_line (label : string) (v : num) : line :=
  Energy label (v ⊠ d1000) (v ⊠ d627_5095).

Definition print_results (s : SAPT) : num * SAPT :=
  let ci := calc_info_ s in
  let r := results_ s in
  let eHF := eHF_D ci ⊟ eHF_A ci ⊟ eHF_B ci in
  let sapt0 := eHF ⊞ disp20 r ⊞ exch_disp20 r in
  let sapt_dft := eHF ⊞ disp20chf r ⊞ exch_disp20 r in
  let dHF := eHF ⊟ (elst10 r ⊞ exch10 r ⊞ ind20 r ⊞ exch_ind20 r) in
  let out := outfile s ++
    [Text "    SAPT Results  ";
     Text "  ------------------------------------------------------------------";
     energy_line "    E_HF             " eHF;
     energy_line "    Elst10           " (elst10 r);
     energy_line "    Exch10(S^2)      " (exch10 r);
     energy_line "    Ind20,r          " (ind20 r);
     energy_line "    Exch-Ind20,r     " (exch_ind20 r);
     energy_line "    delta HF,r       " dHF;
     energy_line "    Disp20           " (disp20 r);
     energy_line "    Exch-Disp20      " (exch_disp20 r);
     energy_line "    Disp20 (CHF)     " (disp20chf r);
     energy_line "    Total SAPT0      " sapt0;
     energy_line "    Total SAPT(DFT)  " sapt_dft] in
  let g := globals s in
  let g := <["SAPT ELST10 ENERGY" := elst10 r]> g in
  let g := <["SAPT EXCH10 ENERGY" := exch10 r]> g in
  let g := <["SAPT IND20 ENERGY" := ind20 r]> g in
  let g := <["SAPT EXCH-IND20 ENERGY" := exch_ind20 r]> g in
  let g := <["SAPT DELTA-HF ENERGY" := dHF]> g in
  let g := <["SAPT DISP20 ENERGY" := disp20 r]> g in
  let g := <["SAPT DISP20 CHF ENERGY" := disp20chf r]> g in
  let g := <["SAPT EXCH-DISP20 ENERGY" := exch_disp20 r]> g in
  let g := <["SAPT SAPT0 ENERGY" := sapt0]> g in
  let g := <["SAPT SAPT DFT ENERGY" := sapt_dft]> g in
  let g := <["SAPT ENERGY" := sapt_dft]> g in
  (sapt_dft,
   {| calc_info_ := ci; results_ := r; globals := g; outfile := out |}).

Definition compute_energy (ext : Steps) (s : SAPT) : num * SAPT :=
  let s := print_header ext s in
  let s := compute_integrals ext s in
  let s := compute_amplitudes ext s in
  let s := step_elst10 ext s in
  let s := step_exch10 ext s in
  let s := step_disp20 ext s in
  let s := step_exch_disp20 ext s in
  let s := df_disp20_chf ext s in
  let s := cphf_induction ext s in
  let s := step_ind20 ext s in
  let s := step_exch_ind20 ext s in
  print_results s.

(** The keys [print_results] assigns. *)
Definition result_keys : list string :=
  ["SAPT ELST10 ENERGY"; "SAPT EXCH10 ENERGY"; "SAPT IND20 ENERGY";
   "SAPT EXCH-IND20 ENERGY"; "SAPT DELTA-HF ENERGY"; "SAPT DISP20 ENERGY";
   "SAPT DISP20 CHF ENERGY"; "SAPT EXCH-DISP20 ENERGY"; "SAPT SAPT0 ENERGY";
   "SAPT SAPT DFT ENERGY"; "SAPT ENERGY"].

(** Reading a global variable that has been assigned. *)
Definition global (g : gmap string num) (key : string) : num :=
  default d0 (g !! key).

End Model.
End SAPT_DFT.

(** * Optimization history (src/bin/optking/opt_data.h) *)

Module OPT.
Section Model.
Context {Sc : Scalar}.

(** Data for one optimization step. *)
Record STEP_DATA : Type := {
  f_q : list num;
  geom : list num;
  energy : num;
  DE_predicted : num;
  unit_step : list num;
  dq_norm : num;
  dq_gradient : num;
  dq_hessian : num;
  dq : list num }.

(** Data for an optimization. *)
Record OPT_DATA : Type := {
  Nintco : Z;
  Ncart : Z;
  H : list (list num);
  iteration : Z;
  consecutive_back_steps : Z;
  rfo_eigenvector : list num;
  steps : list STEP_DATA }.

(** How an access to [steps] ends: with the element, with the
    [std::out_of_range] that [vector::at] throws, or outside the vector
    through [operator[]], which has no defined behaviour. *)
Inductive access (A : Type) : Type :=
  | Got (a : A)
  | OutOfRange
  | NoBehaviour.
Global Arguments Got {A} a.
Global Arguments OutOfRange {A}.
Global Arguments NoBehaviour {A}.

Definition access_map {A B : Type} (f : A -> B) (x : access A) : access B :=
  match x with
  | Got a => Got (f a)
  | OutOfRange => OutOfRange
  | NoBehaviour => NoBehaviour
  end.

(** [v[i]] and [v.at(i)].  The index is converted to [size_t]: a negative
    one, like [steps.size()-1] on an empty vector, becomes larger than any
    size. *)
Definition subscript (v : list STEP_DATA) (i : Z) : access STEP_DATA :=
  if bool_decide (0 <= i)%Z then
    match v !! Z.to_nat i with
    | Some s => Got s
    | None => NoBehaviour
    end
  else NoBehaviour.

Definition at_ (v : list STEP_DATA) (i : Z) : access STEP_DATA :=
  if bool_decide (0 <= i)%Z then
    match v !! Z.to_nat i with
    | Some s => Got s
    | None => OutOfRange
    end
  else OutOfRange.

Definition size (v : list STEP_DATA) : Z := Z.of_nat (length v).

(** [g_energy(void)], [g_forces_pointer(void)], [g_dq_pointer(void)]: the
    current (last) step. *)
Definition g_energy (o : OPT_DATA) : access num :=
  access_map energy (subscript (steps o) (size (steps o) - 1)).

Definition g_forces_pointer (o : OPT_DATA) : access (list num) :=
  access_map f_q (subscript (steps o) (size (steps o) - 1)).

Definition g_dq_pointer (o : OPT_DATA) : access (list num) :=
  access_map dq (subscript (steps o) (size (steps o) - 1)).

Definition g_last_energy (o : OPT_DATA) : access num :=
  if bool_decide (1 < size (steps o))%Z
  then access_map energy (subscript (steps o) (size (steps o) - 2))
  else Got d0.

(** The accessors for an arbitrary step: [g_energy(int)] subscripts,
    the other three go through [at]. *)
Definition g_energy_at (o : OPT_DATA) (i : Z) : access num :=
  access_map energy (subscript (steps o) i).

Definition g_forces_pointer_at (o : OPT_DATA) (i : Z) : access (list num) :=
  access_map f_q (at_ (steps o) i).

Definition g_geom_pointer_at (o : OPT_DATA) (i : Z) : access (list num) :=
  access_map geom (at_ (steps o) i).

Definition g_dq_pointer_at (o : OPT_DATA) (i : Z) : access (list num) :=
  access_map dq (at_ (steps o) i).

(** [for (int i=0; i<Nintco+1; ++i) rfo_eigenvector[i] = evect_in[i];]
    An element outside [evect_in] reads as [d0] and an assignment outside
    [rfo_eigenvector] leaves it as it is; the C++ statement has no defined
    behaviour there. *)
Definition set_rfo_eigenvector (evect_in : list num) (o : OPT_DATA) : OPT_DATA :=
  {| Nintco := Nintco o; Ncart := Ncart o; H := H o; iteration := iteration o;
     consecutive_back_steps := consecutive_back_steps o;
     rfo_eigenvector :=
       for_loop 0 (Z.to_nat (Nintco o + 1))
         (fun i rfo => <[i := default d0 (evect_in !! i)]> rfo)
         (rfo_eigenvector o);
     steps := steps o |}.

End Model.
End OPT.

(** ** Concrete inputs in exact arithmetic *)

(** The two-orbital system of [Demo] over the rationals, with orbitals
    that mix the two basis functions, and small inputs for the other two
    files. *)
Module DemoQ.
#[local] Existing Instance exactQ.

Definition q (n : Z) : num := Q2Qc (inject_Z n).

Definition zeroQ : Matrix := fun _ _ _ => q 0.
Definition mixed : Matrix := fun _ i j => q (Z.of_nat (i + 2 * j + 1)).

Definition rq1100 : irec :=
  {| lab_i := 1; lab_j := 1; lab_k := 0; lab_l := 0; ival := q 1 |}.
Definition rq1010 : irec :=
  {| lab_i := -1; lab_j := 0; lab_k := 1; lab_l := 0; ival := q 3 |}.

Definition configQ (recs : list irec) : Config :=
  {| nirreps := 1; opi := [2]; maxiter_ := 1; energy_threshold_ := q 0;
     diis_enabled_ := false; min_diis_vectors_ := 2; max_diis_vectors_ := 4;
     memory_ := 1024; pk_size_ := 6; pk_pairs_ := 3; pk_symoffset_ := [0];
     so2symblk_ := [0; 0]; so2index_ := [0; 1]; nuclearrep_ := q 0;
     so_tei := {| iwl_first := recs; iwl_rest := [] |} |}.

Definition stateQ (recs : list irec) : ROHF :=
  {| cfg := configQ recs; scf_type_ := "PK"; E_ := q 0; Eold_ := q 0;
     H_ := zeroQ; Shalf_ := zeroQ; Fc_ := zeroQ; Fo_ := zeroQ;
     Feff_ := zeroQ; C_ := mixed; Dc_ := zeroQ; Do_ := zeroQ;
     Dc_old_ := zeroQ; Do_old_ := zeroQ; Gc_ := zeroQ; Go_ := zeroQ;
     epsilon_ := fun _ _ => q 0; doccpi_ := [1]; soccpi_ := [1];
     pk_ := replicate 6 (q 0); k_ := replicate 6 (q 0);
     initialized_diis_manager_ := false; diis_manager_ := None |}.

Definition sapt : SAPT_DFT.SAPT :=
  {| SAPT_DFT.calc_info_ :=
       {| SAPT_DFT.nso := 4; SAPT_DFT.nmo := 4; SAPT_DFT.nri := 8;
          SAPT_DFT.noccA := 1; SAPT_DFT.noccB := 1;
          SAPT_DFT.nvirA := 3; SAPT_DFT.nvirB := 3;
          SAPT_DFT.eHF_D := q (-30); SAPT_DFT.eHF_A := q (-14);
          SAPT_DFT.eHF_B := q (-15) |};
     SAPT_DFT.results_ :=
       {| SAPT_DFT.elst10 := q (-5); SAPT_DFT.exch10 := q 7;
          SAPT_DFT.ind20 := q (-2); SAPT_DFT.exch_ind20 := q 1;
          SAPT_DFT.disp20 := q (-3); SAPT_DFT.exch_disp20 := q 1;
          SAPT_DFT.disp20chf := q (-4) |};
     SAPT_DFT.globals := ∅;
     SAPT_DFT.outfile := [] |}.

End DemoQ.

(** Variations of [Demo]: supermatrices longer than the tables require,
    the integral file cut into two buffers, and an optimization history
    with two steps. *)
Module DemoOpt.
#[local] Existing Instance binary64.

Definition ones : list num := replicate 8 1%float.

Definition long_arrays : ROHF :=
  set_k ones (set_pk ones (Demo.open_shell 1 0%float false)).

Definition two_buffers : IWL :=
  {| iwl_first := [Demo.r1100]; iwl_rest := [[Demo.r1010]] |}.

Definition after_init : ROHF :=
  snd (scf_init Demo.ext (Demo.open_shell 1 0%float false)).

Definition longer_pk : list num := pk_ after_init ++ [1%float].
Definition longer_k : list num := k_ after_init ++ [2%float].

Definition step (e : num) : OPT.STEP_DATA :=
  {| OPT.f_q := []; OPT.geom := []; OPT.energy := e; OPT.DE_predicted := 0%float;
     OPT.unit_step := []; OPT.dq_norm := 0%float; OPT.dq_gradient := 0%float;
     OPT.dq_hessian := 0%float; OPT.dq := [] |}.

Definition history : OPT.OPT_DATA :=
  {| OPT.Nintco := 1; OPT.Ncart := 3; OPT.H := []; OPT.iteration := 1;
     OPT.consecutive_back_steps := 0;
     OPT.rfo_eigenvector := [0; 0; 0]%float;
     OPT.steps := [step (-1)%float; step (-2)%float] |}.

Definition evect : list num := [1; 2; 3]%float.

End DemoOpt.

(** * Properties *)

(** ** Counted loops *)

Lemma for_loop_empty {A : Type} (lo hi : nat) (body : nat -> A -> A) (a : A) :
  hi <= lo -> for_loop lo hi body a = a.
Proof.
  intros Hle. unfold for_loop.
  replace (hi - lo) with 0 by lia. reflexivity.
Qed.

Lemma for_loop_snoc {A : Type} (lo hi : nat) (body : nat -> A -> A) (a : A) :
  lo <= hi ->
  for_loop lo (S hi) body a = body hi (for_loop lo hi body a).
Proof.
  intros Hle. unfold for_loop.
  replace (S hi - lo) with (S (hi - lo)) by lia.
  rewrite seq_S, foldl_app. simpl.
  replace (lo + (hi - lo)) with hi by lia. reflexivity.
Qed.

(** The invariant rule of a counted loop. *)
Lemma for_loop_inv {A : Type} (P : nat -> A -> Prop) (lo hi : nat)
    (body : nat -> A -> A) (a : A) :
  lo <= hi ->
  P lo a ->
  (forall i s, lo <= i < hi -> P i s -> P (S i) (body i s)) ->
  P hi (for_loop lo hi body a).
Proof.
  intros Hle H0 Hstep. induction hi as [|hi IH].
  - assert (lo = 0) by lia. subst. rewrite for_loop_empty by lia. exact H0.
  - destruct (decide (lo = S hi)) as [->|Hne].
    + rewrite for_loop_empty by lia. exact H0.
    + rewrite for_loop_snoc by lia. apply Hstep; [lia|].
      apply IH; [lia|]. intros i s Hi. apply Hstep. lia.
Qed.

Lemma ioff_succ (n : nat) : ioff (S n) = ioff n + n + 1.
Proof.
  unfold ioff.
  replace (S n * (S n + 1)) with (n * (n + 1) + (n + 1) * 2) by lia.
  rewrite Nat.div_add by lia. lia.
Qed.

Lemma ioff_mono (a b : nat) : a <= b -> ioff a <= ioff b.
Proof.
  induction 1 as [|b Hle IH]; [lia|]. rewrite ioff_succ. lia.
Qed.

Lemma ioff_lt (a b : nat) : a < b -> ioff a + a < ioff b.
Proof.
  intros Hlt. pose proof (ioff_mono (S a) b Hlt) as H.
  rewrite ioff_succ in H. lia.
Qed.

Lemma INDEX2_diag (n : nat) : INDEX2 n n = ioff n + n.
Proof. unfold INDEX2. rewrite bool_decide_eq_true_2 by lia. reflexivity. Qed.

Lemma INDEX2_diag_inj (a b : nat) : INDEX2 a a = INDEX2 b b -> a = b.
Proof.
  rewrite !INDEX2_diag. intros Heq.
  destruct (Nat.lt_trichotomy a b) as [Hlt|[->|Hlt]]; [|reflexivity|];
    pose proof (ioff_lt _ _ Hlt); pose proof (ioff_mono _ _ (Nat.lt_le_incl _ _ Hlt)); lia.
Qed.

Lemma INDEX2_comm (a b : nat) : INDEX2 a b = INDEX2 b a.
Proof.
  unfold INDEX2. repeat case_bool_decide; try lia.
  assert (a = b) by lia. subst. reflexivity.
Qed.

Section Properties.
Context {Sc : Scalar}.

(** ** Matrices *)

Lemma mget_mset (M : Matrix) (h i j : nat) (v : num) (h' i' j' : nat) :
  mget (mset M h i j v) h' i' j' =
  if bool_decide (h' = h /\ i' = i /\ j' = j) then v else mget M h' i' j'.
Proof. reflexivity. Qed.

(** Loops that write every entry of a block once.  [get] reads an entry of
    the loop state and [upd h i j] is the body for one entry. *)
Section Fill.
Context {X V : Type}.
Variable get : X -> nat -> nat -> nat -> V.
Variable upd : nat -> nat -> nat -> X -> X.
Variable val : nat -> nat -> nat -> V.
Hypothesis get_upd : forall h i j x h' p q,
  get (upd h i j x) h' p q =
  if bool_decide (h' = h /\ p = i /\ q = j) then val h i j else get x h' p q.

Lemma fill_row (n h i : nat) (x : X) (h' p q : nat) :
  get (for_loop 0 n (upd h i) x) h' p q =
  if bool_decide (h' = h /\ p = i /\ q < n) then val h i q else get x h' p q.
Proof.
  induction n as [|n IH].
  - rewrite for_loop_empty by lia. rewrite bool_decide_eq_false_2 by lia. reflexivity.
  - rewrite for_loop_snoc by lia. rewrite get_upd, IH.
    repeat case_bool_decide; try reflexivity; try lia;
      repeat match goal with H : _ /\ _ |- _ => destruct H end; subst;
      try reflexivity; exfalso; lia.
Qed.

Lemma fill_block (n dim h : nat) (x : X) (h' p q : nat) :
  get (for_loop 0 n (fun i => for_loop 0 dim (upd h i)) x) h' p q =
  if bool_decide (h' = h /\ p < n /\ q < dim) then val h p q else get x h' p q.
Proof.
  induction n as [|n IH].
  - rewrite for_loop_empty by lia. rewrite bool_decide_eq_false_2 by lia. reflexivity.
  - rewrite for_loop_snoc by lia. rewrite fill_row, IH.
    repeat case_bool_decide; try reflexivity; try lia;
      repeat match goal with H : _ /\ _ |- _ => destruct H end; subst;
      try reflexivity; exfalso; lia.
Qed.

Lemma fill_all (n : nat) (dims : nat -> nat) (x : X) (h' p q : nat) :
  get (for_loop 0 n (fun h =>
         for_loop 0 (dims h) (fun i => for_loop 0 (dims h) (upd h i))) x) h' p q =
  if bool_decide (h' < n /\ p < dims h' /\ q < dims h') then val h' p q
  else get x h' p q.
Proof.
  induction n as [|n IH].
  - rewrite for_loop_empty by lia. rewrite bool_decide_eq_false_2 by lia. reflexivity.
  - rewrite for_loop_snoc by lia. rewrite fill_block, IH.
    destruct (decide (h' = n)) as [->|Hne];
    repeat case_bool_decide; try reflexivity; try lia;
      repeat match goal with H : _ /\ _ |- _ => destruct H end; subst;
      try reflexivity; exfalso; lia.
Qed.
End Fill.

(** ** Density builder *)

Lemma form_D_entry_Dc (C : Matrix) (docc socc : nat) (h i j : nat)
    (D : Matrix * Matrix) (h' p q : nat) :
  mget (fst (form_D_entry C docc socc h i j D)) h' p q =
  if bool_decide (h' = h /\ p = i /\ q = j)
  then dsum 0 docc (fun m => mget C h i m ⊠ mget C h j m)
  else mget (fst D) h' p q.
Proof. destruct D as [Dc Do]. reflexivity. Qed.

Lemma form_D_entry_Do (C : Matrix) (docc socc : nat) (h i j : nat)
    (D : Matrix * Matrix) (h' p q : nat) :
  mget (snd (form_D_entry C docc socc h i j D)) h' p q =
  if bool_decide (h' = h /\ p = i /\ q = j)
  then dsum docc (docc + socc) (fun m => mget C h i m ⊠ mget C h j m)
  else mget (snd D) h' p q.
Proof. destruct D as [Dc Do]. reflexivity. Qed.

Lemma form_D_frame (st : ROHF) :
  form_D st = set_Do (Do_ (form_D st)) (set_Dc (Dc_ (form_D st)) st).
Proof. destruct st. reflexivity. Qed.

(** C6.  After [form_D], inside every block [h] the closed-shell density is
    the sum over the doubly occupied columns of [C] and the open-shell
    density the sum over the singly occupied columns; the result depends on
    [C_], [doccpi_] and [soccpi_] only, and no member other than [Dc_] and
    [Do_] is modified. *)
Theorem form_D_density (st : ROHF) (h p q : nat) :
  h < nirreps (cfg st) ->
  p < opi (cfg st) !!! h ->
  q < opi (cfg st) !!! h ->
  mget (Dc_ (form_D st)) h p q =
    dsum 0 (doccpi_ st !!! h)
         (fun m => mget (C_ st) h p m ⊠ mget (C_ st) h q m)
  /\ mget (Do_ (form_D st)) h p q =
    dsum (doccpi_ st !!! h) (doccpi_ st !!! h + soccpi_ st !!! h)
         (fun m => mget (C_ st) h p m ⊠ mget (C_ st) h q m)
  /\ form_D st = set_Do (Do_ (form_D st)) (set_Dc (Dc_ (form_D st)) st).
Proof.
  intros Hh Hp Hq. split; [|split; [|apply form_D_frame]].
  - replace (Dc_ (form_D st)) with
      (fst (form_D_loops (C_ st) (nirreps (cfg st)) (opi (cfg st))
              (doccpi_ st) (soccpi_ st) (Dc_ st, Do_ st)))
      by (destruct st; reflexivity).
    unfold form_D_loops.
    rewrite (fill_all (fun D => mget (fst D))
               (fun h i j => form_D_entry (C_ st) (doccpi_ st !!! h) (soccpi_ st !!! h) h i j)
               (fun h i j => dsum 0 (doccpi_ st !!! h)
                               (fun m => mget (C_ st) h i m ⊠ mget (C_ st) h j m))).
    + rewrite bool_decide_eq_true_2 by auto. reflexivity.
    + intros. apply form_D_entry_Dc.
  - replace (Do_ (form_D st)) with
      (snd (form_D_loops (C_ st) (nirreps (cfg st)) (opi (cfg st))
              (doccpi_ st) (soccpi_ st) (Dc_ st, Do_ st)))
      by (destruct st; reflexivity).
    unfold form_D_loops.
    rewrite (fill_all (fun D => mget (snd D))
               (fun h i j => form_D_entry (C_ st) (doccpi_ st !!! h) (soccpi_ st !!! h) h i j)
               (fun h i j => dsum (doccpi_ st !!! h) (doccpi_ st !!! h + soccpi_ st !!! h)
                               (fun m => mget (C_ st) h i m ⊠ mget (C_ st) h j m))).
    + rewrite bool_decide_eq_true_2 by auto. reflexivity.
    + intros. apply form_D_entry_Do.
Qed.

(** ** Fock builder *)

Lemma form_Feff_closed_shell (Fct Fot : Matrix) (nirr : nat)
    (dims docc socc : list nat) :
  (forall h, h < nirr -> socc !!! h = 0) ->
  form_Feff Fct Fot nirr dims docc socc = Fct.
Proof.
  intros Hsocc. unfold form_Feff.
  apply (for_loop_inv (fun _ F => F = Fct)); [lia|reflexivity|].
  intros h F Hh ->. rewrite (Hsocc h) by lia.
  apply for_loop_empty. lia.
Qed.

Lemma form_F_Fc (ext : Collab) (st : ROHF) :
  Fc_ (form_F ext st) = madd (H_ st) (Gc_ st).
Proof. destruct st. reflexivity. Qed.

Lemma form_F_Fo (ext : Collab) (st : ROHF) :
  Fo_ (form_F ext st) = madd (mscale (H_ st) d_half) (Go_ st).
Proof. destruct st. reflexivity. Qed.

Lemma form_F_Feff (ext : Collab) (st : ROHF) :
  Feff_ (form_F ext st) =
  form_Feff (transform ext (madd (H_ st) (Gc_ st)) (C_ st))
            (transform ext (madd (mscale (H_ st) d_half) (Go_ st)) (C_ st))
            (nirreps (cfg st)) (opi (cfg st)) (doccpi_ st) (soccpi_ st).
Proof. destruct st. reflexivity. Qed.

(** C7.  When no irrep has a singly occupied orbital, the open-shell loops
    of [form_F] do not run and [Feff_] is exactly the copy of the closed
    Fock matrix in the MO basis, [C^t (H + Gc) C]. *)
Theorem form_F_closed_shell_limit (ext : Collab) (st : ROHF) :
  (forall h, h < nirreps (cfg st) -> soccpi_ st !!! h = 0) ->
  Feff_ (form_F ext st) = transform ext (Fc_ (form_F ext st)) (C_ st)
  /\ Fc_ (form_F ext st) = madd (H_ st) (Gc_ st).
Proof.
  intros Hsocc. split; [|apply form_F_Fc].
  rewrite form_F_Feff, form_F_Fc.
  apply form_Feff_closed_shell, Hsocc.
Qed.

(** ** PK supermatrix: the final halving *)

Lemma form_PK_halve_fst (n : nat) (P : list num * list num) :
  fst (form_PK_halve n P) =
  for_loop 0 n (fun ij a => arr_mul a (INDEX2 ij ij) d_half) (fst P).
Proof.
  unfold form_PK_halve. induction n as [|n IH].
  - rewrite !for_loop_empty by lia. reflexivity.
  - rewrite !for_loop_snoc by lia. rewrite <- IH.
    destruct (for_loop 0 n _ P). reflexivity.
Qed.

Lemma form_PK_halve_snd (n : nat) (P : list num * list num) :
  snd (form_PK_halve n P) =
  for_loop 0 n (fun ij a => arr_mul a (INDEX2 ij ij) d_half) (snd P).
Proof.
  unfold form_PK_halve. induction n as [|n IH].
  - rewrite !for_loop_empty by lia. reflexivity.
  - rewrite !for_loop_snoc by lia. rewrite <- IH.
    destruct (for_loop 0 n _ P). reflexivity.
Qed.

Lemma halve_lookup_off (n : nat) (a : list num) (idx : nat) :
  (forall ij, ij < n -> idx <> INDEX2 ij ij) ->
  for_loop 0 n (fun ij a => arr_mul a (INDEX2 ij ij) d_half) a !! idx = a !! idx.
Proof.
  induction n as [|n IH]; intros Hoff.
  - rewrite for_loop_empty by lia. reflexivity.
  - rewrite for_loop_snoc by lia. unfold arr_mul at 1.
    rewrite list_lookup_alter_ne by (intros Heq; apply (Hoff n); [lia|congruence]).
    apply IH. intros ij Hij. apply Hoff. lia.
Qed.

Lemma halve_lookup_diag (n : nat) (a : list num) (ij : nat) :
  ij < n ->
  for_loop 0 n (fun ij a => arr_mul a (INDEX2 ij ij) d_half) a !! INDEX2 ij ij
  = (fun x => x ⊠ d_half) <$> a !! INDEX2 ij ij.
Proof.
  induction n as [|n IH]; intros Hij; [lia|].
  rewrite for_loop_snoc by lia. unfold arr_mul at 1.
  destruct (decide (ij = n)) as [->|Hne].
  - rewrite list_lookup_alter_eq. f_equal.
    apply halve_lookup_off. intros ij' Hlt Heq.
    apply INDEX2_diag_inj in Heq. lia.
  - rewrite list_lookup_alter_ne
      by (intros Heq; apply INDEX2_diag_inj in Heq; congruence).
    apply IH. lia.
Qed.

Lemma form_PK_pk (st : ROHF) :
  pk_ (snd (form_PK st)) =
  fst (form_PK_halve (pk_pairs_ (cfg st)) (form_PK_stream (cfg st) (pk_ st, k_ st))).
Proof. destruct st. reflexivity. Qed.

Lemma form_PK_k (st : ROHF) :
  k_ (snd (form_PK st)) =
  snd (form_PK_halve (pk_pairs_ (cfg st)) (form_PK_stream (cfg st) (pk_ st, k_ st))).
Proof. destruct st. reflexivity. Qed.

(** C8.  Once the stream is consumed, [form_PK] multiplies the entry
    [INDEX2(ij,ij)] of [pk_] and of [k_] by 0.5 for every pair index
    [ij < pk_pairs_], once, and leaves every other entry as the stream left
    it. *)
Theorem form_PK_final_halving (st : ROHF) :
  let P := form_PK_stream (cfg st) (pk_ st, k_ st) in
  let st' := snd (form_PK st) in
  (forall ij, ij < pk_pairs_ (cfg st) ->
     pk_ st' !! INDEX2 ij ij = (fun x => x ⊠ d_half) <$> fst P !! INDEX2 ij ij
     /\ k_ st' !! INDEX2 ij ij = (fun x => x ⊠ d_half) <$> snd P !! INDEX2 ij ij)
  /\ (forall idx, (forall ij, ij < pk_pairs_ (cfg st) -> idx <> INDEX2 ij ij) ->
     pk_ st' !! idx = fst P !! idx /\ k_ st' !! idx = snd P !! idx).
Proof.
  cbv zeta. rewrite form_PK_pk, form_PK_k, form_PK_halve_fst, form_PK_halve_snd.
  split.
  - intros ij Hij. split; apply halve_lookup_diag; exact Hij.
  - intros idx Hoff. split; apply halve_lookup_off; exact Hoff.
Qed.

(** ** PK supermatrix: the pairing rule *)

Lemma so_index_eq (c : Config) (a b : nat) :
  (forall a b, a < length (so2symblk_ c) -> b < length (so2symblk_ c) ->
     irrep_of c a = irrep_of c b -> so2index_ c !!! a = so2index_ c !!! b -> a = b) ->
  a < length (so2symblk_ c) -> b < length (so2symblk_ c) ->
  irrep_of c a = irrep_of c b ->
  bool_decide (so2index_ c !!! a = so2index_ c !!! b) = bool_decide (a = b).
Proof.
  intros Hinj Ha Hb Hirr. apply bool_decide_ext. split.
  - intros Hidx. apply Hinj; assumption.
  - intros ->. reflexivity.
Qed.

Lemma so_index_ne (c : Config) (a b : nat) :
  (forall a b, a < length (so2symblk_ c) -> b < length (so2symblk_ c) ->
     irrep_of c a = irrep_of c b -> so2index_ c !!! a = so2index_ c !!! b -> a = b) ->
  a < length (so2symblk_ c) -> b < length (so2symblk_ c) ->
  irrep_of c a = irrep_of c b ->
  bool_decide (so2index_ c !!! a <> so2index_ c !!! b) = bool_decide (a <> b).
Proof.
  intros Hinj Ha Hb Hirr. apply bool_decide_ext. split.
  - intros Hidx ->. apply Hidx. reflexivity.
  - intros Hne Hidx. apply Hne, Hinj; assumption.
Qed.

Ltac irrep_case c a b :=
  let E := fresh "E" in
  destruct (decide (irrep_of c a = irrep_of c b)) as [E|E];
  [ rewrite ?(bool_decide_eq_true_2 _ E)
  | rewrite ?(bool_decide_eq_false_2 _ E) ].

(** C4 (amended).  For a record (ij|kl) over valid SO indices, with distinct
    orbitals of one irrep at distinct offsets: the Coulomb term is added to
    PK at full weight under (ij|kl) when irrep(i)=irrep(j) and
    irrep(k)=irrep(l); the exchange term is subtracted from PK and from K
    under (il|jk) -- only when moreover i<>j, k<>l, irrep(i)=irrep(l) and
    irrep(j)=irrep(k) -- weighted 0.5 when i=l or j=k and 0.25 otherwise, and
    under (ik|jl) when irrep(i)=irrep(k) and irrep(j)=irrep(l), weighted 0.5
    when i=k or j=l and 0.25 otherwise. *)
Theorem form_PK_record_deposits (c : Config) (r : irec) (P : list num * list num) :
  Z.abs_nat (lab_i r) < length (so2symblk_ c) ->
  lab_j r < length (so2symblk_ c) ->
  lab_k r < length (so2symblk_ c) ->
  lab_l r < length (so2symblk_ c) ->
  (forall a b, a < length (so2symblk_ c) -> b < length (so2symblk_ c) ->
     irrep_of c a = irrep_of c b -> so2index_ c !!! a = so2index_ c !!! b -> a = b) ->
  form_PK_record c r P = foldl (fun P d => apply_deposit d P) P (pk_deposits c r).
Proof.
  intros Hi Hj Hk Hl Hinj. destruct P as [pk k].
  unfold form_PK_record, pk_deposits, pair_index, pairing_weight.
  set (i := Z.abs_nat (lab_i r)) in *.
  set (j := lab_j r) in *. set (k' := lab_k r) in *. set (l := lab_l r) in *.
  fold (irrep_of c i) (irrep_of c j) (irrep_of c k') (irrep_of c l).
  irrep_case c i j; irrep_case c k' l; irrep_case c i k'; irrep_case c j l;
  irrep_case c i l; irrep_case c j k'; cbn [andb orb];
  repeat match goal with
         | E : irrep_of c ?a = irrep_of c ?b |- _ =>
           first [ rewrite (so_index_eq c a b Hinj) by assumption
                 | rewrite (so_index_ne c a b Hinj) by assumption ]
         end;
  repeat match goal with
         | |- context [bool_decide ?P] => destruct (bool_decide P); cbn [andb orb]
         end;
  reflexivity.
Qed.

(** ** The steps of an iteration leave the supermatrices alone *)

Lemma form_G_from_PK_parts (st : ROHF) :
  fixed_part (form_G_from_PK st) = fixed_part st
  /\ diis_part (form_G_from_PK st) = diis_part st.
Proof.
  unfold form_G_from_PK.
  destruct (pack_D _ _ _ _ _) as [[ij Dcv] Dov].
  destruct (unpack_G _ _ _ _) as [[ij' Gc] Go].
  destruct st. split; reflexivity.
Qed.

Lemma form_F_parts (ext : Collab) (st : ROHF) :
  fixed_part (form_F ext st) = fixed_part st
  /\ diis_part (form_F ext st) = diis_part st.
Proof. destruct st. split; reflexivity. Qed.

Lemma form_C_parts (ext : Collab) (st : ROHF) :
  fixed_part (form_C ext st) = fixed_part st
  /\ diis_part (form_C ext st) = diis_part st.
Proof.
  destruct st. unfold form_C. simpl.
  destruct (diagonalize ext _) as [eigvec eps]. simpl.
  destruct (find_occupation ext _ _) as [docc socc]. split; reflexivity.
Qed.

Lemma form_D_parts (st : ROHF) :
  fixed_part (form_D st) = fixed_part st /\ diis_part (form_D st) = diis_part st.
Proof. destruct st. split; reflexivity. Qed.

Lemma save_fock_fixed (st : ROHF) : fixed_part (save_fock st) = fixed_part st.
Proof.
  unfold save_fock. destruct (initialized_diis_manager_ st); [reflexivity|].
  destruct st. reflexivity.
Qed.

Lemma save_fock_diis_part (st : ROHF) :
  diis_part (save_fock st) =
  if initialized_diis_manager_ st then diis_part st
  else (true, Some (new_DIISManager (max_diis_vectors_ (cfg st)) "HF DIIS vector"
                      LargestError OnDisk)).
Proof.
  unfold save_fock. destruct (initialized_diis_manager_ st); [reflexivity|].
  destruct st. reflexivity.
Qed.

Lemma diis_parts (ext : Collab) (st st' : ROHF) (ok : bool) :
  diis ext st = Ret (ok, st') ->
  fixed_part st' = fixed_part st /\ diis_part st' = diis_part st.
Proof.
  unfold diis. destruct (diis_manager_ st) as [m|] eqn:Hm; [|discriminate].
  destruct (extrapolate ext m (Feff_ st)) as [ok' F]. intros [= <- <-].
  destruct st. split; reflexivity.
Qed.

Lemma build_G_parts (ext : Collab) (st st' : ROHF) :
  build_G ext st = Ret st' ->
  fixed_part st' = fixed_part st /\ diis_part st' = diis_part st.
Proof.
  unfold build_G, form_G_from_direct_integrals, form_G.
  repeat case_bool_decide; try discriminate.
  - intros [= <-]. apply form_G_from_PK_parts.
  - destruct (is_df _); [|discriminate].
    destruct (form_G_from_RI ext st) as [Gc Go]. intros [= <-].
    destruct st. split; reflexivity.
  - destruct (is_df _); [|intros [= <-]; split; reflexivity].
    destruct (form_G_from_RI ext st) as [Gc Go]. intros [= <-].
    destruct st. split; reflexivity.
Qed.

Lemma build_G_returns (ext : Collab) (st : ROHF) :
  scf_type_ st <> "DIRECT" -> scf_type_ st <> "OUT_OF_CORE" ->
  exists st', build_G ext st = Ret st'.
Proof.
  intros Hd Ho. unfold build_G.
  repeat case_bool_decide; try contradiction; eauto.
  destruct (is_df _); eauto.
  destruct (form_G_from_RI ext st) as [Gc Go]. eauto.
Qed.

Lemma diis_step_parts (ext : Collab) (iter : Z) (st st' : ROHF) (b : bool) :
  diis_step ext iter st = Ret (b, st') ->
  fixed_part st' = fixed_part st /\ diis_part st' = diis_part st.
Proof.
  unfold diis_step. destruct (_ && _ && _).
  - destruct (diis ext st) as [[ok st1]| | |] eqn:Hd; try discriminate.
    intros [= <- <-]. eapply diis_parts, Hd.
  - intros [= <- <-]. split; reflexivity.
Qed.

Lemma diis_step_returns (ext : Collab) (iter : Z) (st : ROHF) :
  (diis_enabled_ (cfg st) = true -> is_Some (diis_manager_ st)) ->
  exists b st', diis_step ext iter st = Ret (b, st').
Proof.
  intros Hm. unfold diis_step.
  destruct (diis_enabled_ (cfg st)); cbn [andb]; [|eauto].
  destruct (_ && _); [|eauto].
  unfold diis. destruct (Hm eq_refl) as [m ->].
  destruct (extrapolate ext m (Feff_ st)) as [ok F]. eauto.
Qed.

(** What one iteration does to the parts of the state the driver's control
    flow depends on. *)
Lemma scf_iteration_parts (ext : Collab) (iter : Z) (st st' : ROHF)
    (line : list event) :
  scf_iteration ext iter st = Ret (line, st') ->
  fixed_part st' = fixed_part st
  /\ diis_part st' =
     (if diis_enabled_ (cfg st) then diis_part (save_fock st) else diis_part st)
  /\ persisted line = []
  /\ length line = 1.
Proof.
  unfold scf_iteration.
  set (s0 := set_Eold _ _).
  assert (Hs0 : fixed_part s0 = fixed_part st /\ diis_part s0 = diis_part st)
    by (subst s0; destruct st; split; reflexivity).
  destruct (build_G ext s0) as [s1| | |] eqn:HG; try discriminate.
  apply build_G_parts in HG.
  pose proof (form_F_parts ext s1) as HF.
  set (s2 := form_F ext s1) in *.
  set (s3 := if diis_enabled_ (cfg s2) then save_fock s2 else s2).
  set (s4 := set_E _ s3).
  assert (Hcfg : cfg s2 = cfg st).
  { destruct Hs0 as [Hs0 _], HG as [HG _], HF as [HF _].
    unfold fixed_part in *. congruence. }
  assert (Hs3 : fixed_part s3 = fixed_part st /\
                diis_part s3 = (if diis_enabled_ (cfg st)
                                then diis_part (save_fock st) else diis_part st)).
  { subst s3. rewrite Hcfg.
    destruct Hs0 as [Hs0 Hs0'], HG as [HG HG'], HF as [HF HF'].
    destruct (diis_enabled_ (cfg st)).
    - rewrite save_fock_fixed. split; [congruence|].
      rewrite !save_fock_diis_part.
      replace (initialized_diis_manager_ s2) with (initialized_diis_manager_ st)
        by (unfold diis_part in *; congruence).
      rewrite Hcfg. destruct (initialized_diis_manager_ st); congruence.
    - split; congruence. }
  assert (Hs4 : fixed_part s4 = fixed_part s3 /\ diis_part s4 = diis_part s3)
    by (subst s4; destruct s3; split; reflexivity).
  destruct (diis_step ext iter s4) as [[b s5]| | |] eqn:HD; try discriminate.
  apply diis_step_parts in HD.
  intros [= <- <-].
  pose proof (form_C_parts ext s5) as HC.
  pose proof (form_D_parts (form_C ext s5)) as HDd.
  destruct Hs3 as [Hs3 Hs3'], Hs4 as [Hs4 Hs4'], HD as [HD HD'],
    HC as [HC HC'], HDd as [HDd HDd'].
  repeat split; congruence.
Qed.

Lemma scf_iteration_returns (ext : Collab) (iter : Z) (st : ROHF) :
  scf_type_ st <> "DIRECT" -> scf_type_ st <> "OUT_OF_CORE" -> diis_wf st ->
  exists line st', scf_iteration ext iter st = Ret (line, st').
Proof.
  intros Hd Ho Hwf. unfold scf_iteration.
  set (s0 := set_Eold _ _).
  assert (Hs0 : fixed_part s0 = fixed_part st /\ diis_part s0 = diis_part st)
    by (subst s0; destruct st; split; reflexivity).
  destruct (build_G_returns ext s0) as [s1 HG].
  { destruct Hs0 as [Hs0 _]. unfold fixed_part in Hs0. congruence. }
  { destruct Hs0 as [Hs0 _]. unfold fixed_part in Hs0. congruence. }
  rewrite HG. apply build_G_parts in HG.
  pose proof (form_F_parts ext s1) as HF.
  set (s2 := form_F ext s1) in *.
  set (s3 := if diis_enabled_ (cfg s2) then save_fock s2 else s2).
  set (s4 := set_E _ s3).
  destruct (diis_step_returns ext iter s4) as (b & s5 & HD).
  { assert (Hs4 : cfg s4 = cfg s3 /\ diis_manager_ s4 = diis_manager_ s3)
      by (subst s4; destruct s3; split; reflexivity).
    destruct Hs4 as [-> ->]. subst s3. intros Hen.
    replace (cfg (if diis_enabled_ (cfg s2) then save_fock s2 else s2))
      with (cfg s2) in Hen
      by (destruct (diis_enabled_ (cfg s2)); [|reflexivity];
          pose proof (save_fock_fixed s2) as Hf; unfold fixed_part in Hf; congruence).
    rewrite Hen. pose proof (save_fock_diis_part s2) as Hp.
    destruct (initialized_diis_manager_ s2) eqn:Hini.
    - unfold save_fock. rewrite Hini.
      destruct Hs0 as [_ Hs0], HG as [_ HG], HF as [_ HF].
      unfold diis_part in *.
      replace (diis_manager_ s2) with (diis_manager_ st) by congruence.
      apply Hwf. congruence.
    - unfold diis_part in Hp. injection Hp as _ ->. eauto. }
  rewrite HD. eauto.
Qed.

(** ** The driver *)

Lemma persisted_app (l1 l2 : list event) :
  persisted (l1 ++ l2) = persisted l1 ++ persisted l2.
Proof. apply List.filter_app. Qed.

Lemma diis_wf_iteration (ext : Collab) (iter : Z) (st st' : ROHF)
    (line : list event) :
  scf_iteration ext iter st = Ret (line, st') -> diis_wf st -> diis_wf st'.
Proof.
  intros Hit Hwf. apply scf_iteration_parts in Hit as (_ & Hd & _).
  rewrite save_fock_diis_part in Hd. unfold diis_wf, diis_part in *.
  destruct (diis_enabled_ (cfg st)); [destruct (initialized_diis_manager_ st)|];
    injection Hd as -> ->; eauto.
Qed.

(** What is known of the loop whenever it returns. *)
Lemma scf_loop_ret (ext : Collab) (fuel : nat) :
  forall (iter : Z) (out : list event) (st : ROHF)
         (conv : bool) (it : Z) (out' : list event) (st' : ROHF),
  scf_loop ext fuel iter out st = Ret (conv, it, out', st') ->
  conv = test_convergency st'
  /\ fixed_part st' = fixed_part st
  /\ (exists lines, out' = out ++ lines /\ persisted lines = []
                    /\ Z.of_nat (length lines) = (it - iter)%Z)
  /\ (iter < it)%Z
  /\ (it <= Z.max (maxiter_ (cfg st)) (iter + 1))%Z
  /\ (conv = false -> it = Z.max (maxiter_ (cfg st)) (iter + 1)).
Proof.
  induction fuel as [|fuel IH]; intros iter out st conv it out' st'; simpl;
    destruct (scf_iteration ext (iter + 1) st) as [[line s1]| | |] eqn:Hit;
    try discriminate;
    pose proof (scf_iteration_parts _ _ _ _ _ Hit) as (Hfix & _ & Hper & Hlen);
    assert (Hcfg : cfg s1 = cfg st) by (unfold fixed_part in Hfix; congruence);
    rewrite Hcfg;
    destruct (test_convergency s1) eqn:Hconv; cbn [negb andb];
    try case_bool_decide; try discriminate;
    try (intros [= <- <- <- <-];
         split; [congruence|]; split; [assumption|];
         split; [exists line; repeat split; [assumption|lia]|];
         repeat split; try lia; intros; try discriminate; lia).
  intros Hloop. apply IH in Hloop as (Hc & Hf & (lines & -> & Hp & Hl) & Hlt & Hle & Hfail).
  rewrite Hcfg in *.
  split; [assumption|]. split; [congruence|].
  split.
  { exists (line ++ lines). rewrite app_assoc, persisted_app, Hper, Hp.
    repeat split. rewrite length_app. lia. }
  repeat split; try lia. intros Hcf. specialize (Hfail Hcf). lia.
Qed.

(** With enough fuel the loop returns, unless a G build that is not
    implemented ends the process. *)
Lemma scf_loop_returns (ext : Collab) (fuel : nat) :
  forall (iter : Z) (out : list event) (st : ROHF),
  scf_type_ st <> "DIRECT" -> scf_type_ st <> "OUT_OF_CORE" -> diis_wf st ->
  (maxiter_ (cfg st) - iter - 1 <= Z.of_nat fuel)%Z ->
  exists res, scf_loop ext fuel iter out st = Ret res.
Proof.
  induction fuel as [|fuel IH]; intros iter out st Hd Ho Hwf Hfuel; simpl;
    destruct (scf_iteration_returns ext (iter + 1) st Hd Ho Hwf) as (line & s1 & Hit);
    rewrite Hit;
    pose proof (scf_iteration_parts _ _ _ _ _ Hit) as (Hfix & _);
    assert (Hcfg : cfg s1 = cfg st) by (unfold fixed_part in Hfix; congruence);
    assert (Hty : scf_type_ s1 = scf_type_ st) by (unfold fixed_part in Hfix; congruence);
    rewrite Hcfg;
    destruct (test_convergency s1); cbn [negb andb]; eauto;
    case_bool_decide; eauto; try lia.
  apply IH; try congruence.
  - eapply diis_wf_iteration; eassumption.
  - rewrite Hcfg. lia.
Qed.

Lemma scf_init_parts (ext : Collab) (st : ROHF) :
  cfg (snd (scf_init ext st)) = cfg st
  /\ scf_type_ (snd (scf_init ext st)) = scf_type_ st
  /\ diis_part (snd (scf_init ext st)) = diis_part st
  /\ persisted (fst (scf_init ext st)) = [].
Proof.
  destruct st. unfold scf_init, form_PK. simpl.
  repeat (destruct (bool_decide (_ = "PK")); simpl);
    match goal with |- context [ig_loaded ?g] => destruct (ig_loaded g) end;
    repeat split; reflexivity.
Qed.

(** C3 (amended).  Unless the G build is one of the two unimplemented paths
    (DIRECT, OUT_OF_CORE), which end the process in the first iteration,
    [compute_energy] returns after at least one and at most [max N 1]
    iterations, [N = maxiter_]: either converged, with
    [fabs(E_ - Eold_) < energy_threshold_], returning [E_]; or failed after
    exactly [max N 1] iterations, returning 0.0 and printing
    "Failed to converge." *)
Theorem compute_energy_outcome (ext : Collab) (st : ROHF) :
  scf_type_ st <> "DIRECT" ->
  scf_type_ st <> "OUT_OF_CORE" ->
  diis_wf st ->
  let r := compute_energy ext st in
  let N := maxiter_ (cfg st) in
  let s := run_state r in
  (1 <= run_iter r <= Z.max N 1)%Z
  /\ ((run_result r = Ret (E_ s)
       /\ dlt (dabs (E_ s ⊟ Eold_ s)) (energy_threshold_ (cfg st)) = true
       /\ Print "  Energy converged." ∈ run_out r)
      \/ (run_result r = Ret d0
          /\ run_iter r = Z.max N 1
          /\ dlt (dabs (E_ s ⊟ Eold_ s)) (energy_threshold_ (cfg st)) = false
          /\ Print "  Failed to converge." ∈ run_out r)).
Proof.
  intros Hd Ho Hwf. cbv zeta. unfold compute_energy.
  pose proof (scf_init_parts ext st) as (Hcfg & Hty & Hdp & _).
  destruct (scf_init ext st) as [out0 st0]. simpl in Hcfg, Hty, Hdp.
  destruct (scf_loop_returns ext (Z.to_nat (maxiter_ (cfg st0))) 0 out0 st0)
    as ([[[conv it] out'] st'] & Hloop).
  { congruence. } { congruence. }
  { unfold diis_wf, diis_part in *. injection Hdp as -> ->. exact Hwf. }
  { lia. }
  rewrite Hloop.
  apply scf_loop_ret in Hloop as (Hc & Hf & _ & Hlt & Hle & Hfail).
  assert (Hcfg' : cfg st' = cfg st) by (unfold fixed_part in Hf; congruence).
  rewrite Hcfg in *.
  assert (Hpred : dlt (dabs (E_ st' ⊟ Eold_ st')) (energy_threshold_ (cfg st)) = conv).
  { rewrite Hc, <- Hcfg'. unfold test_convergency. destruct (dlt _ _); reflexivity. }
  destruct conv; simpl.
  - split; [lia|]. left. repeat split; [assumption|].
    rewrite !elem_of_app, elem_of_cons. auto.
  - specialize (Hfail eq_refl). split; [lia|]. right.
    repeat split; [lia|assumption|].
    rewrite elem_of_app, elem_of_cons. auto.
Qed.

(** C10.  Whenever [compute_energy] returns: if the last convergence test
    succeeded it returns [E_] and the records handed to the persistence
    collaborator are exactly those of [save_information]; if the cap was
    reached without convergence it returns exactly 0.0 and hands over no
    record at all. *)
Theorem save_information_iff_converged (ext : Collab) (st : ROHF) (e : num) :
  let r := compute_energy ext st in
  let s := run_state r in
  run_result r = Ret e ->
  (test_convergency s = true
   /\ e = E_ s
   /\ persisted (run_out r) = persisted (save_information ext s)
   /\ Chkpt (wt_etot (E_ s)) ∈ run_out r)
  \/ (test_convergency s = false
      /\ e = d0
      /\ run_iter r = Z.max (maxiter_ (cfg st)) 1
      /\ persisted (run_out r) = []).
Proof.
  cbv zeta. unfold compute_energy.
  pose proof (scf_init_parts ext st) as (Hcfg & _ & _ & Hp0).
  destruct (scf_init ext st) as [out0 st0]. simpl in Hcfg, Hp0.
  destruct (scf_loop ext _ 0 out0 st0) as [[[[conv it] out'] st']| | |] eqn:Hloop;
    try discriminate.
  apply scf_loop_ret in Hloop as (Hc & _ & (lines & -> & Hpl & _) & _ & _ & Hfail).
  rewrite Hcfg in Hfail.
  destruct conv; cbn [run_result run_out run_state run_iter]; intros [= <-].
  - left. repeat split; [congruence|..].
    + rewrite (persisted_app (out0 ++ lines)), (persisted_app out0 lines), Hp0, Hpl.
      reflexivity.
    + rewrite !elem_of_app. right. right. unfold save_information.
      rewrite !elem_of_app. right. right.
      rewrite !elem_of_cons. auto 10.
  - right. repeat split; [congruence|auto|].
    rewrite (persisted_app (out0 ++ lines)), (persisted_app out0 lines), Hp0, Hpl.
    reflexivity.
Qed.

(** ** G matrices from PK *)

Lemma for_loop_sim {A B : Type} (R : A -> B -> Prop) (lo hi : nat)
    (f : nat -> A -> A) (g : nat -> B -> B) (a : A) (b : B) :
  R a b ->
  (forall i a b, lo <= i < hi -> R a b -> R (f i a) (g i b)) ->
  R (for_loop lo hi f a) (for_loop lo hi g b).
Proof.
  intros H0 Hstep. destruct (decide (lo <= hi)) as [Hle|Hgt].
  - induction hi as [|hi IH].
    + rewrite !for_loop_empty by lia. exact H0.
    + destruct (decide (lo = S hi)) as [->|Hne].
      * rewrite !for_loop_empty by lia. exact H0.
      * rewrite !for_loop_snoc by lia. apply Hstep; [lia|].
        apply IH; [|lia]. intros i a' b' Hi. apply Hstep. lia.
  - rewrite !for_loop_empty by lia. exact H0.
Qed.

Lemma rd_alter_eq (f : num -> num) (i : nat) (l : list num) :
  i < length l -> rd (alter f i l) i = f (rd l i).
Proof.
  intros Hi. unfold rd. rewrite list_lookup_alter_eq.
  destruct (lookup_lt_is_Some_2 l i Hi) as [x ->]. reflexivity.
Qed.

Lemma rd_alter_ne (f : num -> num) (i j : nat) (l : list num) :
  i <> j -> rd (alter f i l) j = rd l j.
Proof. intros Hne. unfold rd. rewrite list_lookup_alter_ne by exact Hne. reflexivity. Qed.

Lemma rd_insert_eq (v : num) (i : nat) (l : list num) :
  i < length l -> rd (<[i := v]> l) i = v.
Proof. intros Hi. unfold rd. rewrite list_lookup_insert_eq by exact Hi. reflexivity. Qed.

Lemma rd_insert_ne (v : num) (i j : nat) (l : list num) :
  i <> j -> rd (<[i := v]> l) j = rd l j.
Proof. intros Hne. unfold rd. rewrite list_lookup_insert_ne by exact Hne. reflexivity. Qed.

Lemma rd_replicate (n x : nat) : rd (replicate n d0) x = d0.
Proof.
  unfold rd. destruct (replicate n d0 !! x) as [v|] eqn:Hv; [|reflexivity].
  apply lookup_replicate in Hv as [-> _]. reflexivity.
Qed.

(** The inner loop of a row: the first [m] steps. *)
Lemma sweep1_steps (inc : nat -> nat -> num -> num) (pq : nat)
    (vec : list num) (b m : nat) :
  pq < length vec -> m <= pq + 1 ->
  exists vec',
    for_loop 0 m (sweep1_step inc pq) (d0, vec, b)
    = (for_loop 0 m (fun rs acc => inc (b + rs) rs acc) d0, vec', b + m)
    /\ length vec' = length vec
    /\ forall x, rd vec' x =
         if bool_decide (x < m) then inc (b + x) pq (rd vec x) else rd vec x.
Proof.
  intros Hpq. induction m as [|m IH]; intros Hm.
  - exists vec. rewrite !for_loop_empty by lia.
    rewrite Nat.add_0_r. split; [reflexivity|]. split; [reflexivity|].
    intros x. rewrite bool_decide_eq_false_2 by lia. reflexivity.
  - destruct IH as (vec' & Hloop & Hlen & Hrd); [lia|].
    exists (alter (inc (b + m) pq) m vec').
    rewrite !for_loop_snoc by lia. rewrite Hloop. unfold sweep1_step at 1.
    split; [f_equal; lia|]. split; [rewrite length_alter; exact Hlen|].
    intros x. destruct (decide (x = m)) as [->|Hne].
    + rewrite rd_alter_eq by lia. rewrite Hrd.
      rewrite bool_decide_eq_false_2 by lia.
      rewrite bool_decide_eq_true_2 by lia. reflexivity.
    + rewrite rd_alter_ne by congruence. rewrite Hrd.
      repeat case_bool_decide; try reflexivity; lia.
Qed.

(** One row of the sweep. *)
Lemma sweep1_row_spec (inc : nat -> nat -> num -> num) (pq : nat)
    (acc0 : num) (vec : list num) (b : nat) :
  pq < length vec ->
  exists acc' vec',
    sweep1_row inc pq (acc0, vec, b) = (acc', vec', b + pq + 1)
    /\ length vec' = length vec
    /\ forall x, rd vec' x =
         if bool_decide (x < pq) then inc (b + x) pq (rd vec x)
         else if bool_decide (x = pq)
              then inc (b + pq) pq (rd vec pq)
                   ⊞ for_loop 0 (pq + 1) (fun rs acc => inc (b + rs) rs acc) d0
              else rd vec x.
Proof.
  intros Hpq. unfold sweep1_row.
  destruct (sweep1_steps inc pq vec b (pq + 1) Hpq) as (vec' & -> & Hlen & Hrd);
    [lia|].
  eexists _, _. split; [f_equal; lia|].
  split; [rewrite length_alter; exact Hlen|].
  intros x. destruct (decide (x = pq)) as [->|Hne].
  - rewrite rd_alter_eq by lia. rewrite Hrd.
    rewrite bool_decide_eq_true_2 by lia.
    rewrite bool_decide_eq_false_2 by lia.
    rewrite bool_decide_eq_true_2 by lia. reflexivity.
  - rewrite rd_alter_ne by congruence. rewrite Hrd.
    repeat case_bool_decide; try reflexivity; lia.
Qed.

(** The first [m] rows of the sweep. *)
Lemma sweep1_rows (inc : nat -> nat -> num -> num) (n m : nat) :
  m <= n ->
  exists acc vec,
    for_loop 0 m (sweep1_row inc) (d0, replicate n d0, 0) = (acc, vec, ioff m)
    /\ length vec = n
    /\ forall x, rd vec x =
         if bool_decide (x < m) then sweep_entry inc m x else d0.
Proof.
  induction m as [|m IH]; intros Hm.
  - exists d0, (replicate n d0). rewrite for_loop_empty by lia.
    split; [reflexivity|]. split; [apply length_replicate|].
    intros x. rewrite bool_decide_eq_false_2 by lia. apply rd_replicate.
  - destruct IH as (acc & vec & Hloop & Hlen & Hrd); [lia|].
    rewrite for_loop_snoc by lia. rewrite Hloop.
    destruct (sweep1_row_spec inc m acc vec (ioff m)) as (acc' & vec' & -> & Hlen' & Hrd');
      [lia|].
    exists acc', vec'. split; [f_equal; rewrite ioff_succ; lia|].
    split; [congruence|].
    intros x. rewrite Hrd'.
    destruct (decide (x < m)) as [Hlt|Hge].
    + rewrite (bool_decide_eq_true_2 (x < m)) by lia.
      rewrite (bool_decide_eq_true_2 (x < S m)) by lia.
      rewrite Hrd, bool_decide_eq_true_2 by lia.
      unfold sweep_entry. rewrite (for_loop_snoc (x + 1) m) by lia. reflexivity.
    + rewrite (bool_decide_eq_false_2 (x < m)) by lia.
      destruct (decide (x = m)) as [->|Hne].
      * rewrite (bool_decide_eq_true_2 (m = m)) by lia.
        rewrite (bool_decide_eq_true_2 (m < S m)) by lia.
        rewrite Hrd, (bool_decide_eq_false_2 (m < m)) by lia.
        unfold sweep_entry, row_acc.
        rewrite (for_loop_empty (m + 1) (S m)) by lia. reflexivity.
      * rewrite (bool_decide_eq_false_2 (x = m)) by lia.
        rewrite (bool_decide_eq_false_2 (x < S m)) by lia.
        rewrite Hrd, bool_decide_eq_false_2 by lia. reflexivity.
Qed.

Lemma sweep1_entry (inc : nat -> nat -> num -> num) (n x : nat) :
  x < n -> rd (snd (fst (sweep1 inc n))) x = sweep_entry inc n x.
Proof.
  intros Hx. unfold sweep1.
  destruct (sweep1_rows inc n n) as (acc & vec & -> & _ & Hrd); [lia|].
  simpl. rewrite Hrd. rewrite bool_decide_eq_true_2 by lia. reflexivity.
Qed.

(** The closed-shell and the open-shell halves of the sweep are sweeps of
    their own. *)
Lemma sweep_Gc (pk k Dcv Dov : list num) (n : nat) :
  let s := sweep pk k Dcv Dov n in
  (Gc_pq s, Gc_vector s, blk s) = sweep1 (gc_inc pk Dcv Dov) n.
Proof.
  cbv zeta. unfold sweep, sweep1.
  apply (for_loop_sim (fun s t => (Gc_pq s, Gc_vector s, blk s) = t));
    [reflexivity|].
  intros pq s t _ <-. unfold sweep_row, sweep1_row.
  set (s0 := {| Gc_pq := d0; Go_pq := d0; Gc_vector := Gc_vector s;
                Go_vector := Go_vector s; blk := blk s |}).
  assert (Hrow : (Gc_pq (for_loop 0 (pq + 1) (sweep_step pk k Dcv Dov pq) s0),
                  Gc_vector (for_loop 0 (pq + 1) (sweep_step pk k Dcv Dov pq) s0),
                  blk (for_loop 0 (pq + 1) (sweep_step pk k Dcv Dov pq) s0))
                 = for_loop 0 (pq + 1) (sweep1_step (gc_inc pk Dcv Dov) pq)
                     (d0, Gc_vector s, blk s)).
  { apply (for_loop_sim (fun s t => (Gc_pq s, Gc_vector s, blk s) = t));
      [reflexivity|].
    intros rs s1 t1 _ <-. unfold sweep_step, sweep1_step. simpl.
    f_equal. f_equal. unfold arr_add.
    rewrite list_alter_alter_eq. reflexivity. }
  rewrite <- Hrow. reflexivity.
Qed.

Lemma sweep_Go (pk k Dcv Dov : list num) (n : nat) :
  let s := sweep pk k Dcv Dov n in
  (Go_pq s, Go_vector s, blk s) = sweep1 (go_inc pk k Dcv Dov) n.
Proof.
  cbv zeta. unfold sweep, sweep1.
  apply (for_loop_sim (fun s t => (Go_pq s, Go_vector s, blk s) = t));
    [reflexivity|].
  intros pq s t _ <-. unfold sweep_row, sweep1_row.
  set (s0 := {| Gc_pq := d0; Go_pq := d0; Gc_vector := Gc_vector s;
                Go_vector := Go_vector s; blk := blk s |}).
  assert (Hrow : (Go_pq (for_loop 0 (pq + 1) (sweep_step pk k Dcv Dov pq) s0),
                  Go_vector (for_loop 0 (pq + 1) (sweep_step pk k Dcv Dov pq) s0),
                  blk (for_loop 0 (pq + 1) (sweep_step pk k Dcv Dov pq) s0))
                 = for_loop 0 (pq + 1) (sweep1_step (go_inc pk k Dcv Dov) pq)
                     (d0, Go_vector s, blk s)).
  { apply (for_loop_sim (fun s t => (Go_pq s, Go_vector s, blk s) = t));
      [reflexivity|].
    intros rs s1 t1 _ <-. unfold sweep_step, sweep1_step. simpl.
    f_equal. f_equal. unfold arr_add.
    rewrite list_alter_alter_eq. reflexivity. }
  rewrite <- Hrow. reflexivity.
Qed.

Lemma ioff_add1 (p : nat) : ioff (p + 1) = ioff p + p + 1.
Proof. rewrite Nat.add_1_r. apply ioff_succ. Qed.

(** Packing: the first [m] steps of the [q] loop of row [p]. *)
Lemma pack1_row (val : nat -> nat -> nat -> num) (h p ij0 : nat)
    (v : list num) (m : nat) :
  ij0 + m <= length v ->
  exists v',
    for_loop 0 m (fun q '(ij, v) => (ij + 1, <[ij := val h p q]> v)) (ij0, v)
    = (ij0 + m, v')
    /\ length v' = length v
    /\ (forall x, x < ij0 -> rd v' x = rd v x)
    /\ (forall q, q < m -> rd v' (ij0 + q) = val h p q).
Proof.
  induction m as [|m IH]; intros Hlen.
  - exists v. rewrite for_loop_empty by lia. rewrite Nat.add_0_r.
    split; [reflexivity|]. split; [reflexivity|]. split; [reflexivity|].
    intros q Hq. lia.
  - destruct IH as (v' & Hloop & Hl & Hlow & Hval); [lia|].
    exists (<[ij0 + m := val h p m]> v').
    rewrite for_loop_snoc by lia. rewrite Hloop.
    split; [f_equal; lia|]. split; [rewrite length_insert; exact Hl|]. split.
    + intros x Hx. rewrite rd_insert_ne by lia. apply Hlow, Hx.
    + intros q Hq. destruct (decide (q = m)) as [->|Hne].
      * apply rd_insert_eq. lia.
      * rewrite rd_insert_ne by lia. apply Hval. lia.
Qed.

(** Packing: the rows [p < d] of one irrep. *)
Lemma pack1_block (val : nat -> nat -> nat -> num) (h ij0 : nat)
    (v : list num) (d : nat) :
  ij0 + ioff d <= length v ->
  exists v',
    for_loop 0 d (fun p =>
      for_loop 0 (p + 1) (fun q '(ij, v) => (ij + 1, <[ij := val h p q]> v)))
      (ij0, v)
    = (ij0 + ioff d, v')
    /\ length v' = length v
    /\ (forall x, x < ij0 -> rd v' x = rd v x)
    /\ (forall p q, q <= p -> p < d -> rd v' (ij0 + ioff p + q) = val h p q).
Proof.
  induction d as [|d IH]; intros Hlen.
  - exists v. rewrite for_loop_empty by lia.
    replace (ioff 0) with 0 by reflexivity. rewrite Nat.add_0_r.
    split; [reflexivity|]. split; [reflexivity|]. split; [reflexivity|].
    intros p q _ Hp. lia.
  - rewrite ioff_succ in Hlen.
    destruct IH as (v1 & Hloop & Hl1 & Hlow1 & Hval1); [lia|].
    rewrite for_loop_snoc by lia. rewrite Hloop.
    destruct (pack1_row val h d (ij0 + ioff d) v1 (d + 1)) as (v2 & -> & Hl2 & Hlow2 & Hval2);
      [lia|].
    exists v2. split; [f_equal; rewrite ioff_succ; lia|].
    split; [congruence|]. split.
    + intros x Hx. rewrite Hlow2 by lia. apply Hlow1, Hx.
    + intros p q Hq Hp. destruct (decide (p = d)) as [->|Hne].
      * apply Hval2. lia.
      * pose proof (ioff_lt p d ltac:(lia)).
        rewrite Hlow2 by lia. apply Hval1; lia.
Qed.

Lemma pair_offset_mono (dims : list nat) (a b : nat) :
  a <= b -> pair_offset dims a <= pair_offset dims b.
Proof. induction 1 as [|b Hle IH]; simpl; lia. Qed.

(** Packing: all irreps. *)
Lemma pack1_all (val : nat -> nat -> nat -> num) (dims : list nat)
    (pairs n : nat) :
  pair_offset dims n <= pairs ->
  exists v',
    pack1 val n dims pairs = (pair_offset dims n, v')
    /\ length v' = pairs
    /\ (forall h p q, h < n -> q <= p -> p < dims !!! h ->
          rd v' (pair_offset dims h + ioff p + q) = val h p q).
Proof.
  unfold pack1. induction n as [|n IH]; intros Hlen.
  - eexists. rewrite for_loop_empty by lia.
    split; [reflexivity|]. split; [apply length_replicate|].
    intros h p q Hh. lia.
  - simpl in Hlen.
    destruct IH as (v1 & Hloop & Hl1 & Hval1); [lia|].
    rewrite for_loop_snoc by lia. rewrite Hloop.
    destruct (pack1_block val n (pair_offset dims n) v1 (dims !!! n))
      as (v2 & -> & Hl2 & Hlow2 & Hval2); [lia|].
    exists v2. split; [reflexivity|]. split; [congruence|].
    intros h p q Hh Hq Hp. destruct (decide (h = n)) as [->|Hne].
    + apply Hval2; assumption.
    + pose proof (pair_offset_mono dims (S h) n ltac:(lia)) as Hmono.
      simpl in Hmono.
      pose proof (ioff_lt p (dims !!! h) Hp).
      rewrite Hlow2 by lia. apply Hval1; [lia|assumption..].
Qed.

Lemma pack_D_Dc (nirr : nat) (dims : list nat) (Dc Do : Matrix) (pairs : nat) :
  let r := pack_D nirr dims Dc Do pairs in
  (fst (fst r), snd (fst r)) = pack1 (packed_entry Dc) nirr dims pairs.
Proof.
  cbv zeta. unfold pack_D, pack1.
  apply (for_loop_sim (fun a b => (fst (fst a), snd (fst a)) = b)); [reflexivity|].
  intros h a b _ Hab.
  apply (for_loop_sim (fun a b => (fst (fst a), snd (fst a)) = b)); [exact Hab|].
  clear a b Hab. intros p a b _ Hab.
  apply (for_loop_sim (fun a b => (fst (fst a), snd (fst a)) = b)); [exact Hab|].
  clear a b Hab. intros q [[ij Dcv] Dov] b _ <-. unfold packed_entry. simpl.
  destruct (bool_decide (p <> q)); reflexivity.
Qed.

Lemma pack_D_Do (nirr : nat) (dims : list nat) (Dc Do : Matrix) (pairs : nat) :
  let r := pack_D nirr dims Dc Do pairs in
  (fst (fst r), snd r) = pack1 (packed_entry Do) nirr dims pairs.
Proof.
  cbv zeta. unfold pack_D, pack1.
  apply (for_loop_sim (fun a b => (fst (fst a), snd a) = b)); [reflexivity|].
  intros h a b _ Hab.
  apply (for_loop_sim (fun a b => (fst (fst a), snd a) = b)); [exact Hab|].
  clear a b Hab. intros p a b _ Hab.
  apply (for_loop_sim (fun a b => (fst (fst a), snd a) = b)); [exact Hab|].
  clear a b Hab. intros q [[ij Dcv] Dov] b _ <-. unfold packed_entry. simpl.
  destruct (bool_decide (p <> q)); reflexivity.
Qed.

Ltac block_cases :=
  repeat case_bool_decide;
  first [ reflexivity | exfalso; lia | do 2 f_equal; lia ].

(** Unpacking: the first [m] steps of the [q] loop of row [p]. *)
Lemma unpack1_row (Gv : list num) (h p ij0 : nat) (G : Matrix) (m : nat) :
  m <= p + 1 ->
  exists G',
    for_loop 0 m (fun q '(ij, G) =>
      (ij + 1, mset (mset G h p q (d2 ⊠ rd Gv ij)) h q p (d2 ⊠ rd Gv ij)))
      (ij0, G)
    = (ij0 + m, G')
    /\ forall h' i j, mget G' h' i j =
         if bool_decide (h' = h /\ ((i = p /\ j < m) \/ (j = p /\ i < m)))
         then d2 ⊠ rd Gv (ij0 + Nat.min i j) else mget G h' i j.
Proof.
  induction m as [|m IH]; intros Hm.
  - exists G. rewrite for_loop_empty by lia. rewrite Nat.add_0_r.
    split; [reflexivity|]. intros h' i j.
    rewrite bool_decide_eq_false_2 by lia. reflexivity.
  - destruct IH as (G1 & Hloop & Hget); [lia|].
    rewrite for_loop_snoc by lia. rewrite Hloop.
    eexists. split; [f_equal; lia|].
    intros h' i j. rewrite !mget_mset, Hget. block_cases.
Qed.

(** Unpacking: the rows [p < d] of one irrep. *)
Lemma unpack1_block (Gv : list num) (h ij0 : nat) (G : Matrix) (d : nat) :
  exists G',
    for_loop 0 d (fun p =>
      for_loop 0 (p + 1) (fun q '(ij, G) =>
        (ij + 1, mset (mset G h p q (d2 ⊠ rd Gv ij)) h q p (d2 ⊠ rd Gv ij))))
      (ij0, G)
    = (ij0 + ioff d, G')
    /\ forall h' i j, mget G' h' i j =
         if bool_decide (h' = h /\ i < d /\ j < d)
         then d2 ⊠ rd Gv (ij0 + ioff (Nat.max i j) + Nat.min i j)
         else mget G h' i j.
Proof.
  induction d as [|d IH].
  - exists G. rewrite for_loop_empty by lia.
    replace (ioff 0) with 0 by reflexivity. rewrite Nat.add_0_r.
    split; [reflexivity|]. intros h' i j.
    rewrite bool_decide_eq_false_2 by lia. reflexivity.
  - destruct IH as (G1 & Hloop & Hget1).
    rewrite for_loop_snoc by lia. rewrite Hloop.
    destruct (unpack1_row Gv h d (ij0 + ioff d) G1 (d + 1)) as (G2 & -> & Hget2);
      [lia|].
    exists G2. split; [f_equal; rewrite ioff_succ; lia|].
    intros h' i j. rewrite Hget2, Hget1.
    repeat case_bool_decide; try reflexivity; try (exfalso; lia).
    + replace (Nat.max i j) with d by lia. reflexivity.
Qed.

(** Unpacking: all irreps. *)
Lemma unpack1_all (dims : list nat) (Gv : list num) (n : nat) :
  exists G',
    unpack1 n dims Gv = (pair_offset dims n, G')
    /\ forall h i j, mget G' h i j =
         if bool_decide (h < n /\ i < dims !!! h /\ j < dims !!! h)
         then d2 ⊠ rd Gv (pair_offset dims h + ioff (Nat.max i j) + Nat.min i j)
         else d0.
Proof.
  unfold unpack1. induction n as [|n IH].
  - eexists. rewrite for_loop_empty by lia. split; [reflexivity|].
    intros h i j. rewrite bool_decide_eq_false_2 by lia. reflexivity.
  - destruct IH as (G1 & Hloop & Hget1).
    rewrite for_loop_snoc by lia. rewrite Hloop.
    destruct (unpack1_block Gv n (pair_offset dims n) G1 (dims !!! n))
      as (G2 & -> & Hget2).
    exists G2. split; [reflexivity|].
    intros h i j. rewrite Hget2, Hget1.
    destruct (decide (h = n)) as [->|Hne];
      repeat case_bool_decide; try reflexivity; exfalso; lia.
Qed.

Lemma unpack_G_Gc (nirr : nat) (dims : list nat) (Gcv Gov : list num) :
  let r := unpack_G nirr dims Gcv Gov in
  (fst (fst r), snd (fst r)) = unpack1 nirr dims Gcv.
Proof.
  cbv zeta. unfold unpack_G, unpack1.
  apply (for_loop_sim (fun a b => (fst (fst a), snd (fst a)) = b)); [reflexivity|].
  intros h a b _ Hab.
  apply (for_loop_sim (fun a b => (fst (fst a), snd (fst a)) = b)); [exact Hab|].
  clear a b Hab. intros p a b _ Hab.
  apply (for_loop_sim (fun a b => (fst (fst a), snd (fst a)) = b)); [exact Hab|].
  clear a b Hab. intros q [[ij Gc] Go] b _ <-. reflexivity.
Qed.

Lemma unpack_G_Go (nirr : nat) (dims : list nat) (Gcv Gov : list num) :
  let r := unpack_G nirr dims Gcv Gov in
  (fst (fst r), snd r) = unpack1 nirr dims Gov.
Proof.
  cbv zeta. unfold unpack_G, unpack1.
  apply (for_loop_sim (fun a b => (fst (fst a), snd a) = b)); [reflexivity|].
  intros h a b _ Hab.
  apply (for_loop_sim (fun a b => (fst (fst a), snd a) = b)); [exact Hab|].
  clear a b Hab. intros p a b _ Hab.
  apply (for_loop_sim (fun a b => (fst (fst a), snd a) = b)); [exact Hab|].
  clear a b Hab. intros q [[ij Gc] Go] b _ <-. reflexivity.
Qed.

Lemma form_G_from_PK_Gc (st : ROHF) :
  Gc_ (form_G_from_PK st) =
  snd (unpack1 (nirreps (cfg st)) (opi (cfg st))
         (snd (fst (sweep1 (gc_inc (pk_ st) (Dc_vector_of st) (Do_vector_of st))
                      (pk_pairs_ (cfg st)))))).
Proof.
  pose proof (sweep_Gc (pk_ st) (k_ st) (Dc_vector_of st) (Do_vector_of st)
                (pk_pairs_ (cfg st))) as Hs. cbv zeta in Hs.
  rewrite <- Hs. cbn [fst snd]. clear Hs.
  pose proof (unpack_G_Gc (nirreps (cfg st)) (opi (cfg st))
    (Gc_vector (sweep (pk_ st) (k_ st) (Dc_vector_of st) (Do_vector_of st)
                  (pk_pairs_ (cfg st))))
    (Go_vector (sweep (pk_ st) (k_ st) (Dc_vector_of st) (Do_vector_of st)
                  (pk_pairs_ (cfg st))))) as Hu. cbv zeta in Hu.
  rewrite <- Hu. cbn [fst snd]. clear Hu.
  unfold form_G_from_PK, Dc_vector_of, Do_vector_of.
  destruct (pack_D _ _ _ _ _) as [[ij Dcv] Dov]. simpl.
  destruct (unpack_G _ _ _ _) as [[ij' Gc] Go]. destruct st. reflexivity.
Qed.

Lemma form_G_from_PK_Go (st : ROHF) :
  Go_ (form_G_from_PK st) =
  snd (unpack1 (nirreps (cfg st)) (opi (cfg st))
         (snd (fst (sweep1 (go_inc (pk_ st) (k_ st) (Dc_vector_of st) (Do_vector_of st))
                      (pk_pairs_ (cfg st)))))).
Proof.
  pose proof (sweep_Go (pk_ st) (k_ st) (Dc_vector_of st) (Do_vector_of st)
                (pk_pairs_ (cfg st))) as Hs. cbv zeta in Hs.
  rewrite <- Hs. cbn [fst snd]. clear Hs.
  pose proof (unpack_G_Go (nirreps (cfg st)) (opi (cfg st))
    (Gc_vector (sweep (pk_ st) (k_ st) (Dc_vector_of st) (Do_vector_of st)
                  (pk_pairs_ (cfg st))))
    (Go_vector (sweep (pk_ st) (k_ st) (Dc_vector_of st) (Do_vector_of st)
                  (pk_pairs_ (cfg st))))) as Hu. cbv zeta in Hu.
  rewrite <- Hu. cbn [fst snd]. clear Hu.
  unfold form_G_from_PK, Dc_vector_of, Do_vector_of.
  destruct (pack_D _ _ _ _ _) as [[ij Dcv] Dov]. simpl.
  destruct (unpack_G _ _ _ _) as [[ij' Gc] Go]. destruct st. reflexivity.
Qed.

(** C5.  [form_G_from_PK], for the pair (p,q), q <= p, of irrep [h], at
    pair index [pq]: the packed densities hold the matrix entry, doubled
    when p <> q; entry [pq] of each G vector is what the single triangular
    sweep leaves there -- the row accumulator of row [pq] (steps
    rs <= pq, each adding PK.Dc[rs] + 0.5 PK.Do[rs] to Gc and
    0.5 PK.Dc[rs] + 0.25 (PK+K).Do[rs] to Go) and one increment with the
    density of pair [pq'] from every row pq' >= pq; and [Gc_], [Go_] hold
    twice that entry at (p,q) and at (q,p).  The pair vectors have room for
    every pair and the supermatrices for every pair of pairs, so that all
    accesses stay inside the arrays. *)
Theorem form_G_from_PK_contraction (st : ROHF) (h p q : nat) :
  let c := cfg st in
  let n := pk_pairs_ c in
  let Dcv := Dc_vector_of st in
  let Dov := Do_vector_of st in
  let pq := pair_offset (opi c) h + ioff p + q in
  pair_offset (opi c) (nirreps c) <= n ->
  ioff n <= length (pk_ st) -> ioff n <= length (k_ st) ->
  h < nirreps c -> p < opi c !!! h -> q <= p ->
  rd Dcv pq = packed_entry (Dc_ st) h p q
  /\ rd Dov pq = packed_entry (Do_ st) h p q
  /\ mget (Gc_ (form_G_from_PK st)) h p q
     = d2 ⊠ sweep_entry (gc_inc (pk_ st) Dcv Dov) n pq
  /\ mget (Gc_ (form_G_from_PK st)) h q p
     = d2 ⊠ sweep_entry (gc_inc (pk_ st) Dcv Dov) n pq
  /\ mget (Go_ (form_G_from_PK st)) h p q
     = d2 ⊠ sweep_entry (go_inc (pk_ st) (k_ st) Dcv Dov) n pq
  /\ mget (Go_ (form_G_from_PK st)) h q p
     = d2 ⊠ sweep_entry (go_inc (pk_ st) (k_ st) Dcv Dov) n pq.
Proof.
  cbv zeta. intros Hpairs _ _ Hh Hp Hq.
  set (pq := pair_offset (opi (cfg st)) h + ioff p + q).
  assert (Hpq : pq < pk_pairs_ (cfg st)).
  { pose proof (pair_offset_mono (opi (cfg st)) (S h) (nirreps (cfg st))
                  ltac:(lia)) as Hmono.
    simpl in Hmono. pose proof (ioff_lt p (opi (cfg st) !!! h) Hp). subst pq. lia. }
  split; [|split].
  - unfold Dc_vector_of.
    pose proof (pack_D_Dc (nirreps (cfg st)) (opi (cfg st)) (Dc_ st) (Do_ st)
                  (pk_pairs_ (cfg st))) as Hsim. cbv zeta in Hsim.
    destruct (pack1_all (packed_entry (Dc_ st)) (opi (cfg st)) (pk_pairs_ (cfg st))
                (nirreps (cfg st)) Hpairs) as (v & Hv & _ & Hval).
    rewrite Hv in Hsim. injection Hsim as _ ->. apply Hval; assumption.
  - unfold Do_vector_of.
    pose proof (pack_D_Do (nirreps (cfg st)) (opi (cfg st)) (Dc_ st) (Do_ st)
                  (pk_pairs_ (cfg st))) as Hsim. cbv zeta in Hsim.
    destruct (pack1_all (packed_entry (Do_ st)) (opi (cfg st)) (pk_pairs_ (cfg st))
                (nirreps (cfg st)) Hpairs) as (v & Hv & _ & Hval).
    rewrite Hv in Hsim. injection Hsim as _ ->. apply Hval; assumption.
  - rewrite form_G_from_PK_Gc, form_G_from_PK_Go.
    destruct (unpack1_all (opi (cfg st))
                (snd (fst (sweep1 (gc_inc (pk_ st) (Dc_vector_of st) (Do_vector_of st))
                             (pk_pairs_ (cfg st))))) (nirreps (cfg st)))
      as (Gc & -> & HGc).
    destruct (unpack1_all (opi (cfg st))
                (snd (fst (sweep1 (go_inc (pk_ st) (k_ st) (Dc_vector_of st) (Do_vector_of st))
                             (pk_pairs_ (cfg st))))) (nirreps (cfg st)))
      as (Go & -> & HGo).
    simpl. rewrite !HGc, !HGo.
    rewrite !bool_decide_eq_true_2 by lia.
    replace (Nat.max p q) with p by lia. replace (Nat.min p q) with q by lia.
    replace (Nat.max q p) with p by lia. replace (Nat.min q p) with q by lia.
    fold pq. rewrite !sweep1_entry by exact Hpq. repeat split.
Qed.

(** ** Fock builder: the block structure *)

(** A loop that writes the entries (i,j) and (j,i), [lo <= j < hi]. *)
Lemma sym_fill_get (v : nat -> num) (h i lo hi : nat) (F : Matrix)
    (h' a b : nat) :
  lo <= hi ->
  mget (for_loop lo hi (fun j F => mset (mset F h i j (v j)) h j i (v j)) F) h' a b
  = if bool_decide (h' = h /\ ((a = i /\ lo <= b < hi) \/ (b = i /\ lo <= a < hi)))
    then v (if bool_decide (a = i) then b else a)
    else mget F h' a b.
Proof.
  induction 1 as [|hi Hle IH].
  - rewrite for_loop_empty by lia. rewrite bool_decide_eq_false_2 by lia. reflexivity.
  - rewrite for_loop_snoc by lia. rewrite !mget_mset, IH.
    repeat case_bool_decide; first [reflexivity | exfalso; lia | f_equal; lia].
Qed.

Lemma sym_fill_other (v : nat -> num) (h i lo hi : nat) (F : Matrix)
    (h' a b : nat) :
  h' <> h ->
  mget (for_loop lo hi (fun j F => mset (mset F h i j (v j)) h j i (v j)) F) h' a b
  = mget F h' a b.
Proof.
  intros Hne. destruct (decide (lo <= hi)) as [Hle|Hgt].
  - rewrite sym_fill_get by exact Hle.
    rewrite bool_decide_eq_false_2 by (intros [Heq _]; contradiction). reflexivity.
  - rewrite for_loop_empty by lia. reflexivity.
Qed.

(** One open-shell row of [form_F], inside the block. *)
Lemma form_F_row_get (Fct Fot : Matrix) (docc socc dim h i : nat) (F : Matrix)
    (h' a b : nat) :
  docc <= i < docc + socc -> docc + socc <= dim -> a < dim -> b < dim ->
  mget (form_F_row Fct Fot docc socc dim h i F) h' a b
  = if bool_decide (h' = h /\ (a = i \/ b = i))
    then Feff_row_value Fct Fot docc socc h i (if bool_decide (a = i) then b else a)
    else mget F h' a b.
Proof.
  intros Hi Hwf Ha Hb. unfold form_F_row, Feff_row_value.
  rewrite (sym_fill_get (fun j => mget Fot h i j)) by lia.
  rewrite (sym_fill_get (fun j => d2 ⊠ mget Fot h i j)) by lia.
  rewrite (sym_fill_get (fun j => d2 ⊠ (mget Fct h i j ⊟ mget Fot h i j))) by lia.
  repeat case_bool_decide; first [reflexivity | exfalso; lia].
Qed.

Lemma form_F_row_other (Fct Fot : Matrix) (docc socc dim h i : nat) (F : Matrix)
    (h' a b : nat) :
  h' <> h -> mget (form_F_row Fct Fot docc socc dim h i F) h' a b = mget F h' a b.
Proof.
  intros Hne. unfold form_F_row.
  rewrite (sym_fill_other (fun j => mget Fot h i j)) by exact Hne.
  rewrite (sym_fill_other (fun j => d2 ⊠ mget Fot h i j)) by exact Hne.
  rewrite (sym_fill_other (fun j => d2 ⊠ (mget Fct h i j ⊟ mget Fot h i j))) by exact Hne.
  reflexivity.
Qed.

Lemma form_F_rows_other (Fct Fot : Matrix) (docc socc dim h lo hi : nat)
    (F : Matrix) (h' a b : nat) :
  h' <> h ->
  mget (for_loop lo hi (fun i => form_F_row Fct Fot docc socc dim h i) F) h' a b
  = mget F h' a b.
Proof.
  intros Hne. destruct (decide (lo <= hi)) as [Hle|Hgt].
  - apply (for_loop_inv (fun _ F' => mget F' h' a b = mget F h' a b));
      [exact Hle|reflexivity|].
    intros i F' _ HF'. rewrite form_F_row_other by exact Hne. exact HF'.
  - rewrite for_loop_empty by lia. reflexivity.
Qed.

(** The open-shell rows [docc <= i < m] of one irrep. *)
Lemma form_F_rows_get (Fct Fot : Matrix) (docc socc dim h : nat) (F : Matrix)
    (m a b : nat) :
  docc <= m -> m <= docc + socc -> docc + socc <= dim -> a < dim -> b < dim ->
  mget (for_loop docc m (fun i => form_F_row Fct Fot docc socc dim h i) F) h a b
  = if bool_decide (docc <= a < m) then
      if bool_decide (docc <= b < m)
      then Feff_row_value Fct Fot docc socc h (Nat.max a b) (Nat.min a b)
      else Feff_row_value Fct Fot docc socc h a b
    else if bool_decide (docc <= b < m)
         then Feff_row_value Fct Fot docc socc h b a
         else mget F h a b.
Proof.
  intros Hle. induction Hle as [|m Hle IH]; intros Hm Hwf Ha Hb.
  - rewrite for_loop_empty by lia.
    rewrite !bool_decide_eq_false_2 by lia. reflexivity.
  - rewrite for_loop_snoc by lia.
    rewrite form_F_row_get by lia. rewrite IH by lia.
    repeat case_bool_decide;
      first [reflexivity | exfalso; lia | f_equal; lia].
Qed.

(** Inside block [h], with [doccpi_[h] + soccpi_[h] <= opi[h]], the matrix
    [form_F] assembles is [Feff_block]. *)
Lemma form_Feff_get (Fct Fot : Matrix) (dims docc socc : list nat)
    (nirr h a b : nat) :
  h < nirr -> docc !!! h + socc !!! h <= dims !!! h ->
  a < dims !!! h -> b < dims !!! h ->
  mget (form_Feff Fct Fot nirr dims docc socc) h a b
  = Feff_block Fct Fot (docc !!! h) (socc !!! h) h a b.
Proof.
  intros Hh Hwf Ha Hb. unfold form_Feff.
  assert (Huntouched : forall n, n <= h ->
    mget (for_loop 0 n (fun h0 =>
            for_loop (docc !!! h0) (docc !!! h0 + socc !!! h0) (fun i =>
              form_F_row Fct Fot (docc !!! h0) (socc !!! h0) (dims !!! h0) h0 i)) Fct)
         h a b = mget Fct h a b).
  { induction n as [|n IHn]; intros Hn.
    - rewrite for_loop_empty by lia. reflexivity.
    - rewrite for_loop_snoc by lia. rewrite form_F_rows_other by lia.
      apply IHn. lia. }
  induction nirr as [|n IHn]; [lia|].
  rewrite for_loop_snoc by lia.
  destruct (decide (h = n)) as [->|Hne].
  - rewrite form_F_rows_get by lia. rewrite Huntouched by lia.
    unfold Feff_block. reflexivity.
  - rewrite form_F_rows_other by exact Hne. apply IHn. lia.
Qed.

(** The block structure of [Feff_] after [form_F], for well-formed
    occupations: closed-closed, closed-virtual and virtual-virtual entries
    are those of the MO-basis closed Fock matrix; the closed-open coupling
    is [2 (Fc - Fo)] and the open-virtual coupling [2 Fo], taken at the
    element whose row is the open orbital and mirrored; the open-open block
    is [Fo], taken below the diagonal and mirrored. *)
Theorem form_F_blocks (ext : Collab) (st : ROHF) (h a b : nat) :
  h < nirreps (cfg st) ->
  doccpi_ st !!! h + soccpi_ st !!! h <= opi (cfg st) !!! h ->
  a < opi (cfg st) !!! h -> b < opi (cfg st) !!! h ->
  mget (Feff_ (form_F ext st)) h a b
  = Feff_block (transform ext (Fc_ (form_F ext st)) (C_ st))
               (transform ext (Fo_ (form_F ext st)) (C_ st))
               (doccpi_ st !!! h) (soccpi_ st !!! h) h a b.
Proof.
  intros Hh Hwf Ha Hb. rewrite form_F_Feff, form_F_Fc, form_F_Fo.
  apply form_Feff_get; assumption.
Qed.

(** ** The contraction in exact arithmetic *)

Lemma for_loop_ext {A : Type} (lo hi : nat) (f g : nat -> A -> A) (a : A) :
  (forall i x, lo <= i < hi -> f i x = g i x) ->
  for_loop lo hi f a = for_loop lo hi g a.
Proof.
  intros Hext. apply (for_loop_sim eq); [reflexivity|].
  intros i x y Hi ->. apply Hext, Hi.
Qed.

Lemma sweep_entry_ext (inc inc' : nat -> nat -> num -> num) (n x : nat) :
  (forall idx y acc, inc idx y acc = inc' idx y acc) ->
  sweep_entry inc n x = sweep_entry inc' n x.
Proof.
  intros Hext. unfold sweep_entry, row_acc.
  rewrite (for_loop_ext (x + 1) n _ (fun pq v => inc' (ioff pq + x) pq v))
    by (intros; apply Hext).
  rewrite (for_loop_ext 0 (x + 1) _ (fun rs acc => inc' (ioff x + rs) rs acc))
    by (intros; apply Hext).
  rewrite Hext. reflexivity.
Qed.

Section Exact.
Hypothesis laws : AddLaws Sc.

Lemma dadd_0_r (x : num) : x ⊞ d0 = x.
Proof. rewrite (dadd_comm Sc laws). apply (dadd_0_l Sc laws). Qed.

Lemma loop_add_dsum (f : nat -> num) (lo hi : nat) (a : num) :
  lo <= hi -> for_loop lo hi (fun i v => v ⊞ f i) a = a ⊞ dsum lo hi f.
Proof.
  unfold dsum. induction 1 as [|hi Hle IH].
  - rewrite !for_loop_empty by lia. symmetry. apply dadd_0_r.
  - rewrite !for_loop_snoc by lia. rewrite IH.
    symmetry. apply (dadd_assoc Sc laws).
Qed.

Lemma dsum_first (f : nat -> num) (lo hi : nat) :
  lo < hi -> dsum lo hi f = f lo ⊞ dsum (lo + 1) hi f.
Proof.
  unfold dsum. intros Hlt. unfold lt in Hlt.
  induction Hlt as [|hi Hle IH].
  - rewrite for_loop_snoc by lia. rewrite !for_loop_empty by lia.
    rewrite (dadd_0_l Sc laws). symmetry. apply dadd_0_r.
  - rewrite for_loop_snoc by lia. rewrite IH.
    rewrite (for_loop_snoc (lo + 1)) by lia.
    symmetry. apply (dadd_assoc Sc laws).
Qed.

Lemma sweep_entry_contract (t : nat -> nat -> num) (n x : nat) :
  x < n ->
  sweep_entry (fun idx y acc => acc ⊞ t idx y) n x = contract t n x.
Proof.
  intros Hx. unfold sweep_entry, row_acc, contract.
  rewrite (loop_add_dsum (fun pq => t (ioff pq + x) pq)) by lia.
  fold (dsum 0 (x + 1) (fun rs => t (ioff x + rs) rs)).
  rewrite (dsum_first _ x n) by lia.
  rewrite (dadd_0_l Sc laws).
  rewrite (dadd_comm Sc laws (t (ioff x + x) x)).
  rewrite <- !(dadd_assoc Sc laws). reflexivity.
Qed.


End Exact.

(** ** The supermatrices during a run *)

(** From the end of the initial work to the end of [compute_energy], [pk_]
    and [k_] do not change: no step of an iteration writes to them. *)
Theorem compute_energy_keeps_PK (ext : Collab) (st : ROHF) :
  pk_ (run_state (compute_energy ext st)) = pk_ (snd (scf_init ext st))
  /\ k_ (run_state (compute_energy ext st)) = k_ (snd (scf_init ext st)).
Proof.
  unfold compute_energy. destruct (scf_init ext st) as [out0 st0]. simpl.
  destruct (scf_loop ext _ 0 out0 st0) as [[[[conv it] out'] st']| | |] eqn:Hloop;
    try (split; reflexivity).
  apply scf_loop_ret in Hloop as (_ & Hfix & _). unfold fixed_part in Hfix.
  destruct conv; simpl; split; congruence.
Qed.

Lemma form_PK_parts (st : ROHF) :
  cfg (snd (form_PK st)) = cfg st /\ scf_type_ (snd (form_PK st)) = scf_type_ st.
Proof. destruct st. split; reflexivity. Qed.

(** With [scf_type_ = "PK"] the work before the loop runs [form_PK] twice,
    the second time on the supermatrices the first left. *)
Theorem scf_init_forms_PK_twice (ext : Collab) (st : ROHF) :
  scf_type_ st = "PK" ->
  let st2 := snd (form_PK (snd (form_PK st))) in
  pk_ (snd (scf_init ext st)) = pk_ st2
  /\ k_ (snd (scf_init ext st)) = k_ st2
  /\ length (List.filter is_forming_PK (fst (scf_init ext st))) = 2.
Proof.
  intros Hty. cbv zeta. destruct st. simpl in Hty. subst.
  unfold scf_init, form_PK. simpl.
  match goal with |- context [ig_loaded ?g] => destruct (ig_loaded g) end;
    repeat split.
Qed.

(** ** The bookkeeping of an iteration *)

Lemma build_G_book (ext : Collab) (st st' : ROHF) :
  build_G ext st = Ret st' -> book_part st' = book_part st.
Proof.
  unfold build_G, form_G_from_direct_integrals, form_G.
  repeat case_bool_decide; try discriminate.
  - intros [= <-]. unfold form_G_from_PK.
    destruct (pack_D _ _ _ _ _) as [[ij Dcv] Dov].
    destruct (unpack_G _ _ _ _) as [[ij' Gc] Go].
    destruct st. reflexivity.
  - destruct (is_df _); [|discriminate].
    destruct (form_G_from_RI ext st) as [Gc Go]. intros [= <-].
    destruct st. reflexivity.
  - destruct (is_df _); [|intros [= <-]; reflexivity].
    destruct (form_G_from_RI ext st) as [Gc Go]. intros [= <-].
    destruct st. reflexivity.
Qed.

Lemma save_fock_book (st : ROHF) : book_part (save_fock st) = book_part st.
Proof.
  unfold save_fock. destruct (initialized_diis_manager_ st); [reflexivity|].
  destruct st. reflexivity.
Qed.

Lemma diis_step_book (ext : Collab) (iter : Z) (st st' : ROHF) (b : bool) :
  diis_step ext iter st = Ret (b, st') ->
  book_part st' = book_part st /\ b = diis_due (cfg st) iter.
Proof.
  unfold diis_step, diis_due. destruct (_ && _ && _).
  - unfold diis. destruct (diis_manager_ st) as [m|]; [|discriminate].
    destruct (extrapolate ext m (Feff_ st)) as [ok F]. intros [= <- <-].
    destruct st. split; reflexivity.
  - intros [= <- <-]. split; reflexivity.
Qed.

Lemma form_C_book (ext : Collab) (st : ROHF) :
  book_part (form_C ext st) = book_part st.
Proof.
  destruct st. unfold form_C. simpl.
  destruct (diagonalize ext _) as [eigvec eps]. simpl.
  destruct (find_occupation ext _ _) as [docc socc]. reflexivity.
Qed.

(** The line an iteration prints, and what it keeps of the state before. *)
Lemma scf_iteration_line (ext : Collab) (iter : Z) (st st' : ROHF)
    (line : list event) :
  scf_iteration ext iter st = Ret (line, st') ->
  line = [PrintIter iter (E_ st') (E_ st' ⊟ E_ st) (diis_due (cfg st) iter)]
  /\ Eold_ st' = E_ st /\ Dc_old_ st' = Dc_ st /\ Do_old_ st' = Do_ st.
Proof.
  unfold scf_iteration.
  set (s0 := set_Eold _ _).
  assert (Hs0 : book_part s0 = (E_ st, E_ st, Dc_ st, Do_ st) /\ cfg s0 = cfg st)
    by (subst s0; destruct st; split; reflexivity).
  destruct (build_G ext s0) as [s1| | |] eqn:HG; try discriminate.
  pose proof (build_G_book _ _ _ HG) as HGb.
  apply build_G_parts in HG as [HG _].
  pose proof (form_F_parts ext s1) as [HF _].
  assert (HFb : book_part (form_F ext s1) = book_part s1) by (destruct s1; reflexivity).
  set (s2 := form_F ext s1) in *.
  set (s3 := if diis_enabled_ (cfg s2) then save_fock s2 else s2).
  assert (Hs3 : book_part s3 = book_part s2 /\ cfg s3 = cfg s2).
  { subst s3. destruct (diis_enabled_ (cfg s2)); [|split; reflexivity].
    split; [apply save_fock_book|].
    pose proof (save_fock_fixed s2) as Hf. unfold fixed_part in Hf. congruence. }
  set (s4 := set_E _ s3).
  assert (Hs4 : Eold_ s4 = Eold_ s3 /\ Dc_old_ s4 = Dc_old_ s3
                /\ Do_old_ s4 = Do_old_ s3 /\ cfg s4 = cfg s3)
    by (subst s4; destruct s3; repeat split; reflexivity).
  destruct (diis_step ext iter s4) as [[b s5]| | |] eqn:HD; try discriminate.
  apply diis_step_book in HD as [HD Hb].
  intros [= <- <-].
  pose proof (form_C_book ext s5) as HC.
  assert (HDb : book_part (form_D (form_C ext s5)) = book_part (form_C ext s5))
    by (destruct (form_C ext s5); reflexivity).
  destruct Hs0 as [Hs0 Hc0], Hs3 as [Hs3 Hc3], Hs4 as (He4 & Hdc4 & Hdo4 & Hc4).
  unfold book_part, fixed_part in *.
  assert (Hcfg : cfg s4 = cfg st) by congruence.
  rewrite Hcfg in Hb. subst b.
  assert (HE : E_ (form_D (form_C ext s5)) = E_ s5) by congruence.
  assert (HEold : Eold_ s5 = E_ st) by congruence.
  rewrite HE, HEold.
  repeat split; congruence.
Qed.

Lemma iteration_lines_app (l1 l2 : list event) :
  iteration_lines (l1 ++ l2) = iteration_lines l1 ++ iteration_lines l2.
Proof. apply omap_app. Qed.

Lemma scf_init_no_lines (ext : Collab) (st : ROHF) :
  iteration_lines (fst (scf_init ext st)) = [].
Proof.
  destruct st. unfold scf_init, form_PK. simpl.
  repeat (destruct (bool_decide (_ = "PK")); simpl);
    match goal with |- context [ig_loaded ?g] => destruct (ig_loaded g) end;
    reflexivity.
Qed.

Lemma save_information_no_lines (ext : Collab) (st : ROHF) :
  iteration_lines (save_information ext st) = [].
Proof. unfold save_information. destruct (print_mos ext); reflexivity. Qed.

(** The lines of the loop, from any point of entry. *)
Lemma scf_loop_lines (ext : Collab) (fuel : nat) :
  forall (iter : Z) (out : list event) (st : ROHF)
         (conv : bool) (it : Z) (out' : list event) (st' : ROHF),
  scf_loop ext fuel iter out st = Ret (conv, it, out', st') ->
  exists ls,
    iteration_lines out' = iteration_lines out ++ ls
    /\ line_flag <$> ls
       = (fun i => (i, diis_due (cfg st) i)) <$> seqZ (iter + 1) (it - iter)
    /\ energy_chain (E_ st) ls
    /\ last_energy (E_ st) ls = E_ st'.
Proof.
  induction fuel as [|fuel IH]; intros iter out st conv it out' st' Hloop;
    pose proof (scf_loop_ret _ _ _ _ _ _ _ _ _ Hloop) as (_ & _ & _ & Hlt & _);
    simpl in Hloop;
    destruct (scf_iteration ext (iter + 1) st) as [[line s1]| | |] eqn:Hit;
    try discriminate;
    pose proof (scf_iteration_line _ _ _ _ _ Hit) as (-> & _);
    pose proof (scf_iteration_parts _ _ _ _ _ Hit) as (Hfix & _);
    assert (Hcfg : cfg s1 = cfg st) by (unfold fixed_part in Hfix; congruence);
    destruct (negb (test_convergency s1) && _) eqn:Hgo; try discriminate.
  - injection Hloop as <- <- <- <-.
    eexists [_]. rewrite iteration_lines_app. split; [reflexivity|].
    replace (iter + 1 - iter)%Z with 1%Z by lia.
    repeat split.
  - apply IH in Hloop as Hls. destruct Hls as (ls & Hout & Hfl & Hch & Hlast).
    pose proof (scf_loop_ret _ _ _ _ _ _ _ _ _ Hloop) as (_ & _ & _ & Hlt' & _).
    exists ((iter + 1, E_ s1, E_ s1 ⊟ E_ st, diis_due (cfg st) (iter + 1))%Z :: ls).
    rewrite Hout, iteration_lines_app, <- app_assoc. split; [reflexivity|].
    rewrite (seqZ_cons (iter + 1)) by lia.
    replace (Z.pred (it - iter)) with (it - (iter + 1))%Z by lia.
    replace (Z.succ (iter + 1)) with (iter + 1 + 1)%Z by lia.
    rewrite Hcfg in Hfl. cbn [fmap list_fmap line_flag]. rewrite <- Hfl.
    repeat split; assumption.
  - injection Hloop as <- <- <- <-.
    eexists [_]. rewrite iteration_lines_app. split; [reflexivity|].
    replace (iter + 1 - iter)%Z with 1%Z by lia.
    repeat split.
Qed.

(** The iteration lines of a run that returns are numbered 1, 2, ... up to
    the final value of [iter], and the line of iteration [i] is flagged as
    an extrapolation step exactly when DIIS is enabled,
    [i >= min_diis_vectors_] and [i] is a multiple of 6. *)
Theorem compute_energy_iteration_lines (ext : Collab) (st : ROHF) (e : num) :
  let r := compute_energy ext st in
  run_result r = Ret e ->
  line_flag <$> iteration_lines (run_out r)
  = (fun i => (i, diis_due (cfg st) i)) <$> seqZ 1 (run_iter r).
Proof.
  cbv zeta. unfold compute_energy.
  pose proof (scf_init_parts ext st) as (Hcfg & _).
  pose proof (scf_init_no_lines ext st) as Hno.
  destruct (scf_init ext st) as [out0 st0]. simpl in Hcfg, Hno.
  destruct (scf_loop ext _ 0 out0 st0) as [[[[conv it] out'] st']| | |] eqn:Hloop;
    try discriminate.
  apply scf_loop_lines in Hloop as (ls & Hout & Hfl & _).
  rewrite Hno, Hcfg in *. simpl in Hout.
  replace (it - 0)%Z with it in Hfl by lia.
  destruct conv; cbn [run_result run_out run_iter]; intros _;
    rewrite !iteration_lines_app, Hout, ?save_information_no_lines;
    simpl; rewrite app_nil_r; exact Hfl.
Qed.

(** In a run that returns, every iteration line prints its energy and the
    difference from the energy of the line before (from the energy of the
    initial guess on the first line); [E_] ends as the energy of the last
    line, which is the value returned on convergence. *)
Theorem compute_energy_energy_chain (ext : Collab) (st : ROHF) (e : num) :
  let r := compute_energy ext st in
  let ls := iteration_lines (run_out r) in
  let E0 := E_ (snd (scf_init ext st)) in
  run_result r = Ret e ->
  energy_chain E0 ls
  /\ last_energy E0 ls = E_ (run_state r)
  /\ (test_convergency (run_state r) = true -> e = last_energy E0 ls).
Proof.
  cbv zeta. unfold compute_energy.
  pose proof (scf_init_no_lines ext st) as Hno.
  destruct (scf_init ext st) as [out0 st0]. simpl in Hno. cbn [snd].
  destruct (scf_loop ext _ 0 out0 st0) as [[[[conv it] out'] st']| | |] eqn:Hloop;
    try discriminate.
  pose proof (scf_loop_ret _ _ _ _ _ _ _ _ _ Hloop) as (Hc & _).
  apply scf_loop_lines in Hloop as (ls & Hout & _ & Hch & Hlast).
  rewrite Hno in Hout. simpl in Hout.
  destruct conv; cbn [run_result run_out run_state]; intros [= <-];
    rewrite !iteration_lines_app, Hout, ?save_information_no_lines;
    simpl; rewrite app_nil_r; repeat split; try assumption; congruence.
Qed.

(** ** The DIIS manager during a run *)

Lemma scf_loop_diis (ext : Collab) (fuel : nat) :
  forall (iter : Z) (out : list event) (st : ROHF)
         (conv : bool) (it : Z) (out' : list event) (st' : ROHF),
  scf_loop ext fuel iter out st = Ret (conv, it, out', st') ->
  diis_part st' =
  if diis_enabled_ (cfg st) then diis_part (save_fock st) else diis_part st.
Proof.
  induction fuel as [|fuel IH]; intros iter out st conv it out' st' Hloop;
    simpl in Hloop;
    destruct (scf_iteration ext (iter + 1) st) as [[line s1]| | |] eqn:Hit;
    try discriminate;
    pose proof (scf_iteration_parts _ _ _ _ _ Hit) as (Hfix & Hd & _);
    assert (Hcfg : cfg s1 = cfg st) by (unfold fixed_part in Hfix; congruence);
    destruct (negb (test_convergency s1) && _) eqn:Hgo; try discriminate;
    try (injection Hloop as <- <- <- <-; exact Hd).
  apply IH in Hloop. rewrite Hloop, Hcfg.
  destruct (diis_enabled_ (cfg st)); [|exact Hd].
  rewrite save_fock_diis_part.
  replace (initialized_diis_manager_ s1) with true; [exact Hd|].
  rewrite save_fock_diis_part in Hd. unfold diis_part in Hd.
  destruct (initialized_diis_manager_ st) eqn:Hini; congruence.
Qed.

(** In a run that returns, the DIIS members change at most once: with DIIS
    disabled they stay as they were; with DIIS enabled they are what the
    first [save_fock] made of them, a manager already set up being kept and
    a fresh one being empty.  No iteration and no extrapolation adds an
    entry to the history. *)
Theorem compute_energy_diis_manager (ext : Collab) (st : ROHF) (e : num) :
  let r := compute_energy ext st in
  run_result r = Ret e ->
  diis_part (run_state r)
  = (if diis_enabled_ (cfg st) && negb (initialized_diis_manager_ st)
     then (true, Some (new_DIISManager (max_diis_vectors_ (cfg st))
                         "HF DIIS vector" LargestError OnDisk))
     else diis_part st)
  /\ (diis_history (run_state r) = [] \/ diis_history (run_state r) = diis_history st).
Proof.
  cbv zeta. unfold compute_energy.
  pose proof (scf_init_parts ext st) as (Hcfg & _ & Hdp & _).
  destruct (scf_init ext st) as [out0 st0]. simpl in Hcfg, Hdp.
  destruct (scf_loop ext _ 0 out0 st0) as [[[[conv it] out'] st']| | |] eqn:Hloop;
    try discriminate.
  apply scf_loop_diis in Hloop. rewrite save_fock_diis_part, Hcfg in Hloop.
  replace (initialized_diis_manager_ st0) with (initialized_diis_manager_ st) in Hloop
    by (unfold diis_part in Hdp; congruence).
  rewrite Hdp in Hloop.
  assert (Hrun : run_state (if conv
            then {| run_result := Ret (E_ st'); run_iter := it;
                    run_out := out' ++ [Print "  Energy converged."]
                                    ++ save_information ext st';
                    run_state := st' |}
            else {| run_result := Ret d0; run_iter := it;
                    run_out := out' ++ [Print "  Failed to converge."];
                    run_state := st' |}) = st') by (destruct conv; reflexivity).
  intros _. rewrite Hrun. clear Hrun.
  unfold diis_history, diis_part in *.
  destruct (diis_enabled_ (cfg st)), (initialized_diis_manager_ st);
    cbn [andb negb] in *; injection Hloop as Hi Hm; rewrite ?Hi, ?Hm;
    split; auto.
Qed.

(** ** The paths that are not implemented *)

Lemma build_G_abort (ext : Collab) (st : ROHF) :
  scf_type_ st = "DIRECT" \/ scf_type_ st = "OUT_OF_CORE" ->
  build_G ext st
  = Abort (if bool_decide (scf_type_ st = "DIRECT")
           then "ROHF integral direct algorithm is not implemented yet!"
           else "ROHF out-of-core algorithm is not implemented yet!").
Proof. unfold build_G. intros [-> | ->]; reflexivity. Qed.

Lemma scf_loop_abort (ext : Collab) (fuel : nat) (iter : Z) (out : list event)
    (st : ROHF) :
  scf_type_ st = "DIRECT" \/ scf_type_ st = "OUT_OF_CORE" ->
  scf_loop ext fuel iter out st
  = Abort (if bool_decide (scf_type_ st = "DIRECT")
           then "ROHF integral direct algorithm is not implemented yet!"
           else "ROHF out-of-core algorithm is not implemented yet!").
Proof.
  intros Hty.
  assert (Hit : scf_iteration ext (iter + 1) st
    = Abort (if bool_decide (scf_type_ st = "DIRECT")
             then "ROHF integral direct algorithm is not implemented yet!"
             else "ROHF out-of-core algorithm is not implemented yet!")).
  { unfold scf_iteration. rewrite build_G_abort; destruct st; [reflexivity|exact Hty]. }
  destruct fuel; simpl; rewrite Hit; reflexivity.
Qed.

Lemma scf_init_not_PK (ext : Collab) (st : ROHF) :
  scf_type_ st <> "PK" ->
  pk_ (snd (scf_init ext st)) = pk_ st /\ k_ (snd (scf_init ext st)) = k_ st.
Proof.
  intros Hty. destruct st. simpl in Hty. unfold scf_init. simpl.
  rewrite !(bool_decide_eq_false_2 _ Hty). simpl. split; reflexivity.
Qed.

Lemma compute_energy_aborts (ext : Collab) (st : ROHF) :
  scf_type_ st = "DIRECT" \/ scf_type_ st = "OUT_OF_CORE" ->
  run_result (compute_energy ext st)
  = Abort (if bool_decide (scf_type_ st = "DIRECT")
           then "ROHF integral direct algorithm is not implemented yet!"
           else "ROHF out-of-core algorithm is not implemented yet!").
Proof.
  intros Hty. unfold compute_energy.
  pose proof (scf_init_parts ext st) as (_ & Hty0 & _).
  destruct (scf_init ext st) as [out0 st0]. simpl in Hty0.
  rewrite scf_loop_abort by (rewrite Hty0; exact Hty).
  rewrite Hty0. reflexivity.
Qed.

(** With [scf_type_] "DIRECT" or "OUT_OF_CORE", [compute_energy] ends the
    process in its first iteration, with the message of the G build that is
    not implemented: no iteration line is printed, nothing is handed to the
    persistence collaborator and the supermatrices are not touched. *)
Theorem compute_energy_unimplemented (ext : Collab) (st : ROHF) :
  scf_type_ st = "DIRECT" \/ scf_type_ st = "OUT_OF_CORE" ->
  let r := compute_energy ext st in
  run_result r
  = Abort (if bool_decide (scf_type_ st = "DIRECT")
           then "ROHF integral direct algorithm is not implemented yet!"
           else "ROHF out-of-core algorithm is not implemented yet!")
  /\ iteration_lines (run_out r) = []
  /\ persisted (run_out r) = []
  /\ pk_ (run_state r) = pk_ st /\ k_ (run_state r) = k_ st.
Proof.
  intros Hty. cbv zeta. unfold compute_energy.
  pose proof (scf_init_parts ext st) as (_ & Hty0 & _ & Hp0).
  pose proof (scf_init_no_lines ext st) as Hno.
  pose proof (scf_init_not_PK ext st) as Hpk.
  destruct (scf_init ext st) as [out0 st0]. simpl in Hty0, Hp0, Hno, Hpk.
  rewrite scf_loop_abort by (rewrite Hty0; exact Hty).
  rewrite Hty0. cbn [run_result run_out run_state].
  repeat split; try assumption; apply Hpk; destruct Hty as [-> | ->]; discriminate.
Qed.

(** ** Construction *)

Lemma allocate_PK_test (n m : nat) : n < m / 8 / 2 <-> 16 * n + 16 <= m.
Proof.
  rewrite Nat.Div0.div_div. change (8 * 2) with 16.
  pose proof (Nat.div_mod_eq m 16) as Hm.
  pose proof (Nat.mod_upper_bound m 16 ltac:(lia)) as Hr.
  split; intros H; nia.
Qed.

(** An object constructed with [scf_type_ = "PK"]: the in-core arrays are
    allocated only when both fit in [memory_] bytes with room to spare for
    one more element of each ([16 * pk_size_ + 16 <= memory_]), and are then
    [pk_size_] zeros each; otherwise nothing is allocated, [scf_type_]
    becomes "OUT_OF_CORE" and [compute_energy] ends the process. *)
Theorem common_init_PK (ext : Collab) (M : Matrix) (V : Vector) (st : ROHF) :
  scf_type_ st = "PK" ->
  let st' := snd (common_init M V st) in
  let n := pk_size_ (cfg st) in
  if bool_decide (16 * n + 16 <= memory_ (cfg st)) then
    pk_ st' = replicate n d0 /\ k_ st' = replicate n d0 /\ scf_type_ st' = "PK"
  else
    pk_ st' = [] /\ k_ st' = [] /\ scf_type_ st' = "OUT_OF_CORE"
    /\ run_result (compute_energy ext st')
       = Abort "ROHF out-of-core algorithm is not implemented yet!".
Proof.
  intros Hty. cbv zeta.
  set (s := set_k [] (set_pk [] (set_epsilon V (set_Go M (set_Gc M
        (set_Do_old M (set_Dc_old M (set_Do M (set_Dc M (set_C M (set_Feff M
        (set_Fo M (set_Fc M st))))))))))))).
  assert (Hs : cfg s = cfg st /\ scf_type_ s = "PK" /\ pk_ s = [] /\ k_ s = [])
    by (subst s; destruct st; simpl in Hty; subst; repeat split).
  destruct Hs as (Hcfg & Htys & Hpk & Hk).
  assert (Hst' : snd (common_init M V st) = snd (allocate_PK s)).
  { unfold common_init. fold s. rewrite Htys.
    rewrite bool_decide_eq_true_2 by reflexivity.
    destruct (allocate_PK s). reflexivity. }
  rewrite Hst'. clear Hst'. unfold allocate_PK. rewrite Hcfg.
  rewrite (bool_decide_ext _ _ (allocate_PK_test _ _)).
  case_bool_decide as Hm; cbn [snd].
  - destruct s. simpl in *. auto.
  - assert (Hs' : scf_type_ (set_scf_type "OUT_OF_CORE" s) = "OUT_OF_CORE"
                  /\ pk_ (set_scf_type "OUT_OF_CORE" s) = pk_ s
                  /\ k_ (set_scf_type "OUT_OF_CORE" s) = k_ s)
      by (destruct s; repeat split).
    destruct Hs' as (Hty' & Hpk' & Hk').
    rewrite Hpk', Hk'. repeat split; try assumption.
    rewrite compute_energy_aborts by (right; exact Hty').
    rewrite Hty'. reflexivity.
Qed.

(** ** PK supermatrix: relabelled records *)

Ltac decide_eqs :=
  repeat (match goal with
          | |- context [bool_decide (?a = ?a)] =>
            rewrite (bool_decide_eq_true_2 (a = a) eq_refl)
          | |- context [bool_decide (?a <> ?a)] =>
            rewrite (bool_decide_eq_false_2 (a <> a))
              by (let H := fresh in intros H; apply H; reflexivity)
          | H : ?a <> ?b |- context [bool_decide (?a = ?b)] =>
            rewrite (bool_decide_eq_false_2 (a = b) H)
          | H : ?a <> ?b |- context [bool_decide (?b = ?a)] =>
            rewrite (bool_decide_eq_false_2 (b = a)) by congruence
          | H : ?a <> ?b |- context [bool_decide (?a <> ?b)] =>
            rewrite (bool_decide_eq_true_2 (a <> b) H)
          | H : ?a <> ?b |- context [bool_decide (?b <> ?a)] =>
            rewrite (bool_decide_eq_true_2 (b <> a)) by congruence
          | |- context [bool_decide (?a = ?b)] =>
            destruct (decide (a = b)) as [->|?]
          | |- context [bool_decide (?a <> ?b)] =>
            destruct (decide (a = b)) as [->|?]
          end; cbn [andb orb]).

Ltac index_eq :=
  solve [ reflexivity
        | apply INDEX2_comm
        | progress f_equal; index_eq
        | match goal with
          | |- INDEX2 ?a ?b = _ =>
            rewrite (INDEX2_comm a b); progress f_equal; index_eq
          end ].

(** [form_PK] treats the record (ij|kl) like the record (kl|ij) and like
    the record (ji|lk): each makes the same deposits at the same elements. *)
Theorem form_PK_record_symmetry (c : Config) (r : irec) (P : list num * list num) :
  form_PK_record c (swap_braket r) P = form_PK_record c r P
  /\ form_PK_record c (transpose_pairs r) P = form_PK_record c r P.
Proof.
  destruct P as [pk k].
  unfold form_PK_record, swap_braket, transpose_pairs.
  cbn [lab_i lab_j lab_k lab_l ival]. rewrite !Zabs2Nat.id.
  generalize (Z.abs_nat (lab_i r)) (lab_j r) (lab_k r) (lab_l r) (ival r).
  intros i j k' l v.
  generalize (so2symblk_ c !!! i) (so2symblk_ c !!! j)
             (so2symblk_ c !!! k') (so2symblk_ c !!! l).
  intros is_ js ks ls.
  generalize (so2index_ c !!! i) (so2index_ c !!! j)
             (so2index_ c !!! k') (so2index_ c !!! l).
  intros ii jj kk ll.
  unfold arr_add, arr_sub.
  split; decide_eqs; index_eq.
Qed.

(** ** PK supermatrix: accesses stay inside the arrays *)

Lemma INDEX2_lt (a b n : nat) : a < n -> b < n -> INDEX2 a b < ioff n.
Proof.
  intros Ha Hb. unfold INDEX2. case_bool_decide.
  - pose proof (ioff_lt a n Ha). lia.
  - pose proof (ioff_lt b n Hb). lia.
Qed.

Lemma pair_in_block (c : Config) (a b : nat) :
  tables_wf c ->
  a < length (so2symblk_ c) -> b < length (so2symblk_ c) ->
  so2symblk_ c !!! a = so2symblk_ c !!! b ->
  INDEX2 (so2index_ c !!! a) (so2index_ c !!! b)
  + pk_symoffset_ c !!! (so2symblk_ c !!! a) < pk_pairs_ c.
Proof.
  intros (Hso & Hoff & Hpairs) Ha Hb Hirr.
  destruct (Hso a Ha) as [Hh Hia]. destruct (Hso b Hb) as [_ Hib].
  rewrite <- Hirr in Hib.
  pose proof (INDEX2_lt _ _ _ Hia Hib) as Hlt.
  rewrite (Hoff _ Hh), Hpairs.
  pose proof (pair_offset_mono (opi c) (S (so2symblk_ c !!! a)) (nirreps c)) as Hm.
  simpl in Hm. lia.
Qed.

Lemma form_PK_record_frame (c : Config) (r : irec) (P : list num * list num)
    (idx : nat) :
  tables_wf c -> labels_wf c r -> ioff (pk_pairs_ c) <= idx ->
  fst (form_PK_record c r P) !! idx = fst P !! idx
  /\ snd (form_PK_record c r P) !! idx = snd P !! idx.
Proof.
  intros Hwf (Hi & Hj & Hk & Hl) Hidx. destruct P as [pk k].
  unfold form_PK_record.
  set (i := Z.abs_nat (lab_i r)) in *.
  set (j := lab_j r) in *. set (k' := lab_k r) in *. set (l := lab_l r) in *.
  assert (HJ : so2symblk_ c !!! i = so2symblk_ c !!! j ->
               so2symblk_ c !!! k' = so2symblk_ c !!! l ->
    INDEX2 (INDEX2 (so2index_ c !!! i) (so2index_ c !!! j)
            + pk_symoffset_ c !!! (so2symblk_ c !!! i))
           (INDEX2 (so2index_ c !!! k') (so2index_ c !!! l)
            + pk_symoffset_ c !!! (so2symblk_ c !!! k')) < ioff (pk_pairs_ c)).
  { intros E1 E2. apply INDEX2_lt; apply pair_in_block; assumption. }
  assert (H2 : so2symblk_ c !!! i = so2symblk_ c !!! l ->
               so2symblk_ c !!! j = so2symblk_ c !!! k' ->
    INDEX2 (INDEX2 (so2index_ c !!! i) (so2index_ c !!! l)
            + pk_symoffset_ c !!! (so2symblk_ c !!! i))
           (INDEX2 (so2index_ c !!! j) (so2index_ c !!! k')
            + pk_symoffset_ c !!! (so2symblk_ c !!! j)) < ioff (pk_pairs_ c)).
  { intros E1 E2. apply INDEX2_lt; apply pair_in_block; assumption. }
  assert (H1 : so2symblk_ c !!! i = so2symblk_ c !!! k' ->
               so2symblk_ c !!! j = so2symblk_ c !!! l ->
    INDEX2 (INDEX2 (so2index_ c !!! i) (so2index_ c !!! k')
            + pk_symoffset_ c !!! (so2symblk_ c !!! i))
           (INDEX2 (so2index_ c !!! j) (so2index_ c !!! l)
            + pk_symoffset_ c !!! (so2symblk_ c !!! j)) < ioff (pk_pairs_ c)).
  { intros E1 E2. apply INDEX2_lt; apply pair_in_block; assumption. }
  unfold arr_add, arr_sub.
  repeat (case_bool_decide; cbn [andb orb]); cbn [fst snd];
    try specialize (HJ ltac:(assumption) ltac:(assumption));
    try specialize (H2 ltac:(assumption) ltac:(assumption));
    try specialize (H1 ltac:(assumption) ltac:(assumption));
    rewrite ?list_lookup_alter_ne by lia; split; reflexivity.
Qed.

Lemma form_PK_stream_frame (c : Config) (P : list num * list num) (idx : nat) :
  tables_wf c ->
  (forall r, r ∈ concat (iwl_buffers (so_tei c)) -> labels_wf c r) ->
  ioff (pk_pairs_ c) <= idx ->
  fst (form_PK_stream c P) !! idx = fst P !! idx
  /\ snd (form_PK_stream c P) !! idx = snd P !! idx.
Proof.
  intros Hwf Hlab Hidx. unfold form_PK_stream.
  revert P Hlab. generalize (iwl_buffers (so_tei c)).
  induction l as [|buf bufs IH]; intros P Hlab; [split; reflexivity|].
  cbn [foldl].
  destruct (IH (foldl (fun P r => form_PK_record c r P) P buf)) as [-> ->].
  { intros r Hr. apply Hlab. simpl. apply elem_of_app. right. exact Hr. }
  assert (Hbuf : forall r, r ∈ buf -> labels_wf c r).
  { intros r Hr. apply Hlab. simpl. apply elem_of_app. left. exact Hr. }
  clear IH Hlab. revert P.
  induction buf as [|r rs IHr]; intros P; [split; reflexivity|].
  cbn [foldl].
  destruct (IHr (fun r' Hr' => Hbuf r' (list_elem_of_further _ _ _ Hr'))
                (form_PK_record c r P)) as [-> ->].
  apply form_PK_record_frame; try assumption.
  apply Hbuf. apply list_elem_of_here.
Qed.

(** With tables that describe the blocking and a file whose labels are SO
    indices, [form_PK] keeps inside the first [ioff[pk_pairs_]] elements of
    [pk_] and [k_]: whatever lies at or beyond that index is not written. *)
Theorem form_PK_in_bounds (st : ROHF) (idx : nat) :
  tables_wf (cfg st) ->
  (forall r, r ∈ concat (iwl_buffers (so_tei (cfg st))) -> labels_wf (cfg st) r) ->
  ioff (pk_pairs_ (cfg st)) <= idx ->
  pk_ (snd (form_PK st)) !! idx = pk_ st !! idx
  /\ k_ (snd (form_PK st)) !! idx = k_ st !! idx.
Proof.
  intros Hwf Hlab Hidx.
  rewrite form_PK_pk, form_PK_k, form_PK_halve_fst, form_PK_halve_snd.
  assert (Hoff : forall ij, ij < pk_pairs_ (cfg st) -> idx <> INDEX2 ij ij).
  { intros ij Hij. rewrite INDEX2_diag. pose proof (ioff_lt _ _ Hij). lia. }
  rewrite !halve_lookup_off by exact Hoff.
  apply (form_PK_stream_frame (cfg st) (pk_ st, k_ st)); assumption.
Qed.

(** ** PK supermatrix: the order of the integrals *)

Lemma foldl_concat {A B : Type} (f : A -> B -> A) (ls : list (list B)) (a : A) :
  foldl (fun a l => foldl f a l) a ls = foldl f a (concat ls).
Proof.
  revert a. induction ls as [|l ls IH]; intros a; [reflexivity|].
  simpl. rewrite foldl_app. apply IH.
Qed.

Lemma form_PK_record_tables (c c' : Config) (r : irec) (P : list num * list num) :
  so2symblk_ c' = so2symblk_ c -> so2index_ c' = so2index_ c ->
  pk_symoffset_ c' = pk_symoffset_ c ->
  form_PK_record c' r P = form_PK_record c r P.
Proof. intros H1 H2 H3. unfold form_PK_record. rewrite H1, H2, H3. reflexivity. Qed.

Lemma form_PK_stream_records (c : Config) (f : IWL) (P : list num * list num) :
  form_PK_stream (with_so_tei f c) P
  = foldl (fun P r => form_PK_record c r P) P (concat (iwl_buffers f)).
Proof.
  unfold form_PK_stream. cbn [so_tei with_so_tei].
  rewrite (foldl_concat (fun P r => form_PK_record (with_so_tei f c) r P)).
  generalize (concat (iwl_buffers f)). intros recs. revert P.
  induction recs as [|r recs IH]; intros P; [reflexivity|].
  simpl. rewrite IH. f_equal.
Qed.

Lemma form_PK_stream_concat (c : Config) (P : list num * list num) :
  form_PK_stream c P
  = foldl (fun P r => form_PK_record c r P) P (concat (iwl_buffers (so_tei c))).
Proof. unfold form_PK_stream. apply foldl_concat. Qed.

(** [form_PK] depends on the integral file only through the sequence of
    its records: where the buffers are cut makes no difference to the
    message, to [pk_] or to [k_]. *)
Theorem form_PK_buffering (st : ROHF) (f : IWL) :
  concat (iwl_buffers f) = concat (iwl_buffers (so_tei (cfg st))) ->
  let st' := set_cfg (with_so_tei f (cfg st)) st in
  fst (form_PK st') = fst (form_PK st)
  /\ pk_ (snd (form_PK st')) = pk_ (snd (form_PK st))
  /\ k_ (snd (form_PK st')) = k_ (snd (form_PK st)).
Proof.
  intros Hrecs. cbv zeta.
  rewrite !form_PK_pk, !form_PK_k.
  assert (Hst : cfg (set_cfg (with_so_tei f (cfg st)) st) = with_so_tei f (cfg st)
                /\ pk_ (set_cfg (with_so_tei f (cfg st)) st) = pk_ st
                /\ k_ (set_cfg (with_so_tei f (cfg st)) st) = k_ st)
    by (destruct st; repeat split).
  destruct Hst as (-> & -> & ->).
  rewrite form_PK_stream_records, form_PK_stream_concat, Hrecs.
  split; [|split; reflexivity].
  unfold form_PK. cbn [fst].
  replace (cfg (set_cfg (with_so_tei f (cfg st)) st)) with (with_so_tei f (cfg st))
    by (destruct st; reflexivity).
  cbn [so_tei with_so_tei]. rewrite Hrecs. reflexivity.
Qed.

Lemma form_PK_record_local (c : Config) (r : irec) (P : list num * list num) :
  form_PK_record c r P
  = foldl (fun P d => apply_deposit d P) P (record_deposits c r).
Proof.
  destruct P as [pk k]. unfold form_PK_record, record_deposits.
  repeat match goal with
         | |- context [bool_decide ?P] => destruct (bool_decide P); cbn [andb orb]
         end;
  reflexivity.
Qed.

Lemma foldl_records_deposits (c : Config) (recs : list irec)
    (P : list num * list num) :
  foldl (fun P r => form_PK_record c r P) P recs
  = foldl (fun P d => apply_deposit d P) P (recs ≫= record_deposits c).
Proof.
  revert P. induction recs as [|r recs IH]; intros P; [reflexivity|].
  cbn [foldl]. rewrite IH, form_PK_record_local.
  change ((r :: recs) ≫= record_deposits c)
    with (record_deposits c r ++ (recs ≫= record_deposits c)).
  rewrite foldl_app. reflexivity.
Qed.

Lemma foldl_swap_permutation {A B : Type} (f : A -> B -> A) (l1 l2 : list B) :
  (forall a x y, f (f a x) y = f (f a y) x) ->
  l1 ≡ₚ l2 -> forall a, foldl f a l1 = foldl f a l2.
Proof.
  intros Hswap. induction 1 as [|x l1 l2 _ IH|x y l|l1 l2 l3 _ IH1 _ IH2]; intros a.
  - reflexivity.
  - simpl. apply IH.
  - simpl. rewrite Hswap. reflexivity.
  - rewrite IH1. apply IH2.
Qed.

Lemma alter_alter_swap (f g : num -> num) (i j : nat) (l : list num) :
  (forall x, f (g x) = g (f x)) ->
  alter f i (alter g j l) = alter g j (alter f i l).
Proof.
  intros Hfg. destruct (decide (i = j)) as [->|Hne].
  - rewrite !list_alter_alter_eq. apply list_alter_ext; [|reflexivity].
    intros x _. apply Hfg.
  - apply list_alter_alter_ne, Hne.
Qed.

Section ExactCells.
Hypothesis cell_laws : CellLaws Sc.

Lemma apply_deposit_swap (d1 d2 : deposit) (P : list num * list num) :
  apply_deposit d2 (apply_deposit d1 P) = apply_deposit d1 (apply_deposit d2 P).
Proof.
  destruct P as [pk k], d1 as [i1 v1|i1 w1 v1], d2 as [i2 v2|i2 w2 v2];
    unfold apply_deposit, arr_add, arr_sub; cbn [fst snd]; f_equal;
    apply alter_alter_swap; intros x;
    first [ apply (add_add_swap Sc cell_laws)
          | apply (add_sub_swap Sc cell_laws)
          | symmetry; apply (add_sub_swap Sc cell_laws)
          | apply (sub_sub_swap Sc cell_laws) ].
Qed.

(** In exact arithmetic [pk_] and [k_] do not depend on the order in which
    the integral file lists its records. *)
Theorem form_PK_order_independent (st : ROHF) (f : IWL) :
  concat (iwl_buffers f) ≡ₚ concat (iwl_buffers (so_tei (cfg st))) ->
  let st' := set_cfg (with_so_tei f (cfg st)) st in
  pk_ (snd (form_PK st')) = pk_ (snd (form_PK st))
  /\ k_ (snd (form_PK st')) = k_ (snd (form_PK st)).
Proof.
  intros Hperm. cbv zeta.
  rewrite !form_PK_pk, !form_PK_k.
  assert (Hst : cfg (set_cfg (with_so_tei f (cfg st)) st) = with_so_tei f (cfg st)
                /\ pk_ (set_cfg (with_so_tei f (cfg st)) st) = pk_ st
                /\ k_ (set_cfg (with_so_tei f (cfg st)) st) = k_ st)
    by (destruct st; repeat split).
  destruct Hst as (-> & -> & ->).
  rewrite form_PK_stream_records, form_PK_stream_concat.
  rewrite !foldl_records_deposits.
  rewrite (foldl_swap_permutation (fun P d => apply_deposit d P)
             (concat (iwl_buffers f) ≫= record_deposits (cfg st))
             (concat (iwl_buffers (so_tei (cfg st))) ≫= record_deposits (cfg st))).
  - split; reflexivity.
  - intros P d1 d2. apply apply_deposit_swap.
  - apply bind_Permutation, Hperm.
Qed.

End ExactCells.

(** ** G matrices from PK: shape of the result *)

(** The matrices [form_G_from_PK] leaves in [Gc_] and [Go_] are symmetric,
    and zero outside the blocks, whatever the members held before. *)
Theorem form_G_from_PK_symmetric (st : ROHF) (h p q : nat) :
  let st' := form_G_from_PK st in
  mget (Gc_ st') h p q = mget (Gc_ st') h q p
  /\ mget (Go_ st') h p q = mget (Go_ st') h q p
  /\ (~ (h < nirreps (cfg st) /\ p < opi (cfg st) !!! h /\ q < opi (cfg st) !!! h) ->
      mget (Gc_ st') h p q = d0 /\ mget (Go_ st') h p q = d0).
Proof.
  cbv zeta. rewrite form_G_from_PK_Gc, form_G_from_PK_Go.
  destruct (unpack1_all (opi (cfg st))
              (snd (fst (sweep1 (gc_inc (pk_ st) (Dc_vector_of st) (Do_vector_of st))
                           (pk_pairs_ (cfg st))))) (nirreps (cfg st)))
    as (Gc & -> & HGc).
  destruct (unpack1_all (opi (cfg st))
              (snd (fst (sweep1 (go_inc (pk_ st) (k_ st) (Dc_vector_of st)
                                   (Do_vector_of st)) (pk_pairs_ (cfg st)))))
              (nirreps (cfg st)))
    as (Go & -> & HGo).
  cbn [snd]. rewrite !HGc, !HGo.
  rewrite (Nat.max_comm q p), (Nat.min_comm q p).
  split; [|split].
  - repeat case_bool_decide; try reflexivity; exfalso; tauto.
  - repeat case_bool_decide; try reflexivity; exfalso; tauto.
  - intros Hout. rewrite !bool_decide_eq_false_2 by exact Hout. split; reflexivity.
Qed.

(** ** G matrices from PK: reads stay inside the arrays *)

Lemma sweep1_rd (inc : nat -> nat -> num -> num) (n x : nat) :
  rd (snd (fst (sweep1 inc n))) x
  = if bool_decide (x < n) then sweep_entry inc n x else d0.
Proof.
  unfold sweep1.
  destruct (sweep1_rows inc n n) as (acc & vec & -> & _ & Hrd); [lia|].
  apply Hrd.
Qed.

Lemma sweep_entry_ext_below (inc inc' : nat -> nat -> num -> num) (n x : nat) :
  x < n ->
  (forall idx y acc, idx < ioff n -> inc idx y acc = inc' idx y acc) ->
  sweep_entry inc n x = sweep_entry inc' n x.
Proof.
  intros Hx Hext. unfold sweep_entry, row_acc.
  pose proof (ioff_lt x n Hx) as Hxx.
  rewrite (for_loop_ext (x + 1) n _ (fun pq v => inc' (ioff pq + x) pq v)).
  2:{ intros pq v Hpq. apply Hext.
      pose proof (ioff_lt pq n ltac:(lia)). lia. }
  rewrite (for_loop_ext 0 (x + 1) _ (fun rs acc => inc' (ioff x + rs) rs acc)).
  2:{ intros rs v Hrs. apply Hext. lia. }
  rewrite Hext by lia. reflexivity.
Qed.

(** [form_G_from_PK] reads no element of [pk_] or [k_] at or beyond index
    [ioff[pk_pairs_]]: arrays that agree below it give the same [Gc_] and
    [Go_]. *)
Theorem form_G_from_PK_reads (st : ROHF) (pk' k' : list num) (h p q : nat) :
  (forall i, i < ioff (pk_pairs_ (cfg st)) -> pk' !! i = pk_ st !! i) ->
  (forall i, i < ioff (pk_pairs_ (cfg st)) -> k' !! i = k_ st !! i) ->
  let st' := set_k k' (set_pk pk' st) in
  mget (Gc_ (form_G_from_PK st')) h p q = mget (Gc_ (form_G_from_PK st)) h p q
  /\ mget (Go_ (form_G_from_PK st')) h p q = mget (Go_ (form_G_from_PK st)) h p q.
Proof.
  intros Hpk Hk. cbv zeta.
  rewrite !form_G_from_PK_Gc, !form_G_from_PK_Go.
  assert (Hst : cfg (set_k k' (set_pk pk' st)) = cfg st
                /\ pk_ (set_k k' (set_pk pk' st)) = pk'
                /\ k_ (set_k k' (set_pk pk' st)) = k'
                /\ Dc_vector_of (set_k k' (set_pk pk' st)) = Dc_vector_of st
                /\ Do_vector_of (set_k k' (set_pk pk' st)) = Do_vector_of st)
    by (destruct st; repeat split).
  destruct Hst as (-> & -> & -> & -> & ->).
  set (n := pk_pairs_ (cfg st)) in *.
  set (Dcv := Dc_vector_of st). set (Dov := Do_vector_of st).
  destruct (unpack1_all (opi (cfg st)) (snd (fst (sweep1 (gc_inc pk' Dcv Dov) n)))
              (nirreps (cfg st))) as (G1 & -> & HG1).
  destruct (unpack1_all (opi (cfg st)) (snd (fst (sweep1 (gc_inc (pk_ st) Dcv Dov) n)))
              (nirreps (cfg st))) as (G2 & -> & HG2).
  destruct (unpack1_all (opi (cfg st)) (snd (fst (sweep1 (go_inc pk' k' Dcv Dov) n)))
              (nirreps (cfg st))) as (G3 & -> & HG3).
  destruct (unpack1_all (opi (cfg st))
              (snd (fst (sweep1 (go_inc (pk_ st) (k_ st) Dcv Dov) n)))
              (nirreps (cfg st))) as (G4 & -> & HG4).
  cbn [snd]. rewrite HG1, HG2, HG3, HG4, !sweep1_rd.
  split; case_bool_decide; try reflexivity; case_bool_decide; try reflexivity;
    f_equal; apply sweep_entry_ext_below; try assumption;
    intros idx y acc Hidx; unfold gc_inc, go_inc, rd;
    rewrite ?(Hpk idx Hidx), ?(Hk idx Hidx); reflexivity.
Qed.

(** ** Fock builder: symmetry *)

(** Inside a block, [form_F] leaves [Feff_] symmetric in every pair of
    orbitals of which one is open, and in the other pairs wherever the
    MO-basis closed Fock matrix is symmetric. *)
Theorem form_F_symmetric (ext : Collab) (st : ROHF) (h a b : nat) :
  let Fct := transform ext (madd (H_ st) (Gc_ st)) (C_ st) in
  let docc := doccpi_ st !!! h in
  let socc := soccpi_ st !!! h in
  h < nirreps (cfg st) ->
  docc + socc <= opi (cfg st) !!! h ->
  a < opi (cfg st) !!! h -> b < opi (cfg st) !!! h ->
  (~ docc <= a < docc + socc -> ~ docc <= b < docc + socc ->
   mget Fct h a b = mget Fct h b a) ->
  mget (Feff_ (form_F ext st)) h a b = mget (Feff_ (form_F ext st)) h b a.
Proof.
  cbv zeta. intros Hh Hwf Ha Hb Hsym. rewrite form_F_Feff.
  rewrite !form_Feff_get by assumption. unfold Feff_block.
  rewrite (Nat.max_comm b a), (Nat.min_comm b a).
  repeat case_bool_decide; try reflexivity. apply Hsym; assumption.
Qed.

(** ** Density builder: symmetry and empty shells *)

Lemma form_D_get (st : ROHF) (h p q : nat) :
  mget (Dc_ (form_D st)) h p q =
    (if bool_decide (h < nirreps (cfg st) /\ p < opi (cfg st) !!! h
                     /\ q < opi (cfg st) !!! h)
     then dsum 0 (doccpi_ st !!! h)
            (fun m => mget (C_ st) h p m ⊠ mget (C_ st) h q m)
     else mget (Dc_ st) h p q)
  /\ mget (Do_ (form_D st)) h p q =
    (if bool_decide (h < nirreps (cfg st) /\ p < opi (cfg st) !!! h
                     /\ q < opi (cfg st) !!! h)
     then dsum (doccpi_ st !!! h) (doccpi_ st !!! h + soccpi_ st !!! h)
            (fun m => mget (C_ st) h p m ⊠ mget (C_ st) h q m)
     else mget (Do_ st) h p q).
Proof.
  split.
  - replace (Dc_ (form_D st)) with
      (fst (form_D_loops (C_ st) (nirreps (cfg st)) (opi (cfg st))
              (doccpi_ st) (soccpi_ st) (Dc_ st, Do_ st)))
      by (destruct st; reflexivity).
    unfold form_D_loops.
    rewrite (fill_all (fun D => mget (fst D))
               (fun h i j => form_D_entry (C_ st) (doccpi_ st !!! h) (soccpi_ st !!! h) h i j)
               (fun h i j => dsum 0 (doccpi_ st !!! h)
                               (fun m => mget (C_ st) h i m ⊠ mget (C_ st) h j m))).
    + reflexivity.
    + intros. apply form_D_entry_Dc.
  - replace (Do_ (form_D st)) with
      (snd (form_D_loops (C_ st) (nirreps (cfg st)) (opi (cfg st))
              (doccpi_ st) (soccpi_ st) (Dc_ st, Do_ st)))
      by (destruct st; reflexivity).
    unfold form_D_loops.
    rewrite (fill_all (fun D => mget (snd D))
               (fun h i j => form_D_entry (C_ st) (doccpi_ st !!! h) (soccpi_ st !!! h) h i j)
               (fun h i j => dsum (doccpi_ st !!! h) (doccpi_ st !!! h + soccpi_ st !!! h)
                               (fun m => mget (C_ st) h i m ⊠ mget (C_ st) h j m))).
    + reflexivity.
    + intros. apply form_D_entry_Do.
Qed.

Lemma dsum_ext (lo hi : nat) (f g : nat -> num) :
  (forall m, lo <= m < hi -> f m = g m) -> dsum lo hi f = dsum lo hi g.
Proof.
  intros Hfg. unfold dsum. apply for_loop_ext.
  intros m acc Hm. rewrite Hfg by exact Hm. reflexivity.
Qed.

(** Where multiplication is commutative, [form_D] leaves [Dc_] and [Do_]
    symmetric inside every block. *)
Theorem form_D_symmetric (st : ROHF) (h p q : nat) :
  (forall x y : num, x ⊠ y = y ⊠ x) ->
  h < nirreps (cfg st) -> p < opi (cfg st) !!! h -> q < opi (cfg st) !!! h ->
  mget (Dc_ (form_D st)) h p q = mget (Dc_ (form_D st)) h q p
  /\ mget (Do_ (form_D st)) h p q = mget (Do_ (form_D st)) h q p.
Proof.
  intros Hcomm Hh Hp Hq.
  destruct (form_D_get st h p q) as [-> ->].
  destruct (form_D_get st h q p) as [-> ->].
  rewrite !bool_decide_eq_true_2 by auto.
  split; apply dsum_ext; intros m _; apply Hcomm.
Qed.

(** An irrep without doubly occupied orbitals has a zero block in [Dc_]
    after [form_D], and an irrep without singly occupied orbitals a zero
    block in [Do_]: for a closed-shell occupation the open-shell density
    vanishes. *)
Theorem form_D_empty_shell (st : ROHF) (h p q : nat) :
  h < nirreps (cfg st) -> p < opi (cfg st) !!! h -> q < opi (cfg st) !!! h ->
  (doccpi_ st !!! h = 0 -> mget (Dc_ (form_D st)) h p q = d0)
  /\ (soccpi_ st !!! h = 0 -> mget (Do_ (form_D st)) h p q = d0).
Proof.
  intros Hh Hp Hq.
  destruct (form_D_get st h p q) as [-> ->].
  rewrite !bool_decide_eq_true_2 by auto.
  split; intros ->; unfold dsum; apply for_loop_empty; lia.
Qed.

(** ** Persistence: the number of open irreps *)

Lemma count_loop (P : nat -> Prop) `{!forall i, Decision (P i)} (n : nat) :
  for_loop 0 n (fun i c => if bool_decide (P i) then c + 1 else c) 0
  = length (filter P (seq 0 n)).
Proof.
  induction n as [|n IH].
  - rewrite for_loop_empty by lia. reflexivity.
  - rewrite for_loop_snoc by lia. rewrite IH.
    rewrite seq_S, filter_app, length_app. simpl.
    rewrite filter_cons, filter_nil.
    case_bool_decide; destruct (decide (P n)); try contradiction; simpl; lia.
Qed.

(** [save_information] writes one [iopen] record: [n (n + 1)], where [n]
    is the number of irreps with a singly occupied orbital. *)
Theorem save_information_iopen (ext : Collab) (st : ROHF) (m : nat) :
  let n := length (filter (fun h => soccpi_ st !!! h <> 0)
                     (seq 0 (nirreps (cfg st)))) in
  Chkpt (wt_iopen m) ∈ save_information ext st <-> m = n * (n + 1).
Proof.
  cbv zeta. unfold save_information.
  rewrite (count_loop (fun i => soccpi_ st !!! i <> 0)).
  set (n := length _).
  rewrite !elem_of_app, !elem_of_cons, !elem_of_nil.
  split.
  - intros [H | [H | H]].
    + repeat destruct H as [H | H]; try discriminate H; contradiction.
    + destruct (print_mos ext); rewrite ?elem_of_cons, ?elem_of_nil in H;
        repeat destruct H as [H | H]; try discriminate H; contradiction.
    + repeat destruct H as [H | H]; try discriminate H; try contradiction.
      injection H as ->. reflexivity.
  - intros ->. right. right. auto 20.
Qed.

(** ** The densities at the end of a run *)

Lemma scf_loop_form_D (ext : Collab) (fuel : nat) :
  forall (iter : Z) (out : list event) (st : ROHF)
         (conv : bool) (it : Z) (out' : list event) (st' : ROHF),
  scf_loop ext fuel iter out st = Ret (conv, it, out', st') ->
  exists s, st' = form_D s.
Proof.
  induction fuel as [|fuel IH]; intros iter out st conv it out' st' Hloop;
    simpl in Hloop;
    destruct (scf_iteration ext (iter + 1) st) as [[line s1]| | |] eqn:Hit;
    try discriminate;
    destruct (negb (test_convergency s1) && _) eqn:Hgo; try discriminate;
    try (injection Hloop as <- <- <- <-; unfold scf_iteration in Hit;
         destruct (build_G ext _) as [s2| | |]; try discriminate;
         destruct (diis_step ext _ _) as [[b s3]| | |]; try discriminate;
         injection Hit as <- <-; eauto).
  eapply IH, Hloop.
Qed.

(** When [compute_energy] returns, [Dc_] and [Do_] are the densities of
    the orbitals and occupations it leaves in [C_], [doccpi_] and
    [soccpi_]: the sums over the doubly and over the singly occupied
    columns. *)
Theorem compute_energy_densities (ext : Collab) (st : ROHF) (e : num)
    (h p q : nat) :
  let s := run_state (compute_energy ext st) in
  run_result (compute_energy ext st) = Ret e ->
  h < nirreps (cfg st) -> p < opi (cfg st) !!! h -> q < opi (cfg st) !!! h ->
  mget (Dc_ s) h p q =
    dsum 0 (doccpi_ s !!! h) (fun m => mget (C_ s) h p m ⊠ mget (C_ s) h q m)
  /\ mget (Do_ s) h p q =
    dsum (doccpi_ s !!! h) (doccpi_ s !!! h + soccpi_ s !!! h)
         (fun m => mget (C_ s) h p m ⊠ mget (C_ s) h q m).
Proof.
  cbv zeta. unfold compute_energy.
  pose proof (scf_init_parts ext st) as (Hcfg & _).
  destruct (scf_init ext st) as [out0 st0]. simpl in Hcfg.
  destruct (scf_loop ext _ 0 out0 st0) as [[[[conv it] out'] st']| | |] eqn:Hloop;
    try discriminate.
  pose proof (scf_loop_ret _ _ _ _ _ _ _ _ _ Hloop) as (_ & Hfix & _).
  apply scf_loop_form_D in Hloop as [s ->].
  assert (Hc : cfg s = cfg st).
  { unfold fixed_part in Hfix. destruct s. simpl in *. congruence. }
  assert (Hrun : run_state (if conv
            then {| run_result := Ret (E_ (form_D s)); run_iter := it;
                    run_out := out' ++ [Print "  Energy converged."]
                                    ++ save_information ext (form_D s);
                    run_state := form_D s |}
            else {| run_result := Ret d0; run_iter := it;
                    run_out := out' ++ [Print "  Failed to converge."];
                    run_state := form_D s |}) = form_D s) by (destruct conv; reflexivity).
  intros _ Hh Hp Hq. rewrite Hrun. clear Hrun.
  destruct (form_D_get s h p q) as [-> ->].
  rewrite !bool_decide_eq_true_2 by (rewrite Hc; auto).
  replace (C_ (form_D s)) with (C_ s) by (destruct s; reflexivity).
  replace (doccpi_ (form_D s)) with (doccpi_ s) by (destruct s; reflexivity).
  replace (soccpi_ (form_D s)) with (soccpi_ s) by (destruct s; reflexivity).
  split; reflexivity.
Qed.

(** ** An [scf_type_] the driver does not know *)

Lemma build_G_unknown (ext : Collab) (st : ROHF) :
  known_scf_type (scf_type_ st) = false -> build_G ext st = Ret st.
Proof.
  unfold known_scf_type, build_G. intros H.
  apply orb_false_elim in H as [H Hooc].
  apply orb_false_elim in H as [H Hdf].
  apply orb_false_elim in H as [Hpk Hdirect].
  rewrite Hpk, Hdirect, Hdf, Hooc. reflexivity.
Qed.

Lemma scf_iteration_unknown (ext : Collab) (iter : Z) (st st' : ROHF)
    (line : list event) :
  known_scf_type (scf_type_ st) = false ->
  scf_iteration ext iter st = Ret (line, st') -> g_part st' = g_part st.
Proof.
  intros Hty. unfold scf_iteration.
  rewrite build_G_unknown by (destruct st; exact Hty).
  set (s0 := set_Eold _ _).
  assert (Hs0 : g_part s0 = g_part st) by (subst s0; destruct st; reflexivity).
  assert (HF : g_part (form_F ext s0) = g_part s0) by (destruct s0; reflexivity).
  set (s2 := form_F ext s0) in *.
  set (s3 := if diis_enabled_ (cfg s2) then save_fock s2 else s2).
  assert (Hs3 : g_part s3 = g_part s2).
  { subst s3. destruct (diis_enabled_ (cfg s2)); [|reflexivity].
    unfold save_fock. destruct (initialized_diis_manager_ s2); [reflexivity|].
    destruct s2. reflexivity. }
  set (s4 := set_E _ s3).
  assert (Hs4 : g_part s4 = g_part s3) by (subst s4; destruct s3; reflexivity).
  destruct (diis_step ext iter s4) as [[b s5]| | |] eqn:HD; try discriminate.
  assert (Hs5 : g_part s5 = g_part s4).
  { unfold diis_step in HD. destruct (_ && _ && _).
    - unfold diis in HD. destruct (diis_manager_ s4) as [m|]; [|discriminate].
      destruct (extrapolate ext m (Feff_ s4)) as [ok F].
      injection HD as _ <-. destruct s4. reflexivity.
    - injection HD as _ <-. reflexivity. }
  intros [= _ <-].
  assert (HC : g_part (form_C ext s5) = g_part s5).
  { destruct s5. unfold form_C. simpl.
    destruct (diagonalize ext _) as [eigvec eps]. simpl.
    destruct (find_occupation ext _ _) as [docc socc]. reflexivity. }
  assert (HD' : g_part (form_D (form_C ext s5)) = g_part (form_C ext s5))
    by (destruct (form_C ext s5); reflexivity).
  congruence.
Qed.

Lemma scf_loop_unknown (ext : Collab) (fuel : nat) :
  forall (iter : Z) (out : list event) (st : ROHF)
         (conv : bool) (it : Z) (out' : list event) (st' : ROHF),
  known_scf_type (scf_type_ st) = false ->
  scf_loop ext fuel iter out st = Ret (conv, it, out', st') ->
  g_part st' = g_part st.
Proof.
  induction fuel as [|fuel IH]; intros iter out st conv it out' st' Hty Hloop;
    simpl in Hloop;
    destruct (scf_iteration ext (iter + 1) st) as [[line s1]| | |] eqn:Hit;
    try discriminate;
    pose proof (scf_iteration_unknown _ _ _ _ _ Hty Hit) as Hg;
    pose proof (scf_iteration_parts _ _ _ _ _ Hit) as (Hfix & _);
    destruct (negb (test_convergency s1) && _) eqn:Hgo; try discriminate;
    try (injection Hloop as <- <- <- <-; exact Hg).
  rewrite <- Hg. eapply IH; [|exact Hloop].
  unfold fixed_part in Hfix. congruence.
Qed.

(** With a value of [scf_type_] for which the driver has no branch,
    [compute_energy] builds no G matrix at all: provided the DIIS flag and
    pointer agree it returns as usual, after iterating on the [Gc_] and
    [Go_] the object held on entry, which it leaves unchanged. *)
Theorem compute_energy_unknown_scf_type (ext : Collab) (st : ROHF) :
  known_scf_type (scf_type_ st) = false -> diis_wf st ->
  let r := compute_energy ext st in
  (exists e, run_result r = Ret e)
  /\ Gc_ (run_state r) = Gc_ st /\ Go_ (run_state r) = Go_ st.
Proof.
  intros Hty Hwf. cbv zeta. unfold compute_energy.
  pose proof (scf_init_parts ext st) as (Hcfg & Hty0 & Hdp & _).
  assert (Hg0 : g_part (snd (scf_init ext st)) = g_part st).
  { destruct st. unfold scf_init, form_PK. simpl.
    repeat (destruct (bool_decide (_ = "PK")); simpl); reflexivity. }
  destruct (scf_init ext st) as [out0 st0]. simpl in Hcfg, Hty0, Hdp, Hg0.
  assert (Hne : scf_type_ st0 <> "DIRECT" /\ scf_type_ st0 <> "OUT_OF_CORE").
  { rewrite Hty0. unfold known_scf_type in Hty.
    split; intros Heq; rewrite Heq in Hty; discriminate Hty. }
  destruct (scf_loop_returns ext (Z.to_nat (maxiter_ (cfg st0))) 0 out0 st0)
    as ([[[conv it] out'] st'] & Hloop); try apply Hne.
  { unfold diis_wf, diis_part in *. injection Hdp as -> ->. exact Hwf. }
  { lia. }
  rewrite Hloop.
  apply scf_loop_unknown in Hloop; [|rewrite Hty0; exact Hty].
  unfold g_part in *.
  destruct conv; cbn [run_result run_state]; (split; [eauto|split; congruence]).
Qed.

End Properties.

(** * SAPT(DFT): the result table *)

Section SaptProperties.
Context {Sc : Scalar}.
Variable d1000 d627_5095 : num.

(** [print_results] returns the SAPT(DFT) total
    [E_HF + Disp20(CHF) + Exch-Disp20], with [E_HF] the dimer energy minus
    the two monomer energies, and stores it under "SAPT ENERGY" and under
    "SAPT SAPT DFT ENERGY"; it assigns the eleven result keys and leaves
    every other global variable, [calc_info_] and [results_] as they
    were. *)
Theorem print_results_globals (s : SAPT_DFT.SAPT) :
  let ci := SAPT_DFT.calc_info_ s in
  let r := SAPT_DFT.results_ s in
  let e := fst (SAPT_DFT.print_results d1000 d627_5095 s) in
  let s' := snd (SAPT_DFT.print_results d1000 d627_5095 s) in
  e = SAPT_DFT.eHF_D ci ⊟ SAPT_DFT.eHF_A ci ⊟ SAPT_DFT.eHF_B ci
      ⊞ SAPT_DFT.disp20chf r ⊞ SAPT_DFT.exch_disp20 r
  /\ SAPT_DFT.globals s' !! "SAPT ENERGY" = Some e
  /\ SAPT_DFT.globals s' !! "SAPT SAPT DFT ENERGY" = Some e
  /\ (forall key, key ∈ SAPT_DFT.result_keys ->
        is_Some (SAPT_DFT.globals s' !! key))
  /\ (forall key, key ∉ SAPT_DFT.result_keys ->
        SAPT_DFT.globals s' !! key = SAPT_DFT.globals s !! key)
  /\ SAPT_DFT.calc_info_ s' = ci /\ SAPT_DFT.results_ s' = r.
Proof.
  cbv zeta. unfold SAPT_DFT.print_results. cbn [fst snd SAPT_DFT.globals
    SAPT_DFT.calc_info_ SAPT_DFT.results_].
  split; [reflexivity|]. split; [apply lookup_insert_eq|].
  split; [rewrite lookup_insert_ne by discriminate; apply lookup_insert_eq|].
  split; [|split; [|split; reflexivity]].
  - intros key Hkey. unfold SAPT_DFT.result_keys in Hkey.
    rewrite !elem_of_cons, elem_of_nil in Hkey.
    repeat (destruct Hkey as [-> | Hkey];
            [rewrite ?lookup_insert_ne by discriminate;
             rewrite lookup_insert_eq; eauto|]).
    contradiction.
  - intros key Hkey. unfold SAPT_DFT.result_keys in Hkey.
    rewrite !not_elem_of_cons in Hkey.
    rewrite !lookup_insert_ne by (intros Heq; symmetry in Heq; tauto).
    reflexivity.
Qed.

(** Where subtracting and adding back the same number cancels
    ([a + (x - a) = x]), the totals stored by [print_results] are the sums
    of the stored components: SAPT0 is
    Elst10 + Exch10 + Ind20 + Exch-Ind20 + delta HF + Disp20 + Exch-Disp20,
    and the SAPT(DFT) energy the same sum with Disp20 (CHF) for Disp20. *)
Theorem print_results_totals (s : SAPT_DFT.SAPT) :
  (forall x a : num, a ⊞ (x ⊟ a) = x) ->
  let g := SAPT_DFT.global (SAPT_DFT.globals
             (snd (SAPT_DFT.print_results d1000 d627_5095 s))) in
  g "SAPT SAPT0 ENERGY"
  = g "SAPT ELST10 ENERGY" ⊞ g "SAPT EXCH10 ENERGY" ⊞ g "SAPT IND20 ENERGY"
    ⊞ g "SAPT EXCH-IND20 ENERGY" ⊞ g "SAPT DELTA-HF ENERGY"
    ⊞ g "SAPT DISP20 ENERGY" ⊞ g "SAPT EXCH-DISP20 ENERGY"
  /\ g "SAPT ENERGY"
  = g "SAPT ELST10 ENERGY" ⊞ g "SAPT EXCH10 ENERGY" ⊞ g "SAPT IND20 ENERGY"
    ⊞ g "SAPT EXCH-IND20 ENERGY" ⊞ g "SAPT DELTA-HF ENERGY"
    ⊞ g "SAPT DISP20 CHF ENERGY" ⊞ g "SAPT EXCH-DISP20 ENERGY".
Proof.
  intros Hcancel. cbv zeta. unfold SAPT_DFT.print_results, SAPT_DFT.global.
  cbn [snd SAPT_DFT.globals].
  repeat (rewrite ?lookup_insert_ne by discriminate; rewrite lookup_insert_eq).
  unfold default. cbn [from_option id]. rewrite Hcancel. split; reflexivity.
Qed.

End SaptProperties.

(** * Optimization history: the inline accessors *)

Section OptProperties.
Context {Sc : Scalar}.

Lemma copy_loop (src : list num) (n : nat) (dst : list num) :
  n <= length dst -> n <= length src ->
  for_loop 0 n (fun i a => <[i := default d0 (src !! i)]> a) dst
  = take n src ++ drop n dst.
Proof.
  intros Hdst Hsrc. induction n as [|n IH].
  - rewrite for_loop_empty by lia. rewrite take_0, drop_0. reflexivity.
  - rewrite for_loop_snoc by lia. rewrite IH by lia.
    destruct (lookup_lt_is_Some_2 src n ltac:(lia)) as [v Hv].
    rewrite Hv. unfold default. cbn [from_option id].
    rewrite (take_S_r _ _ _ Hv).
    destruct (lookup_lt_is_Some_2 dst n ltac:(lia)) as [w Hw].
    rewrite (drop_S _ _ _ Hw).
    rewrite insert_app_r_alt by (rewrite length_take; lia).
    rewrite length_take. replace (n - n `min` length src) with 0 by lia.
    rewrite <- app_assoc. reflexivity.
Qed.

(** With room for [Nintco + 1] entries on both sides,
    [set_rfo_eigenvector] copies exactly the first [Nintco + 1] entries of
    its argument and leaves the rest of [rfo_eigenvector], and every other
    member, alone. *)
Theorem set_rfo_eigenvector_copies (evect_in : list num) (o : OPT.OPT_DATA) :
  let n := Z.to_nat (OPT.Nintco o + 1) in
  n <= length (OPT.rfo_eigenvector o) -> n <= length evect_in ->
  OPT.rfo_eigenvector (OPT.set_rfo_eigenvector evect_in o)
  = take n evect_in ++ drop n (OPT.rfo_eigenvector o)
  /\ OPT.steps (OPT.set_rfo_eigenvector evect_in o) = OPT.steps o
  /\ OPT.Nintco (OPT.set_rfo_eigenvector evect_in o) = OPT.Nintco o.
Proof.
  cbv zeta. intros Hdst Hsrc. unfold OPT.set_rfo_eigenvector.
  cbn [OPT.rfo_eigenvector OPT.steps OPT.Nintco].
  split; [|split; reflexivity]. apply copy_loop; assumption.
Qed.

(** [g_last_energy] is 0.0 while fewer than two steps are stored -- also
    on an empty history, where [g_energy] has no defined behaviour -- and
    once a step has been appended to a history that was not empty it is
    the energy [g_energy] gave before. *)
Theorem g_last_energy_previous (o o' : OPT.OPT_DATA) (s : OPT.STEP_DATA) :
  (length (OPT.steps o) <= 1 -> OPT.g_last_energy o = OPT.Got d0)
  /\ (OPT.steps o = [] -> OPT.g_energy o = OPT.NoBehaviour)
  /\ (OPT.steps o <> [] -> OPT.steps o' = OPT.steps o ++ [s] ->
      OPT.g_last_energy o' = OPT.g_energy o
      /\ OPT.g_energy o' = OPT.Got (OPT.energy s)).
Proof.
  unfold OPT.g_last_energy, OPT.g_energy, OPT.size, OPT.subscript.
  split; [|split].
  - intros Hlen. rewrite bool_decide_eq_false_2 by lia. reflexivity.
  - intros ->. reflexivity.
  - intros Hne ->. rewrite length_app. cbn [length].
    destruct (OPT.steps o) as [|s0 l] eqn:Hsteps using rev_ind; [contradiction|].
    clear IHl. rewrite !length_app. cbn [length].
    rewrite !bool_decide_eq_true_2 by lia.
    replace (Z.to_nat (Z.of_nat (length l + 1 + 1) - 2)) with (length l) by lia.
    replace (Z.to_nat (Z.of_nat (length l + 1) - 1)) with (length l) by lia.
    replace (Z.to_nat (Z.of_nat (length l + 1 + 1) - 1)) with (length (l ++ [s0])).
    2:{ rewrite length_app. cbn [length]. lia. }
    split.
    + rewrite <- app_assoc.
      rewrite (list_lookup_middle l ([] ++ [s]) s0) by reflexivity.
      rewrite (list_lookup_middle l [] s0) by reflexivity. reflexivity.
    + rewrite (list_lookup_middle (l ++ [s0]) [] s) by reflexivity. reflexivity.
Qed.

End OptProperties.

(** * Concrete runs *)

(** ** Inputs on which the theorems above apply *)

Lemma form_D_density_witness :
  let st := Demo.open_shell 1 0%float false in
  mget (Dc_ (form_D st)) 0 0 1 =
    dsum 0 (doccpi_ st !!! 0) (fun m => mget (C_ st) 0 0 m ⊠ mget (C_ st) 0 1 m)
  /\ mget (Do_ (form_D st)) 0 0 1 =
    dsum (doccpi_ st !!! 0) (doccpi_ st !!! 0 + soccpi_ st !!! 0)
         (fun m => mget (C_ st) 0 0 m ⊠ mget (C_ st) 0 1 m)
  /\ form_D st = set_Do (Do_ (form_D st)) (set_Dc (Dc_ (form_D st)) st).
Proof.
  apply (form_D_density (Demo.open_shell 1 0%float false) 0 0 1); simpl; lia.
Defined.

Lemma form_F_closed_shell_limit_witness :
  Feff_ (form_F Demo.ext Demo.closed_shell)
  = transform Demo.ext (Fc_ (form_F Demo.ext Demo.closed_shell)) (C_ Demo.closed_shell)
  /\ Fc_ (form_F Demo.ext Demo.closed_shell)
     = madd (H_ Demo.closed_shell) (Gc_ Demo.closed_shell).
Proof.
  apply (form_F_closed_shell_limit Demo.ext Demo.closed_shell).
  intros h Hh. simpl in Hh. destruct h; [reflexivity|lia].
Defined.

Lemma form_PK_record_deposits_witness :
  let c := Demo.config 1 0%float false [] in
  let P := (Demo.zeros, Demo.zeros) in
  form_PK_record c Demo.r1010 P
  = foldl (fun P d => apply_deposit d P) P (pk_deposits c Demo.r1010).
Proof.
  apply (form_PK_record_deposits (Demo.config 1 0%float false []) Demo.r1010);
    simpl; try lia.
  intros a b Ha Hb _ Hidx.
  destruct a as [|[|a]], b as [|[|b]]; simpl in *; try lia; discriminate.
Defined.

Lemma form_G_from_PK_contraction_witness :
  let st := snd (scf_init Demo.ext (Demo.open_shell 1 0%float false)) in
  let Dcv := Dc_vector_of st in
  let Dov := Do_vector_of st in
  rd Dcv 1 = packed_entry (Dc_ st) 0 1 0
  /\ rd Dov 1 = packed_entry (Do_ st) 0 1 0
  /\ mget (Gc_ (form_G_from_PK st)) 0 1 0
     = d2 ⊠ sweep_entry (gc_inc (pk_ st) Dcv Dov) 3 1
  /\ mget (Gc_ (form_G_from_PK st)) 0 0 1
     = d2 ⊠ sweep_entry (gc_inc (pk_ st) Dcv Dov) 3 1
  /\ mget (Go_ (form_G_from_PK st)) 0 1 0
     = d2 ⊠ sweep_entry (go_inc (pk_ st) (k_ st) Dcv Dov) 3 1
  /\ mget (Go_ (form_G_from_PK st)) 0 0 1
     = d2 ⊠ sweep_entry (go_inc (pk_ st) (k_ st) Dcv Dov) 3 1.
Proof.
  apply (form_G_from_PK_contraction
           (snd (scf_init Demo.ext (Demo.open_shell 1 0%float false))) 0 1 0);
    vm_compute; lia.
Defined.

Lemma form_F_blocks_witness :
  let st := Demo.one_open in
  mget (Feff_ (form_F Demo.ext st)) 0 0 0
  = Feff_block (transform Demo.ext (Fc_ (form_F Demo.ext st)) (C_ st))
               (transform Demo.ext (Fo_ (form_F Demo.ext st)) (C_ st))
               (doccpi_ st !!! 0) (soccpi_ st !!! 0) 0 0 0.
Proof. apply (form_F_blocks Demo.ext Demo.one_open 0 0 0); vm_compute; lia. Defined.

Lemma exactQ_laws : AddLaws exactQ.
Proof.
  split.
  - intros x y. apply Qcplus_comm.
  - intros x y z. apply Qcplus_assoc.
  - intros x. apply Qcplus_0_l.
Defined.


Lemma scf_init_forms_PK_twice_witness :
  let st := Demo.open_shell 1 0%float false in
  let st2 := snd (form_PK (snd (form_PK st))) in
  pk_ (snd (scf_init Demo.ext st)) = pk_ st2
  /\ k_ (snd (scf_init Demo.ext st)) = k_ st2
  /\ length (List.filter is_forming_PK (fst (scf_init Demo.ext st))) = 2.
Proof.
  apply (scf_init_forms_PK_twice Demo.ext (Demo.open_shell 1 0%float false)).
  reflexivity.
Defined.

Lemma compute_energy_outcome_witness :
  let st := Demo.open_shell 3 0%float true in
  let r := compute_energy Demo.ext st in
  let s := run_state r in
  (1 <= run_iter r <= Z.max 3 1)%Z
  /\ ((run_result r = Ret (E_ s)
       /\ dlt (dabs (E_ s ⊟ Eold_ s)) (energy_threshold_ (cfg st)) = true
       /\ Print "  Energy converged." ∈ run_out r)
      \/ (run_result r = Ret d0
          /\ run_iter r = Z.max 3 1
          /\ dlt (dabs (E_ s ⊟ Eold_ s)) (energy_threshold_ (cfg st)) = false
          /\ Print "  Failed to converge." ∈ run_out r)).
Proof.
  apply (compute_energy_outcome Demo.ext (Demo.open_shell 3 0%float true)).
  - simpl. discriminate.
  - simpl. discriminate.
  - intros Hini. simpl in Hini. discriminate.
Defined.

Lemma save_information_iff_converged_witness :
  let st := Demo.open_shell 2 0%float false in
  let r := compute_energy Demo.ext st in
  let s := run_state r in
  (test_convergency s = true
   /\ 0%float = E_ s
   /\ persisted (run_out r) = persisted (save_information Demo.ext s)
   /\ Chkpt (wt_etot (E_ s)) ∈ run_out r)
  \/ (test_convergency s = false
      /\ 0%float = @d0 binary64
      /\ run_iter r = Z.max (maxiter_ (cfg st)) 1
      /\ persisted (run_out r) = []).
Proof.
  apply (save_information_iff_converged Demo.ext (Demo.open_shell 2 0%float false) 0%float).
  vm_compute. reflexivity.
Defined.

(** ** Inputs on which the specification and the code part ways *)

(** C1.  A single open-shell orbital: [form_F] stores the open Fock element
    [Fo = 0.5] on the open-open diagonal, where the MO-basis closed Fock
    element is [Fc = 1].  The open-virtual coupling is [2 Fo] and the
    virtual-virtual element is [Fc], as documented. *)
Theorem form_F_open_open_block :
  let st := form_F Demo.ext Demo.one_open in
  let Fct := transform Demo.ext (Fc_ st) (C_ st) in
  let Fot := transform Demo.ext (Fo_ st) (C_ st) in
  mget (Feff_ st) 0 0 0 = 0.5%float
  /\ mget Fot 0 0 0 = 0.5%float
  /\ mget Fct 0 0 0 = 1%float
  /\ mget (Feff_ st) 0 0 1 = (2 * mget Fot 0 0 1)%float
  /\ mget (Feff_ st) 0 1 0 = (2 * mget Fot 0 0 1)%float
  /\ mget (Feff_ st) 0 1 1 = mget Fct 0 1 1.
Proof. vm_compute. repeat split. Qed.

(** C2.  With [scf_type_ = "PK"] the driver runs [form_PK] twice before the
    loop: the integral file is read twice and the supermatrix it iterates on
    is not the one a single build produces. *)
Theorem compute_energy_forms_PK_twice :
  let st := Demo.open_shell 1 0%float false in
  let r := compute_energy Demo.ext st in
  length (List.filter is_forming_PK (run_out r)) = 2
  /\ pk_ (run_state r) = pk_ (snd (form_PK (snd (form_PK st))))
  /\ pk_ (snd (form_PK st))
     = [0; 0; 0.25; 0.5; 0; 0]%float
  /\ pk_ (run_state r)
     = [0; 0; 0.375; 1; 0; 0]%float.
Proof. vm_compute. repeat split. Qed.

(** Against C3 as stated: with [maxiter_ = 0] the loop body still runs once, and the
    out-of-core path ends the process instead of returning. *)
Lemma compute_energy_cap_counterexample :
  (let r := compute_energy Demo.ext (Demo.open_shell 0 0%float false) in
   run_result r = Ret 0%float /\ run_iter r = 1%Z
   /\ ~ (run_iter r <= maxiter_ (cfg (Demo.open_shell 0 0%float false)))%Z)
  /\ (let st := set_scf_type "OUT_OF_CORE" (Demo.open_shell 3 0%float false) in
      run_result (compute_energy Demo.ext st)
      = Abort "ROHF out-of-core algorithm is not implemented yet!").
Proof. vm_compute. repeat split. intros H. apply H. reflexivity. Qed.

(** Against C4 as stated: the record (10|10) has [i <> j] and [k <> l], so
    the specification's rule gives its exchange terms the weight 0.25.  Under
    (ik|jl) = (11|00) the pairs (1,1) and (0,0) differ, an off-diagonal
    element of the supermatrix, and [form_PK] subtracts the term there with
    weight 0.5, because [i = k]. *)
Lemma form_PK_weight_counterexample :
  let c := Demo.config 1 0%float false [] in
  let z := Demo.zeros in
  let P := form_PK_record c Demo.r1010 (z, z) in
  claimed_exchange_weight Demo.r1010 = 0.25%float
  /\ INDEX2 (pair_index c 1 1) (pair_index c 0 0) = 3
  /\ pair_index c 1 1 <> pair_index c 0 0
  /\ rd (snd P) 3 = (0 - 0.5 * 1)%float
  /\ rd (fst P) 3 = (0 - 0.5 * 1)%float
  /\ rd (snd P) 3
     <> (0%float : @num binary64)
        ⊟ claimed_exchange_weight Demo.r1010 ⊠ ival Demo.r1010.
Proof.
  cbv zeta. split; [reflexivity|]. split; [reflexivity|].
  split; [vm_compute; lia|]. split; [vm_compute; reflexivity|].
  split; [vm_compute; reflexivity|].
  intros Heq.
  apply (f_equal (fun x => PrimFloat.eqb x (-0.5)%float)) in Heq.
  vm_compute in Heq. discriminate Heq.
Qed.

(** C9.  [save_fock], which the driver calls in every iteration of a run
    with DIIS enabled ("Save the effective Fock for diis"), appends
    nothing: a call leaves the history of an initialised manager as it is
    and otherwise installs a manager with an empty history.  Six iterations
    with DIIS enabled: [save_fock] has run six times and the sixth
    iteration is an extrapolation step, yet the manager holds no entry. *)
Theorem save_fock_appends_nothing :
  (forall (Sc : Scalar) (st : ROHF),
     diis_history (save_fock st)
     = if initialized_diis_manager_ st then diis_history st else [])
  /\ (let r := compute_energy Demo.ext (Demo.open_shell 6 0%float true) in
      run_iter r = 6%Z
      /\ length (List.filter is_diis_line (run_out r)) = 1
      /\ is_Some (diis_manager_ (run_state r))
      /\ diis_history (run_state r) = []).
Proof.
  split.
  - intros Sc st. unfold save_fock.
    destruct (initialized_diis_manager_ st); [reflexivity|].
    destruct st. reflexivity.
  - vm_compute. repeat split. eexists. reflexivity.
Qed.

(** ** Further inputs on which the theorems above apply *)

Lemma compute_energy_iteration_lines_witness :
  let st := Demo.open_shell 6 0%float true in
  let r := compute_energy Demo.ext st in
  line_flag <$> iteration_lines (run_out r)
  = (fun i => (i, diis_due (cfg st) i)) <$> seqZ 1 (run_iter r).
Proof.
  apply (compute_energy_iteration_lines Demo.ext
           (Demo.open_shell 6 0%float true) 0%float).
  vm_compute. reflexivity.
Defined.

Lemma compute_energy_energy_chain_witness :
  let st := Demo.open_shell 3 0%float false in
  let r := compute_energy Demo.ext st in
  let ls := iteration_lines (run_out r) in
  let E0 := E_ (snd (scf_init Demo.ext st)) in
  energy_chain E0 ls
  /\ last_energy E0 ls = E_ (run_state r)
  /\ (test_convergency (run_state r) = true -> 0%float = last_energy E0 ls).
Proof.
  apply (compute_energy_energy_chain Demo.ext
           (Demo.open_shell 3 0%float false) 0%float).
  vm_compute. reflexivity.
Defined.

Lemma compute_energy_diis_manager_witness :
  let st := Demo.open_shell 6 0%float true in
  let r := compute_energy Demo.ext st in
  diis_part (run_state r)
  = (if diis_enabled_ (cfg st) && negb (initialized_diis_manager_ st)
     then (true, Some (new_DIISManager (max_diis_vectors_ (cfg st))
                         "HF DIIS vector" LargestError OnDisk))
     else diis_part st)
  /\ (diis_history (run_state r) = [] \/ diis_history (run_state r) = diis_history st).
Proof.
  apply (compute_energy_diis_manager Demo.ext
           (Demo.open_shell 6 0%float true) 0%float).
  vm_compute. reflexivity.
Defined.

Lemma compute_energy_unimplemented_witness :
  let st := set_scf_type "DIRECT" (Demo.open_shell 3 0%float false) in
  let r := compute_energy Demo.ext st in
  run_result r
  = Abort (if bool_decide (scf_type_ st = "DIRECT")
           then "ROHF integral direct algorithm is not implemented yet!"
           else "ROHF out-of-core algorithm is not implemented yet!")
  /\ iteration_lines (run_out r) = []
  /\ persisted (run_out r) = []
  /\ pk_ (run_state r) = pk_ st /\ k_ (run_state r) = k_ st.
Proof.
  apply (compute_energy_unimplemented Demo.ext
           (set_scf_type "DIRECT" (Demo.open_shell 3 0%float false))).
  left. reflexivity.
Defined.

Lemma common_init_PK_witness :
  let st := Demo.open_shell 3 0%float false in
  let st' := snd (common_init Demo.zm (epsilon_ st) st) in
  let n := pk_size_ (cfg st) in
  if bool_decide (16 * n + 16 <= memory_ (cfg st)) then
    pk_ st' = replicate n d0 /\ k_ st' = replicate n d0 /\ scf_type_ st' = "PK"
  else
    pk_ st' = [] /\ k_ st' = [] /\ scf_type_ st' = "OUT_OF_CORE"
    /\ run_result (compute_energy Demo.ext st')
       = Abort "ROHF out-of-core algorithm is not implemented yet!".
Proof.
  apply (common_init_PK Demo.ext Demo.zm
           (epsilon_ (Demo.open_shell 3 0%float false))
           (Demo.open_shell 3 0%float false)).
  reflexivity.
Defined.

Lemma form_PK_in_bounds_witness :
  let st := DemoOpt.long_arrays in
  pk_ (snd (form_PK st)) !! 6 = pk_ st !! 6
  /\ k_ (snd (form_PK st)) !! 6 = k_ st !! 6.
Proof.
  apply (form_PK_in_bounds DemoOpt.long_arrays 6).
  - split; [|split].
    + intros a Ha. simpl in Ha. destruct a as [|[|a]]; simpl; lia.
    + intros h Hh. simpl in Hh. destruct h; [reflexivity|lia].
    + reflexivity.
  - intros r Hr. simpl in Hr.
    rewrite !elem_of_cons, elem_of_nil in Hr.
    destruct Hr as [-> | [-> | []]]; vm_compute; lia.
  - vm_compute. lia.
Defined.

Lemma form_PK_buffering_witness :
  let st := Demo.open_shell 1 0%float false in
  let st' := set_cfg (with_so_tei DemoOpt.two_buffers (cfg st)) st in
  fst (form_PK st') = fst (form_PK st)
  /\ pk_ (snd (form_PK st')) = pk_ (snd (form_PK st))
  /\ k_ (snd (form_PK st')) = k_ (snd (form_PK st)).
Proof.
  apply (form_PK_buffering (Demo.open_shell 1 0%float false) DemoOpt.two_buffers).
  reflexivity.
Defined.

Lemma exactQ_cell_laws : CellLaws exactQ.
Proof.
  split; intros x a b.
  - change (x + a + b = x + b + a)%Qc. ring.
  - change (x + a - b = x - b + a)%Qc. ring.
  - change (x - a - b = x - b - a)%Qc. ring.
Defined.

Lemma form_PK_order_independent_witness :
  let st := DemoQ.stateQ [DemoQ.rq1100; DemoQ.rq1010] in
  let f := {| iwl_first := [DemoQ.rq1010]; iwl_rest := [[DemoQ.rq1100]] |} in
  let st' := set_cfg (with_so_tei f (cfg st)) st in
  pk_ (snd (form_PK st')) = pk_ (snd (form_PK st))
  /\ k_ (snd (form_PK st')) = k_ (snd (form_PK st)).
Proof.
  apply (form_PK_order_independent (Sc := exactQ) exactQ_cell_laws
           (DemoQ.stateQ [DemoQ.rq1100; DemoQ.rq1010])
           {| iwl_first := [DemoQ.rq1010]; iwl_rest := [[DemoQ.rq1100]] |}).
  simpl. apply perm_swap.
Defined.

Lemma form_G_from_PK_reads_witness :
  let st := DemoOpt.after_init in
  let st' := set_k DemoOpt.longer_k (set_pk DemoOpt.longer_pk st) in
  mget (Gc_ (form_G_from_PK st')) 0 1 0 = mget (Gc_ (form_G_from_PK st)) 0 1 0
  /\ mget (Go_ (form_G_from_PK st')) 0 1 0 = mget (Go_ (form_G_from_PK st)) 0 1 0.
Proof.
  apply (form_G_from_PK_reads DemoOpt.after_init DemoOpt.longer_pk
           DemoOpt.longer_k 0 1 0).
  - intros i Hi. apply lookup_app_l. vm_compute in Hi. vm_compute. lia.
  - intros i Hi. apply lookup_app_l. vm_compute in Hi. vm_compute. lia.
Defined.

Lemma form_F_symmetric_witness :
  let st := Demo.one_open in
  mget (Feff_ (form_F Demo.ext st)) 0 0 1 = mget (Feff_ (form_F Demo.ext st)) 0 1 0.
Proof.
  apply (form_F_symmetric Demo.ext Demo.one_open 0 0 1); vm_compute; lia.
Defined.

Lemma form_D_symmetric_witness :
  let st := DemoQ.stateQ [] in
  mget (Dc_ (form_D st)) 0 0 1 = mget (Dc_ (form_D st)) 0 1 0
  /\ mget (Do_ (form_D st)) 0 0 1 = mget (Do_ (form_D st)) 0 1 0.
Proof.
  apply (form_D_symmetric (Sc := exactQ) (DemoQ.stateQ []) 0 0 1);
    try (simpl; lia).
  intros x y. apply Qcmult_comm.
Defined.

Lemma form_D_empty_shell_witness :
  let st := Demo.closed_shell in
  (doccpi_ st !!! 0 = 0 -> mget (Dc_ (form_D st)) 0 0 1 = d0)
  /\ (soccpi_ st !!! 0 = 0 -> mget (Do_ (form_D st)) 0 0 1 = d0).
Proof.
  apply (form_D_empty_shell Demo.closed_shell 0 0 1); simpl; lia.
Defined.

Lemma compute_energy_densities_witness :
  let st := Demo.open_shell 2 0%float false in
  let s := run_state (compute_energy Demo.ext st) in
  mget (Dc_ s) 0 0 1 =
    dsum 0 (doccpi_ s !!! 0) (fun m => mget (C_ s) 0 0 m ⊠ mget (C_ s) 0 1 m)
  /\ mget (Do_ s) 0 0 1 =
    dsum (doccpi_ s !!! 0) (doccpi_ s !!! 0 + soccpi_ s !!! 0)
         (fun m => mget (C_ s) 0 0 m ⊠ mget (C_ s) 0 1 m).
Proof.
  apply (compute_energy_densities Demo.ext (Demo.open_shell 2 0%float false)
           0%float 0 0 1).
  - vm_compute. reflexivity.
  - vm_compute. lia.
  - vm_compute. lia.
  - vm_compute. lia.
Defined.

Lemma print_results_totals_witness :
  let g := SAPT_DFT.global (SAPT_DFT.globals
             (snd (SAPT_DFT.print_results (Sc := exactQ)
                     (DemoQ.q 1000) (Q2Qc (6275095 # 10000)) DemoQ.sapt))) in
  g "SAPT SAPT0 ENERGY"
  = g "SAPT ELST10 ENERGY" ⊞ g "SAPT EXCH10 ENERGY" ⊞ g "SAPT IND20 ENERGY"
    ⊞ g "SAPT EXCH-IND20 ENERGY" ⊞ g "SAPT DELTA-HF ENERGY"
    ⊞ g "SAPT DISP20 ENERGY" ⊞ g "SAPT EXCH-DISP20 ENERGY"
  /\ g "SAPT ENERGY"
  = g "SAPT ELST10 ENERGY" ⊞ g "SAPT EXCH10 ENERGY" ⊞ g "SAPT IND20 ENERGY"
    ⊞ g "SAPT EXCH-IND20 ENERGY" ⊞ g "SAPT DELTA-HF ENERGY"
    ⊞ g "SAPT DISP20 CHF ENERGY" ⊞ g "SAPT EXCH-DISP20 ENERGY".
Proof.
  apply (print_results_totals (Sc := exactQ)
           (DemoQ.q 1000) (Q2Qc (6275095 # 10000)) DemoQ.sapt).
  intros x a. change (a + (x - a) = x)%Qc. ring.
Defined.

Lemma set_rfo_eigenvector_copies_witness :
  let o := DemoOpt.history in
  OPT.rfo_eigenvector (OPT.set_rfo_eigenvector DemoOpt.evect o)
  = take 2 DemoOpt.evect ++ drop 2 (OPT.rfo_eigenvector o)
  /\ OPT.steps (OPT.set_rfo_eigenvector DemoOpt.evect o) = OPT.steps o
  /\ OPT.Nintco (OPT.set_rfo_eigenvector DemoOpt.evect o) = OPT.Nintco o.
Proof.
  apply (set_rfo_eigenvector_copies DemoOpt.evect DemoOpt.history); simpl; lia.
Defined.

Lemma compute_energy_unknown_scf_type_witness :
  let st := set_scf_type "SCF" (Demo.open_shell 3 0%float false) in
  let r := compute_energy Demo.ext st in
  (exists e, run_result r = Ret e)
  /\ Gc_ (run_state r) = Gc_ st /\ Go_ (run_state r) = Go_ st.
Proof.
  apply (compute_energy_unknown_scf_type Demo.ext
           (set_scf_type "SCF" (Demo.open_shell 3 0%float false))).
  - reflexivity.
  - intros Hini. simpl in Hini. discriminate.
Defined.
